(** * Floating launcher: configuration store and launch gate

    A shallow embedding of [src/config_manager.py] (class [ConfigManager])
    and [src/app_launcher.py] (class [AppLauncher]), with the properties of
    the specification stated and proved over it.

    Python objects are a small inductive type, dictionaries are finite maps,
    the file system and the process table are explicit state, and a Python
    method is a function from a state to a new state and an outcome, which
    is either a returned value or a raised exception. *)

From Stdlib Require Import ZArith NArith Ascii String.
From stdpp Require Import gmap strings list fin_maps sorting pretty.

#[local] Set Warnings "-register-all".
#[local] Open Scope Z_scope.

(** ** The Python runtime *)

Module Py.

(** The values a configuration can hold: what [json.load] produces, without
    numbers that have a fractional part.  A [str] is kept as its UTF-8
    bytes. *)
Inductive pyval : Type :=
| PNone
| PBool (b : bool)
| PInt (z : Z)
| PStr (s : string)
| PList (l : list pyval)
| PDict (d : gmap string pyval).

(** The classes used with [isinstance] in the source. *)
Inductive pytype : Type := Tstr | Tdict | Tbool | Tint.

(** [isinstance(v, t)]; [bool] is a subclass of [int]. *)
Definition isinstance (v : pyval) (t : pytype) : bool :=
  match t, v with
  | Tstr, PStr _ => true
  | Tdict, PDict _ => true
  | Tbool, PBool _ => true
  | Tint, PInt _ => true
  | Tint, PBool _ => true
  | _, _ => false
  end.

(** [t.__name__] *)
Definition type_name (t : pytype) : string :=
  match t with
  | Tstr => "str"
  | Tdict => "dict"
  | Tbool => "bool"
  | Tint => "int"
  end.

(** The integer an instance of [int] stands for in a comparison. *)
Definition int_value (v : pyval) : Z :=
  match v with
  | PInt z => z
  | PBool true => 1
  | _ => 0
  end.

(** The exception classes that occur.  [FileNotFoundError] and
    [PermissionError] are subclasses of [OSError] ([IOError] is an alias of
    it, [shutil.SameFileError] a subclass); [JSONDecodeError] and
    [UnicodeDecodeError] are two subclasses of [ValueError], neither of the
    other; [text] is [str(e)]. *)
Inductive exn : Type :=
| FileNotFoundError (text : string)
| PermissionError (text : string)
| OSError (errno : option Z) (text : string)
| JSONDecodeError
| UnicodeDecodeError
| ValueError
| AttributeError
| TypeError
| RecursionError
| OtherException (text : string).

Definition is_OSError (e : exn) : bool :=
  match e with
  | FileNotFoundError _ | PermissionError _ | OSError _ _ => true
  | _ => false
  end.

Definition is_JSONDecodeError (e : exn) : bool :=
  match e with JSONDecodeError => true | _ => false end.

Definition exn_text (e : exn) : string :=
  match e with
  | FileNotFoundError t | PermissionError t | OSError _ t | OtherException t => t
  | JSONDecodeError => "Expecting value"
  | UnicodeDecodeError => "'utf-8' codec can't decode byte"
  | ValueError => "Exceeds the limit for integer string conversion"
  | AttributeError => "object has no attribute"
  | TypeError => "unsupported operand"
  | RecursionError => "maximum recursion depth exceeded"
  end.

(** What a call does: it returns a value or raises. *)
Inductive outcome (A : Type) : Type :=
| Returns (a : A)
| Raises (e : exn).
Arguments Returns {A} a.
Arguments Raises {A} e.

(** A method over a state [S]: effects made before an exception is raised
    stay. *)
Definition M (S A : Type) : Type := S → S * outcome A.

Definition ret {S A} (a : A) : M S A := λ s, (s, Returns a).

Definition raise {S A} (e : exn) : M S A := λ s, (s, Raises e).

Definition bind {S A B} (m : M S A) (k : A → M S B) : M S B :=
  λ s, match m s with
       | (s', Returns a) => k a s'
       | (s', Raises e) => (s', Raises e)
       end.

(** [try: body except ...: handler]: [handler e] is [Some h] when one of the
    [except] clauses matches [e]; an exception raised by [h] is not caught
    by a sibling clause. *)
Definition try_except {S A} (body : M S A) (handler : exn → option (M S A)) : M S A :=
  λ s, match body s with
       | (s', Returns a) => (s', Returns a)
       | (s', Raises e) =>
           match handler e with
           | Some h => h s'
           | None => (s', Raises e)
           end
       end.

(** [for x in xs: body x], stopped by the first exception. *)
Fixpoint for_each {S A} (xs : list A) (body : A → M S unit) : M S unit :=
  match xs with
  | [] => ret tt
  | x :: xs' => bind (body x) (λ _, for_each xs' body)
  end.

(** [s.endswith(suffix)] *)
Definition endswith (s suffix : string) : bool :=
  String.prefix (String.rev suffix) (String.rev s).

(** [s.startswith(prefix)] *)
Definition startswith (s prefix : string) : bool := String.prefix prefix s.

(** [sub in s] for two [str]. *)
Fixpoint str_contains (sub s : string) : bool :=
  String.prefix sub s ||
  match s with
  | EmptyString => false
  | String _ s' => str_contains sub s'
  end.

(** [key in container], for a [str] key: a dictionary is asked for the key,
    a list for an equal element, a string for a substring; anything else is
    not iterable. *)
Definition contains (key : string) (container : pyval) : outcome bool :=
  match container with
  | PDict d => Returns (bool_decide (is_Some (d !! key)))
  | PList l =>
      Returns (existsb (λ v, match v with PStr s => String.eqb s key | _ => false end) l)
  | PStr s => Returns (str_contains key s)
  | _ => Raises TypeError
  end.

(** [l[:-n]]: all but the last [n] elements; [l[:-0]] is [l[:0]]. *)
Definition slice_until_neg {A} (n : nat) (l : list A) : list A :=
  match n with
  | O => []
  | _ => take (length l - n) l
  end.

End Py.

Export Py.

Declare Scope py_scope.
Delimit Scope py_scope with py.
Notation "'let!' x ':=' m 'in' k" := (bind m (λ x, k))
  (at level 10, x pattern, m at level 100, k at level 200) : py_scope.
Notation "m1 ';;' m2" := (bind m1 (λ _, m2))
  (at level 100, m2 at level 200, right associativity) : py_scope.
#[local] Open Scope py_scope.

(** ** The configuration store: [class ConfigManager] *)

(** *** The files the store works on *)

(** Why [json.load] of a file opened with [encoding='utf-8'] can fail
    otherwise than on the JSON syntax: the bytes are not UTF-8, the value is
    nested too deep, or a number has too many digits. *)
Inductive load_failure : Type :=
| NotUtf8
| TooDeep
| NumberTooLong.

Definition load_failure_exn (why : load_failure) : exn :=
  match why with
  | NotUtf8 => UnicodeDecodeError
  | TooDeep => RecursionError
  | NumberTooLong => ValueError
  end.

(** What a file holds is known by what [json.load] makes of it: the text of
    a JSON value, a text that is not JSON, or something that makes the load
    fail in another way. *)
Inductive content : Type :=
| Json (v : pyval)
| Malformed (raw : string)
| Unloadable (why : load_failure).

Record file : Type := File { mtime : Z; data : content }.

(** [config_file_path], a file [name] of [backup_dir], or a file outside
    both. *)
Inductive path : Type :=
| ConfigPath
| BackupPath (name : string)
| OtherPath (p : string).

#[global] Instance path_eq_dec : EqDecision path.
Proof. solve_decision. Defined.

(** The disk and the clock.  [config_locked]: the system denies opening the
    configuration file, for reading and for writing.  [config_read_only]:
    the configuration file can be read but opening it for writing is
    refused, as after [chmod 0o444].  [backup_dir] is [None] when the
    directory is gone; [backup_dir_ro]: no file can be created in it or
    removed from it.  [backup_read_only]: the names of the backup directory
    under which the system refuses a write and a removal, as it does on
    Windows, where the application runs, for a file that has the read-only
    attribute; a file there can still be read. *)
Record disk : Type := Disk {
  clock : Z;
  config_file : option file;
  config_locked : bool;
  config_read_only : bool;
  backup_dir : option (gmap string file);
  backup_dir_ro : bool;
  backup_read_only : gset string;
  elsewhere : gmap string file
}.

Definition set_config_file (f : option file) (s : disk) : disk :=
  Disk (clock s) f (config_locked s) (config_read_only s) (backup_dir s) (backup_dir_ro s)
       (backup_read_only s) (elsewhere s).

Definition set_backup_dir (d : gmap string file) (s : disk) : disk :=
  Disk (clock s) (config_file s) (config_locked s) (config_read_only s) (Some d)
       (backup_dir_ro s) (backup_read_only s) (elsewhere s).

Definition set_elsewhere (d : gmap string file) (s : disk) : disk :=
  Disk (clock s) (config_file s) (config_locked s) (config_read_only s) (backup_dir s)
       (backup_dir_ro s) (backup_read_only s) d.

(** Time passing between two calls. *)
Definition tick (dt : Z) (s : disk) : disk :=
  Disk (clock s + dt) (config_file s) (config_locked s) (config_read_only s) (backup_dir s)
       (backup_dir_ro s) (backup_read_only s) (elsewhere s).

(** The read-only attribute of the file at a path; it is not followed for
    the files outside the store. *)
Definition is_read_only (p : path) (s : disk) : bool :=
  match p with
  | ConfigPath => config_read_only s
  | BackupPath name => bool_decide (name ∈ backup_read_only s)
  | OtherPath _ => false
  end.

Definition set_read_only (p : path) (read_only : bool) (s : disk) : disk :=
  match p with
  | ConfigPath =>
      Disk (clock s) (config_file s) (config_locked s) read_only (backup_dir s)
           (backup_dir_ro s) (backup_read_only s) (elsewhere s)
  | BackupPath name =>
      Disk (clock s) (config_file s) (config_locked s) (config_read_only s) (backup_dir s)
           (backup_dir_ro s)
           (if read_only then {[name]} ∪ backup_read_only s
            else backup_read_only s ∖ {[name]})
           (elsewhere s)
  | OtherPath _ => s
  end.

Definition lookup_file (p : path) (s : disk) : option file :=
  match p with
  | ConfigPath => config_file s
  | BackupPath name => d ← backup_dir s; d !! name
  | OtherPath q => elsewhere s !! q
  end.

(** [os.path.exists(p)] *)
Definition path_exists (p : path) : M disk bool :=
  λ s, (s, Returns (bool_decide (is_Some (lookup_file p s)))).

(** [os.path.exists(self.backup_dir)] *)
Definition backup_dir_exists : M disk bool :=
  λ s, (s, Returns (bool_decide (is_Some (backup_dir s)))).

(** [open(p, 'r')] and reading the file, with its [stat]. *)
Definition read_file (p : path) : M disk file :=
  λ s, match lookup_file p s with
       | None => (s, Raises (FileNotFoundError "No such file or directory"))
       | Some f =>
           match p with
           | ConfigPath =>
               if config_locked s then (s, Raises (PermissionError "Permission denied"))
               else (s, Returns f)
           | _ => (s, Returns f)
           end
       end.

(** Creating or replacing the file at [p]: opening it for writing is
    denied to a read-only file. *)
Definition write_file (p : path) (f : file) : M disk unit :=
  λ s, match p with
       | ConfigPath =>
           if config_locked s || config_read_only s
           then (s, Raises (PermissionError "Permission denied"))
           else (set_config_file (Some f) s, Returns tt)
       | BackupPath name =>
           match backup_dir s with
           | None => (s, Raises (FileNotFoundError "No such file or directory"))
           | Some d =>
               if backup_dir_ro s || bool_decide (name ∈ backup_read_only s)
               then (s, Raises (PermissionError "Permission denied"))
               else (set_backup_dir (<[name := f]> d) s, Returns tt)
           end
       | OtherPath q => (set_elsewhere (<[q := f]> (elsewhere s)) s, Returns tt)
       end.

(** [json.load(f)] *)
Definition json_load (c : content) : M disk pyval :=
  match c with
  | Json v => ret v
  | Malformed _ => raise JSONDecodeError
  | Unloadable why => raise (load_failure_exn why)
  end.

(** [with open(p, 'w') as f: json.dump(v, f)]: the file is stamped with the
    time of the write. *)
Definition json_dump (v : pyval) (p : path) : M disk unit :=
  λ s, write_file p (File (clock s) (Json v)) s.

(** [shutil.copy2(src, dst)]: the copy keeps the modification time and the
    read-only attribute of the source. *)
Definition copy2 (src dst : path) : M disk unit :=
  if decide (src = dst) then raise (OSError None "are the same file")
  else
    let! f := read_file src in
    write_file dst f ;;
    λ s, (set_read_only dst (is_read_only src s) s, Returns tt).

(** [os.remove] of a file of the backup directory: it is refused for a
    read-only file. *)
Definition remove (name : string) : M disk unit :=
  λ s, match backup_dir s with
       | None => (s, Raises (FileNotFoundError "No such file or directory"))
       | Some d =>
           match d !! name with
           | None => (s, Raises (FileNotFoundError "No such file or directory"))
           | Some _ =>
               if backup_dir_ro s || bool_decide (name ∈ backup_read_only s)
               then (s, Raises (PermissionError "Permission denied"))
               else (set_backup_dir (delete name d) s, Returns tt)
           end
       end.

(** [datetime.now()] *)
Definition now : M disk Z := λ s, (s, Returns (clock s)).

(** [filename.startswith('config_backup_') and filename.endswith('.json')] *)
Definition is_backup_name (filename : string) : bool :=
  startswith filename "config_backup_" && endswith filename ".json".

(** The list built by the loop over [os.listdir(self.backup_dir)]: a pair of
    the modification time and the path for each file with a backup name.
    The paths share the directory, so the file name stands for the path. *)
Definition list_backup_files (d : gmap string file) : list (Z * string) :=
  (λ nf, (mtime nf.2, nf.1)) <$> filter (λ nf, is_backup_name nf.1 = true) (map_to_list d).

(** The order of Python tuples [(mtime, path)]. *)
Definition tuple_le (a b : Z * string) : Prop :=
  a.1 < b.1 ∨ (a.1 = b.1 ∧ String.le a.2 b.2).

#[global] Instance tuple_le_dec : RelDecision tuple_le.
Proof. intros a b. unfold tuple_le. apply _. Defined.

(** [l.sort()] and [l.sort(reverse=True)] *)
Definition sort (l : list (Z * string)) : list (Z * string) :=
  merge_sort tuple_le l.

Definition sort_reverse (l : list (Z * string)) : list (Z * string) :=
  merge_sort (flip tuple_le) l.

(** *** The methods *)

Section ConfigManager.

(** [datetime.strftime] with the format [%Y%m%d_%H%M%S], and
    [datetime.isoformat], of a clock reading. *)
Variable strftime : Z → string.
Variable isoformat : Z → string.

(** [get_default_config] *)
Definition get_default_config : gmap string pyval :=
  <["app_path" := PStr ""]>
  (<["icon_position" := PDict (<["x" := PInt 100]> (<["y" := PInt 100]> ∅))]>
  (<["icon_fixed" := PBool false]>
  (<["auto_start" := PBool false]>
  (<["icon_size" := PInt 32]>
  (<["version" := PStr "1.0.0"]> ∅))))).

(** [_basic_validation]: the keys of [type_checks] in their order. *)
Definition type_checks : list (string * pytype) :=
  [("app_path", Tstr); ("icon_position", Tdict); ("icon_fixed", Tbool);
   ("auto_start", Tbool); ("icon_size", Tint); ("version", Tstr)].

Definition _basic_validation (config : pyval) : bool * list string :=
  match config with
  | PDict d =>
      let errors :=
        omap (λ '(key, expected_type),
                match d !! key with
                | Some v =>
                    if isinstance v expected_type then None
                    else Some (key +:+ " は " +:+ type_name expected_type
                                   +:+ " 型である必要があります")
                | None => None
                end) type_checks in
      (bool_decide (length errors = 0%nat), errors)
  | _ => (false, ["設定は辞書形式である必要があります"])
  end.

(** [_get_backup_count] *)
Definition _get_backup_count : M disk Z :=
  try_except
    (let! there := backup_dir_exists in
     if negb there then ret 0
     else λ s, (s, Returns (Z.of_nat (length
                 (filter (λ nf, is_backup_name nf.1 = true)
                         (map_to_list (default ∅ (backup_dir s))))))))
    (λ e, if is_OSError e then Some (ret 0) else None).

(** [_cleanup_old_backups] *)
Definition _cleanup_old_backups (max_backups : nat) : M disk unit :=
  try_except
    (let! there := backup_dir_exists in
     if negb there then ret tt
     else
       let! backup_files := (λ s, (s, Returns (list_backup_files (default ∅ (backup_dir s))))) in
       if bool_decide (max_backups < length backup_files)%nat then
         for_each (slice_until_neg max_backups (sort backup_files))
                  (λ '(_, backup_path), remove backup_path)
       else ret tt)
    (λ e, if is_OSError e then Some (ret tt) else None).

Definition backup_filename (timestamp : string) : string :=
  "config_backup_" +:+ timestamp +:+ ".json".

(** [backup_config] *)
Definition backup_config : M disk (option path) :=
  try_except
    (let! there := path_exists ConfigPath in
     if negb there then ret None
     else
       let! t := now in
       let timestamp := strftime t in
       let backup_path := BackupPath (backup_filename timestamp) in
       copy2 ConfigPath backup_path ;;
       _cleanup_old_backups 5 ;;
       ret (Some backup_path))
    (λ e, if is_OSError e then Some (ret None) else None).

(** [save_config] *)
Definition save_config (config : pyval) : M disk bool :=
  try_except
    (let '(is_valid, errors) := _basic_validation config in
     if negb is_valid then ret false
     else
       let! there := path_exists ConfigPath in
       (if there then backup_config ;; ret tt else ret tt) ;;
       let! config_with_metadata :=
         match config with
         | PDict d => ret d
         | _ => raise AttributeError
         end in
       let! t := now in
       let! count := _get_backup_count in
       let config_with_metadata :=
         <["_metadata" := PDict (<["last_modified" := PStr (isoformat t)]>
                                (<["backup_count" := PInt count]> ∅))]>
           config_with_metadata in
       json_dump (PDict config_with_metadata) ConfigPath ;;
       ret true)
    (λ e, if is_OSError e then Some (ret false) else None).

(** [restore_from_backup] *)
Definition restore_from_backup (backup_path : path) : M disk bool :=
  try_except
    (let! there := path_exists backup_path in
     if negb there then ret false
     else
       let! f := read_file backup_path in
       let! backup_config := json_load (data f) in
       copy2 backup_path ConfigPath ;;
       ret true)
    (λ e, if is_OSError e || is_JSONDecodeError e then Some (ret false) else None).

(** The loop of [_try_restore_from_latest_backup]. *)
Fixpoint try_each (backup_files : list (Z * string)) : M disk bool :=
  match backup_files with
  | [] => ret false
  | (_, backup_path) :: rest =>
      let! restored := restore_from_backup (BackupPath backup_path) in
      if restored then ret true else try_each rest
  end.

(** [_try_restore_from_latest_backup] *)
Definition _try_restore_from_latest_backup : M disk bool :=
  try_except
    (let! there := backup_dir_exists in
     if negb there then ret false
     else
       let! backup_files := (λ s, (s, Returns (list_backup_files (default ∅ (backup_dir s))))) in
       match backup_files with
       | [] => ret false
       | _ => try_each (sort_reverse backup_files)
       end)
    (λ e, if is_OSError e then Some (ret false) else None).

(** [load_config].  The method calls itself after a restore; [depth] is what
    is left of the interpreter's recursion limit. *)
Fixpoint load_config_at (depth : nat) : M disk (gmap string pyval) :=
  match depth with
  | O => raise RecursionError
  | S depth' =>
      try_except
        (let! there := path_exists ConfigPath in
         if there then
           let! f := read_file ConfigPath in
           let! config := json_load (data f) in
           let! items :=
             match config with
             | PDict d => ret d
             | _ => raise AttributeError
             end in
           ret (filter (λ kv, kv.1 ≠ "_metadata") items)
         else
           let default_config := get_default_config in
           save_config (PDict default_config) ;;
           ret default_config)
        (λ e,
           if is_JSONDecodeError e then
             Some (let! backup_restored := _try_restore_from_latest_backup in
                   if backup_restored then load_config_at depth'
                   else
                     let default_config := get_default_config in
                     save_config (PDict default_config) ;;
                     ret default_config)
           else if is_OSError e then Some (ret get_default_config)
           else None)
  end.

Definition recursion_limit : nat := 1000.

Definition load_config : M disk (gmap string pyval) := load_config_at recursion_limit.

(** [config.get(key, default)] *)
Definition get (config : pyval) (key : string) (default_value : pyval) : M disk pyval :=
  match config with
  | PDict d => ret (default default_value (d !! key))
  | _ => raise AttributeError
  end.

Definition required_keys : list string :=
  ["app_path"; "icon_position"; "icon_fixed"; "auto_start"; "icon_size"; "version"].

(** The first loop of [validate_config]. *)
Fixpoint check_required (keys : list string) (config : pyval) (errors : list string)
  : M disk (list string) :=
  match keys with
  | [] => ret errors
  | key :: rest =>
      let! present := (λ s, (s, contains key config)) in
      if negb present then
        check_required rest config (errors ++ ["必須キー '" +:+ key +:+ "' が存在しません"])
      else check_required rest config errors
  end.

(** The loop over the two coordinates of [icon_position]. *)
Fixpoint check_coords (coords : list string) (icon_position : gmap string pyval)
    (errors : list string) : list string :=
  match coords with
  | [] => errors
  | coord :: rest =>
      check_coords rest icon_position
        (match icon_position !! coord with
         | None => errors ++ ["icon_position." +:+ coord +:+ " が存在しません"]
         | Some v =>
             if negb (isinstance v Tint) then
               errors ++ ["icon_position." +:+ coord +:+ " は整数である必要があります"]
             else if negb ((-32768 <=? int_value v) && (int_value v <=? 32767)) then
               errors ++ ["icon_position." +:+ coord
                            +:+ " は -32768 から 32767 の範囲内である必要があります"]
             else errors
         end)
  end.

(** [validate_config] *)
Definition validate_config (config : pyval) : M disk (bool * list string) :=
  let! errors := check_required required_keys config [] in
  if negb (bool_decide (errors = [])) then ret (false, errors)
  else
    let! app_path := get config "app_path" (PStr "") in
    let errors :=
      if negb (isinstance app_path Tstr) then
        errors ++ ["app_path は文字列である必要があります"]
      else errors in
    let! icon_position := get config "icon_position" (PDict ∅) in
    let errors :=
      match icon_position with
      | PDict ip => check_coords ["x"; "y"] ip errors
      | _ => errors ++ ["icon_position は辞書である必要があります"]
      end in
    let! icon_fixed := get config "icon_fixed" PNone in
    let errors :=
      if negb (isinstance icon_fixed Tbool) then
        errors ++ ["icon_fixed はブール値である必要があります"]
      else errors in
    let! auto_start := get config "auto_start" PNone in
    let errors :=
      if negb (isinstance auto_start Tbool) then
        errors ++ ["auto_start はブール値である必要があります"]
      else errors in
    let! icon_size := get config "icon_size" PNone in
    let errors :=
      if negb (isinstance icon_size Tint) then
        errors ++ ["icon_size は整数である必要があります"]
      else if negb ((16 <=? int_value icon_size) && (int_value icon_size <=? 128)) then
        errors ++ ["icon_size は 16 から 128 の範囲内である必要があります"]
      else errors in
    let! version := get config "version" PNone in
    let errors :=
      if negb (isinstance version Tstr) then
        errors ++ ["version は文字列である必要があります"]
      else errors in
    ret (bool_decide (length errors = 0%nat), errors).

(** [reset_to_default] *)
Definition reset_to_default : M disk bool := save_config (PDict get_default_config).

End ConfigManager.


(** ** The launch gate: [class AppLauncher] *)

(** [len(s)]: the number of characters of a [str] kept as UTF-8 bytes, that
    is the number of bytes that do not continue a character. *)
Definition is_continuation (a : ascii) : bool :=
  let n := N_of_ascii a in ((128 <=? n) && (n <? 192))%N.

Fixpoint len (s : string) : nat :=
  match s with
  | EmptyString => 0
  | String a s' => if is_continuation a then len s' else S (len s')
  end.

(** [@dataclass LaunchResult], with its defaults. *)
Record LaunchResult : Type := mkLaunchResult {
  success : bool;
  process_id : option Z;
  error_code : option Z;
  error_message : option string;
  execution_time : Z
}.

(** What [os.stat] finds at a path. *)
Inductive stat_result : Type :=
| NoEntry
| Denied
| Directory
| Regular (st_size : N).

(** The machine the launcher runs on: the number of clock readings taken so
    far and the command lines handed to [subprocess.Popen], latest first. *)
Record machine : Type := Machine {
  clock_reads : nat;
  spawned : list (list string)
}.

Definition MAX_PATH_LENGTH : nat := 260.
Definition VALID_EXTENSIONS : list string := [".exe"; ".com"; ".bat"; ".cmd"; ".msi"; ".ps1"].
(** The one-character string made of a double quote. *)
Definition dquote : string := String (ascii_of_nat 34) EmptyString.

Definition INVALID_CHARS : list string := ["<"; ">"; "|"; dquote; "*"; "?"].

Section AppLauncher.

(** The operating system and the library, as the launcher sees them:
    [time.time()] at its successive calls, [os.path.isabs], [os.stat],
    [pathlib.Path(p).suffix], [str.lower], and what [subprocess.Popen] does
    with a command line: the process identifier or the exception. *)
Variable time_time_at : nat → Z.
Variable isabs : string → bool.
Variable stat : string → stat_result.
Variable suffix : string → string.
Variable lower : string → string.
Variable popen : list string → outcome Z.

(** The order in which the set [self.invalid_chars] is iterated. *)
Variable invalid_chars : list string.

Definition time_time : M machine Z :=
  λ m, (Machine (S (clock_reads m)) (spawned m), Returns (time_time_at (clock_reads m))).

(** [subprocess.Popen(cmd, ...)] *)
Definition Popen (cmd : list string) : M machine Z :=
  λ m, (Machine (clock_reads m) (cmd :: spawned m), popen cmd).

(** [os.path.exists(p)]: false on any error. *)
Definition os_path_exists (p : string) : bool :=
  match stat p with
  | Directory | Regular _ => true
  | NoEntry | Denied => false
  end.

(** [Path(p).exists()] *)
Definition Path_exists (p : string) : M machine bool :=
  match stat p with
  | Directory | Regular _ => ret true
  | NoEntry => ret false
  | Denied => raise (PermissionError "Access is denied")
  end.

(** [Path(p).is_dir()] *)
Definition Path_is_dir (p : string) : M machine bool :=
  match stat p with
  | Directory => ret true
  | _ => ret false
  end.

(** [Path(p).stat().st_size] *)
Definition Path_st_size (p : string) : M machine N :=
  match stat p with
  | Regular n => ret n
  | Directory => ret 0%N
  | NoEntry => raise (FileNotFoundError "No such file or directory")
  | Denied => raise (PermissionError "Access is denied")
  end.

(** The loop over [self.invalid_chars] in [_validate_security]. *)
Definition find_invalid_char (file_path : string) : option string :=
  List.find (λ char, str_contains char file_path) invalid_chars.

(** [_validate_security] *)
Definition _validate_security (file_path : string) : M machine (bool * option string) :=
  try_except
    (if bool_decide (MAX_PATH_LENGTH < len file_path)%nat then
       ret (false, Some "ファイルパスが長すぎます")
     else if str_contains ".." file_path then
       ret (false, Some "セキュリティエラー: 不正なパス形式です")
     else
       match find_invalid_char file_path with
       | Some char =>
           ret (false, Some ("セキュリティエラー: 無効な文字が含まれています: " +:+ char))
       | None =>
           if negb (isabs file_path) then
             ret (false, Some "セキュリティエラー: 絶対パスを指定してください")
           else if startswith file_path "\\" then
             ret (false, Some "セキュリティエラー: ネットワークパスはサポートされていません")
           else ret (true, None)
       end)
    (λ e, Some (ret (false, Some ("セキュリティ検証エラー: " +:+ exn_text e)))).

(** [is_valid_executable] *)
Definition is_valid_executable (file_path : string) : M machine bool :=
  try_except
    (let! there := Path_exists file_path in
     if negb there then ret false
     else
       let! is_dir := Path_is_dir file_path in
       if is_dir then ret false
       else
         let extension := lower (suffix file_path) in
         if negb (bool_decide (extension ∈ VALID_EXTENSIONS)) then ret false
         else
           let! st_size := Path_st_size file_path in
           if (st_size =? 0)%N then ret false
           else ret true)
    (λ e, if is_OSError e then Some (ret false) else None).

(** [(time.time() - start_time) * 1000] *)
Definition elapsed_ms (start_time : Z) : M machine Z :=
  let! t := time_time in ret ((t - start_time) * 1000).

(** [launch_application] *)
Definition launch_application (app_path : string) (args : list string)
  : M machine LaunchResult :=
  let! start_time := time_time in
  try_except
    (let! security_check := _validate_security app_path in
     if negb security_check.1 then
       let! dt := elapsed_ms start_time in
       ret (mkLaunchResult false None None security_check.2 dt)
     else if negb (os_path_exists app_path) then
       let! dt := elapsed_ms start_time in
       ret (mkLaunchResult false None None
              (Some ("指定されたファイルが見つかりません: " +:+ app_path)) dt)
     else
       let! valid := is_valid_executable app_path in
       if negb valid then
         let! dt := elapsed_ms start_time in
         ret (mkLaunchResult false None None
                (Some ("無効なファイル形式です: " +:+ app_path)) dt)
       else
         let cmd := [app_path] ++ args in
         let! pid := Popen cmd in
         let! execution_time := elapsed_ms start_time in
         ret (mkLaunchResult true (Some pid) None None execution_time))
    (λ e, Some
       (let! dt := elapsed_ms start_time in
        ret (match e with
             | FileNotFoundError text =>
                 mkLaunchResult false None None
                   (Some ("ファイルが見つかりません: " +:+ text)) dt
             | PermissionError text =>
                 mkLaunchResult false None None
                   (Some ("権限が不足しています: " +:+ text)) dt
             | OSError errno text =>
                 mkLaunchResult false None errno
                   (Some ("システムエラー: " +:+ text)) dt
             | _ =>
                 mkLaunchResult false None None
                   (Some ("予期しないエラー: " +:+ exn_text e)) dt
             end))).

(** The argument [s] between two double quotes, as the f-string of the
    source writes it. *)
Definition quoted (s : string) : string := dquote +:+ s +:+ dquote.

(** [launch_with_admin] *)
Definition launch_with_admin (app_path : string) (args : list string)
  : M machine LaunchResult :=
  let! start_time := time_time in
  try_except
    (let cmd := ["runas"; "/user:Administrator"] in
     let run_cmd := quoted app_path in
     let run_cmd :=
       match args with
       | [] => run_cmd
       | _ => run_cmd +:+ " " +:+ String.concat " " (quoted <$> args)
       end in
     let cmd := cmd ++ [run_cmd] in
     let! execution_time := elapsed_ms start_time in
     ret (mkLaunchResult true None None None execution_time))
    (λ e, Some
       (let! dt := elapsed_ms start_time in
        ret (mkLaunchResult false None None
               (Some ("管理者権限での起動に失敗しました: " +:+ exn_text e)) dt))).

End AppLauncher.


(** *** The process table: [is_application_running] and [kill_application] *)

(** The [info] dictionary of a process that
    [psutil.process_iter(['pid', 'name', 'exe'])] yields: a field that could
    not be read is [None]. *)
Record process : Type := Process {
  info_pid : Z;
  info_name : option string;
  info_exe : option string
}.

(** What [psutil.Process(pid).terminate()] does: the process is sent the
    signal, or [NoSuchProcess] ([ZombieProcess] is a subclass of it) or
    [AccessDenied] is raised, or an exception of another class. *)
Inductive terminate_outcome : Type :=
| Terminated
| NoSuchProcess
| AccessDenied
| TerminateError (e : exn).

Section AppLauncherProcesses.

(** [str.lower], [os.path.basename], [os.path.normpath], the processes that
    [psutil.process_iter] yields during the call, and what [terminate] does
    to each process identifier. *)
Variable lower : string → string.
Variable basename : string → string.
Variable normpath : string → string.
Variable process_iter : list process.
Variable terminate : Z → terminate_outcome.

(** [process.info['name'] and process.info['name'].lower() == app_name],
    with [app_name = os.path.basename(app_path).lower()]: the empty string
    is false as [None] is. *)
Definition name_matches (app_path : string) (p : process) : bool :=
  match info_name p with
  | Some n => negb (String.eqb n "") && String.eqb (lower n) (lower (basename app_path))
  | None => false
  end.

(** [process.info['exe'] and
     os.path.normpath(process.info['exe']).lower() == os.path.normpath(app_path).lower()] *)
Definition exe_matches (app_path : string) (p : process) : bool :=
  match info_exe p with
  | Some e =>
      negb (String.eqb e "") && String.eqb (lower (normpath e)) (lower (normpath app_path))
  | None => false
  end.

(** The loop of [is_application_running]. *)
Fixpoint running_loop (app_path : string) (processes : list process) : bool :=
  match processes with
  | [] => false
  | p :: rest =>
      if name_matches app_path p then true
      else if exe_matches app_path p then true
      else running_loop app_path rest
  end.

(** [is_application_running] *)
Definition is_application_running (app_path : string) : bool :=
  running_loop app_path process_iter.

(** [psutil.Process(process.info['pid']).terminate()]; [killed = True], then
    the rest of the loop [continue_with killed]; the two exceptions of the
    inner [except] clause go on with the next process.  The state is the
    list of the processes terminated so far, latest first. *)
Definition terminate_process (p : process) (killed : bool)
    (continue_with : bool → M (list Z) bool) : M (list Z) bool :=
  λ terminated,
    match terminate (info_pid p) with
    | Terminated => continue_with true (info_pid p :: terminated)
    | NoSuchProcess | AccessDenied => continue_with killed terminated
    | TerminateError e => (terminated, Raises e)
    end.

(** The loop of [kill_application]. *)
Fixpoint kill_loop (app_path : string) (processes : list process) (killed : bool)
  : M (list Z) bool :=
  match processes with
  | [] => ret killed
  | p :: rest =>
      if name_matches app_path p then terminate_process p killed (kill_loop app_path rest)
      else if exe_matches app_path p then terminate_process p killed (kill_loop app_path rest)
      else kill_loop app_path rest killed
  end.

(** [kill_application] *)
Definition kill_application (app_path : string) : M (list Z) bool :=
  try_except (kill_loop app_path process_iter false) (λ e, Some (ret false)).

End AppLauncherProcesses.

(** *** Administrator privileges: [requires_admin_privileges] *)

Section AppLauncherPrivileges.

(** [os.environ.get(key, default)], [os.path.join], [os.path.normpath],
    [str.lower] and [os.path.basename]. *)
Variable environ_get : string → string → string.
Variable join : string → string → string.
Variable normpath : string → string.
Variable lower : string → string.
Variable basename : string → string.

Definition system_dirs : list string :=
  [join (environ_get "WINDIR" "") "System32";
   join (environ_get "WINDIR" "") "SysWOW64";
   join (environ_get "ProgramFiles" "") "Windows NT"].

Definition admin_apps : list string :=
  ["regedit.exe"; "gpedit.msc"; "secpol.msc"; "services.msc"].

(** The loop over [system_dirs]: the first directory that the path starts
    with decides. *)
Fixpoint admin_loop (normalized_path : string) (dirs : list string) : bool :=
  match dirs with
  | [] => false
  | sys_dir :: rest =>
      if negb (String.eqb sys_dir "") &&
         startswith normalized_path (lower (normpath sys_dir))
      then
        let filename := basename normalized_path in
        bool_decide (filename ∈ admin_apps)
      else admin_loop normalized_path rest
  end.

(** [requires_admin_privileges] *)
Definition requires_admin_privileges (app_path : string) : bool :=
  let normalized_path := lower (normpath app_path) in
  admin_loop normalized_path system_dirs.

End AppLauncherPrivileges.
(** ** The vocabulary of the specification *)

(** The five checks of the security validation, in the words of the
    specification. *)
Inductive violation : Type :=
| TooLong
| Traversal
| InvalidChar (char : string)
| NotAbsolute
| UncPrefix.

Definition violates (isabs : string → bool) (file_path : string) (v : violation) : Prop :=
  match v with
  | TooLong => (260 < len file_path)%nat
  | Traversal => str_contains ".." file_path = true
  | InvalidChar char => char ∈ INVALID_CHARS ∧ str_contains char file_path = true
  | NotAbsolute => isabs file_path = false
  | UncPrefix => startswith file_path "\\" = true
  end.

Definition rejection_message (v : violation) : string :=
  match v with
  | TooLong => "ファイルパスが長すぎます"
  | Traversal => "セキュリティエラー: 不正なパス形式です"
  | InvalidChar char => "セキュリティエラー: 無効な文字が含まれています: " +:+ char
  | NotAbsolute => "セキュリティエラー: 絶対パスを指定してください"
  | UncPrefix => "セキュリティエラー: ネットワークパスはサポートされていません"
  end.

(** The place of a check in the sequence of the validation. *)
Definition check_order (v : violation) : nat :=
  match v with
  | TooLong => 0
  | Traversal => 1
  | InvalidChar _ => 2
  | NotAbsolute => 3
  | UncPrefix => 4
  end.

(** The six required keys and their primitive types, as the specification
    lists them. *)
Definition schema : list (string * pytype) :=
  [("app_path", Tstr); ("icon_position", Tdict); ("icon_fixed", Tbool);
   ("auto_start", Tbool); ("icon_size", Tint); ("version", Tstr)].

(** All six keys are present with the right primitive type. *)
Definition well_typed (d : gmap string pyval) : Prop :=
  ∀ key t, (key, t) ∈ schema → ∃ v, d !! key = Some v ∧ isinstance v t = true.

(** The argument is not a mapping, or one of the six keys is present with
    the wrong primitive type. *)
Definition mistyped (config : pyval) : Prop :=
  match config with
  | PDict d => ∃ key t v, (key, t) ∈ schema ∧ d !! key = Some v ∧ isinstance v t = false
  | _ => True
  end.

(** The error string of [validate_config] for a coordinate out of range. *)
Definition range_error (coord : string) : string :=
  "icon_position." +:+ coord +:+ " は -32768 から 32767 の範囲内である必要があります".


(** The last [n] elements of a list. *)
Definition last_n {A} (n : nat) (l : list A) : list A := drop (length l - n) l.

(** The backup files of a disk: the modification time and the name of each
    file of the backup directory that has a backup name. *)
Definition backups_of (s : disk) : list (Z * string) :=
  list_backup_files (default ∅ (backup_dir s)).

(** Saves in succession: before each, some time passes. *)
Fixpoint saves (strftime isoformat : Z → string) (steps : list (Z * pyval)) (s : disk)
  : disk * list (outcome bool) :=
  match steps with
  | [] => (s, [])
  | (dt, config) :: rest =>
      let (s1, r) := save_config strftime isoformat config (tick dt s) in
      let (s2, rs) := saves strftime isoformat rest s1 in
      (s2, r :: rs)
  end.

(** The backups that saves make of a configuration file written at time [t],
    when they come after the delays [dts]: each backup holds the file written
    by the save before, so it has the time of that save, and its name is
    made from the time of the save that creates it. *)
Fixpoint backups_made (strftime : Z → string) (t : Z) (dts : list Z) : list (Z * string) :=
  match dts with
  | [] => []
  | dt :: rest =>
      (t, backup_filename (strftime (t + dt))) :: backups_made strftime (t + dt) rest
  end.

(** The state of the rotation between two saves, with respect to a time
    [t0]: the configuration file was written at [tcur]; the backup files are
    the last five of [created], which were made at [t0] or later, in the
    order of their times, and files older than [t0], which are all gone once
    five backups have been created; no file is read-only. *)
Definition rotation_inv (t0 : Z) (s : disk) (created : list (Z * string)) (tcur : Z) : Prop :=
  ∃ dir c0 olds,
    backup_dir s = Some dir ∧ backup_dir_ro s = false ∧ config_locked s = false ∧
    config_file s = Some (File tcur c0) ∧ clock s = tcur ∧ t0 ≤ tcur ∧
    list_backup_files dir ≡ₚ olds ++ last_n 5 created ∧
    (∀ o, o ∈ olds → o.1 < t0) ∧
    ((5 ≤ length created)%nat → olds = []) ∧
    StronglySorted tuple_le created ∧
    (∀ x, x ∈ created → t0 ≤ x.1 < tcur) ∧
    config_read_only s = false ∧ backup_read_only s = ∅.

(** The disk after [shutil.copy2] of the file [f] at [p] onto the
    configuration file: the content, the modification time and the read-only
    attribute are those of the source. *)
Definition restored (p : path) (f : file) (s : disk) : disk :=
  set_read_only ConfigPath (is_read_only p s) (set_config_file (Some f) s).
(** A machine to run the launcher on: a stand-in for each of the system
    calls, and one order of iteration of the set of invalid characters. *)
Definition demo_isabs (p : string) : bool :=
  match p with
  | String _ (String ":" (String "\" _)) => true
  | String "\" (String "\" _) => true
  | _ => false
  end.
Definition demo_stat (p : string) : stat_result :=
  if String.eqb p "C:\tools\app.exe" then Regular 10
  else if String.eqb p "C:\tools\empty.exe" then Regular 0
  else if String.eqb p "C:\tools" then Directory
  else NoEntry.
Definition demo_suffix (p : string) : string :=
  if endswith p ".exe" then ".exe" else EmptyString.
Definition demo_lower (s : string) : string := s.
Definition demo_popen (cmd : list string) : outcome Z := Returns 4242.
Definition demo_order : list string := ["?"; "*"; dquote; "|"; ">"; "<"].


(** A clock rendering, a configuration and some disks to run the store on.
    The stand-in for [strftime] and [isoformat] writes the clock reading in
    decimal. *)
Definition demo_strftime (t : Z) : string := pretty t.
Definition demo_isoformat (t : Z) : string := pretty t.

Definition demo_config : gmap string pyval :=
  <["app_path" := PStr "C:\Tools\app.exe"]> (<["icon_size" := PInt 48]> get_default_config).

(** The example of the specification: [icon_position.x] out of range. *)
Definition demo_position : gmap string pyval := <["x" := PInt 9999999]> (<["y" := PInt 5]> ∅).
Definition demo_out_of_range : gmap string pyval :=
  <["icon_position" := PDict demo_position]> demo_config.

(** No file yet, an empty backup directory. *)
Definition demo_fresh : disk := Disk 100 None false false (Some ∅) false ∅ ∅.

(** A configuration file written at time 50 and an older backup. *)
Definition demo_disk : disk :=
  Disk 100 (Some (File 50 (Json (PDict demo_config)))) false false
       (Some (<["config_backup_40.json" := File 30 (Json (PDict get_default_config))]> ∅))
       false ∅ ∅.

(** A configuration file that does not parse, with a backup that does not
    parse either, an older one that does, and a file that is no backup. *)
Definition demo_backups : gmap string file :=
  <["config_backup_1.json" := File 10 (Json (PDict demo_config))]>
  (<["config_backup_2.json" := File 20 (Malformed "{ invalid")]>
  (<["notes.json" := File 30 (Json (PDict get_default_config))]> ∅)).

Definition demo_corrupted : disk :=
  Disk 100 (Some (File 90 (Malformed "{ invalid json content }"))) false false
       (Some demo_backups) false ∅ ∅.


(** A configuration file that holds a JSON list. *)
Definition demo_list_file : disk :=
  Disk 100 (Some (File 90 (Json (PList [PInt 1; PInt 2])))) false false (Some ∅) false ∅ ∅.



(** The disk [demo_disk] with a configuration file that is read-only, and
    with a backup that is. *)
Definition demo_read_only : disk :=
  Disk 100 (Some (File 50 (Json (PDict demo_config)))) false true
       (Some (<["config_backup_40.json" := File 30 (Json (PDict get_default_config))]> ∅))
       false ∅ ∅.

Definition demo_read_only_backup : disk :=
  Disk 100 (Some (File 50 (Json (PDict demo_config)))) false false
       (Some (<["config_backup_40.json" := File 30 (Json (PDict get_default_config))]> ∅))
       false {["config_backup_40.json"]} ∅.


(** The strict schema of [validate_config], value by value.  An instance of
    [bool] counts as an instance of [int]: a coordinate may be a boolean,
    while no boolean is in the range of [icon_size]. *)
Definition coord_ok (icon_position : gmap string pyval) (coord : string) : Prop :=
  match icon_position !! coord with
  | Some (PInt z) => -32768 ≤ z ≤ 32767
  | Some (PBool _) => True
  | _ => False
  end.

Definition strict_schema (d : gmap string pyval) : Prop :=
  (∃ app_path, d !! "app_path" = Some (PStr app_path)) ∧
  (∃ icon_position,
      d !! "icon_position" = Some (PDict icon_position) ∧
      coord_ok icon_position "x" ∧ coord_ok icon_position "y") ∧
  (∃ icon_fixed, d !! "icon_fixed" = Some (PBool icon_fixed)) ∧
  (∃ auto_start, d !! "auto_start" = Some (PBool auto_start)) ∧
  (∃ icon_size, d !! "icon_size" = Some (PInt icon_size) ∧ 16 ≤ icon_size ≤ 128) ∧
  (∃ version, d !! "version" = Some (PStr version)).

(** The error string of [validate_config] for a missing key. *)
Definition missing_key_error (key : string) : string :=
  "必須キー '" +:+ key +:+ "' が存在しません".

(** More examples: a configuration file put back from an old backup, so that
    five backups are newer than it; a launch that the system refuses; and a
    process table, with [str.lower] on the letters A to Z. *)
Definition demo_five_backups : gmap string file :=
  <["config_backup_61.json" := File 61 (Json (PDict get_default_config))]>
  (<["config_backup_62.json" := File 62 (Json (PDict get_default_config))]>
  (<["config_backup_63.json" := File 63 (Json (PDict get_default_config))]>
  (<["config_backup_64.json" := File 64 (Json (PDict get_default_config))]>
  (<["config_backup_65.json" := File 65 (Json (PDict get_default_config))]> ∅)))).

Definition demo_restored : disk :=
  Disk 100 (Some (File 20 (Json (PDict demo_config)))) false false (Some demo_five_backups)
       false ∅ ∅.

Definition demo_popen_refused (cmd : list string) : outcome Z :=
  Raises (OSError (Some 193) "[WinError 193] %1 is not a valid Win32 application").

Definition demo_to_lower (s : string) : string :=
  string_of_list_ascii
    (List.map (λ a, let n := nat_of_ascii a in
                    if ((65 <=? n) && (n <=? 90))%nat then ascii_of_nat (n + 32) else a)
              (list_ascii_of_string s)).

Definition demo_basename (p : string) : string :=
  if String.eqb p "C:\tools\app.exe" then "app.exe" else p.

Definition demo_normpath (p : string) : string := p.

Definition demo_processes : list process :=
  [Process 10 (Some "App.exe") (Some "D:\copy\App.exe");
   Process 11 (Some "other.exe") None;
   Process 12 None (Some "c:\tools\APP.EXE");
   Process 13 (Some "app.exe") (Some "C:\tools\app.exe")].

Definition demo_terminate (pid : Z) : terminate_outcome :=
  if pid =? 13 then AccessDenied else Terminated.

Definition demo_terminate_broken (pid : Z) : terminate_outcome :=
  if pid =? 12 then TerminateError (OtherException "boom") else Terminated.
(** * Properties of the launch gate *)

Lemma rejection_message_inj v1 v2 :
  rejection_message v1 = rejection_message v2 → v1 = v2.
Proof.
  destruct v1, v2; simpl; intros H; try reflexivity; try discriminate H.
  - f_equal. eapply (inj (String.app _)). exact H.
Qed.


Section AppLauncherSpec.

Variable time_time_at : nat → Z.
Variable isabs : string → bool.
Variable stat : string → stat_result.
Variable suffix : string → string.
Variable lower : string → string.
Variable popen : list string → outcome Z.
Variable invalid_chars : list string.

#[local] Abbreviation validate := (_validate_security isabs invalid_chars).
#[local] Abbreviation launch :=
  (launch_application time_time_at isabs stat suffix lower popen invalid_chars).

Ltac run := unfold try_except, bind, ret, raise; simpl.

Lemma find_invalid_char_Some file_path char :
  find_invalid_char invalid_chars file_path = Some char →
  char ∈ invalid_chars ∧ str_contains char file_path = true.
Proof.
  unfold find_invalid_char. intros H. apply find_some in H as [Hin Hc].
  split; [by apply list_elem_of_In | done].
Qed.

Lemma find_invalid_char_None file_path char :
  find_invalid_char invalid_chars file_path = None →
  char ∈ invalid_chars → str_contains char file_path = false.
Proof.
  unfold find_invalid_char. intros H Hin.
  apply list_elem_of_In in Hin. exact (find_none _ _ H _ Hin).
Qed.

(** The validation returns for every path: no exception leaves it. *)
Lemma validate_security_returns file_path m :
  ∃ r, validate file_path m = (m, Returns r).
Proof.
  unfold _validate_security. run.
  destruct (bool_decide _); simpl; [eauto | ].
  destruct (str_contains _ _); simpl; [eauto | ].
  destruct (find_invalid_char _ _); simpl; [eauto | ].
  destruct (isabs _); simpl; [ | eauto].
  destruct (startswith _ _); simpl; eauto.
Qed.

(** The outcome of the validation, by the first check that fails. *)
Lemma validate_security_cases file_path m :
  invalid_chars ≡ₚ INVALID_CHARS →
  (∃ v, violates isabs file_path v ∧
        (∀ w, violates isabs file_path w → (check_order v ≤ check_order w)%nat) ∧
        validate file_path m = (m, Returns (false, Some (rejection_message v)))) ∨
  ((∀ w, ¬ violates isabs file_path w) ∧
   validate file_path m = (m, Returns (true, None))).
Proof.
  intros Hperm.
  assert (Hnone : find_invalid_char invalid_chars file_path = None →
                  ∀ char, ¬ violates isabs file_path (InvalidChar char)).
  { intros Hfind char [Hin Hc]. rewrite <- Hperm in Hin.
    rewrite (find_invalid_char_None _ _ Hfind Hin) in Hc. done. }
  unfold _validate_security. run. unfold MAX_PATH_LENGTH.
  case_bool_decide as Hlen; simpl.
  { left. exists TooLong. split_and!; [done | intros w _; simpl; lia | done]. }
  destruct (str_contains ".." file_path) eqn:Hdots; simpl.
  { left. exists Traversal. split_and!; [done | | done].
    intros [] Hw; simpl in *; lia. }
  destruct (find_invalid_char invalid_chars file_path) as [char|] eqn:Hfind; simpl.
  { apply find_invalid_char_Some in Hfind as [Hin Hc].
    left. exists (InvalidChar char). split_and!; [ | | done].
    - split; [by rewrite <- Hperm | done].
    - intros [] Hw; simpl in *; try lia. congruence. }
  specialize (Hnone eq_refl).
  destruct (isabs file_path) eqn:Habs; simpl.
  2:{ left. exists NotAbsolute. split_and!; [done | | done].
      intros [] Hw; simpl in *; try lia; [congruence | by destruct (Hnone char)]. }
  destruct (startswith file_path "\\") eqn:Hunc; simpl.
  { left. exists UncPrefix. split_and!; [done | | done].
    intros [] Hw; simpl in *; try lia; [congruence | by destruct (Hnone char) | congruence]. }
  right. split; [ | done].
  intros [] Hw; simpl in *; try congruence; try lia. by destruct (Hnone char).
Qed.

(** C1.  A path that fails one of the five security checks (longer than
    260 characters, holding "..", holding one of the invalid characters,
    not absolute, starting with two backslashes) is rejected by
    [launch_application]: the result has [success = false] and, as its
    [error_message], the message of the first check that fails, in the
    order of the source; the five messages are non-empty and differ from
    one another; no process is spawned; and [_validate_security] itself
    returns, it never raises. *)
Theorem launch_rejects_insecure_path file_path args m :
  invalid_chars ≡ₚ INVALID_CHARS →
  (∃ w, violates isabs file_path w) →
  (∃ r, validate file_path m = (m, Returns r)) ∧
  ∃ v m' dt,
    violates isabs file_path v ∧
    (∀ w, violates isabs file_path w → (check_order v ≤ check_order w)%nat) ∧
    launch file_path args m =
      (m', Returns (mkLaunchResult false None None (Some (rejection_message v)) dt)) ∧
    spawned m' = spawned m ∧
    rejection_message v ≠ EmptyString ∧
    (∀ w, rejection_message w = rejection_message v → w = v).
Proof.
  intros Hperm [w0 Hw0]. split; [apply validate_security_returns | ].
  unfold launch_application, time_time, elapsed_ms. 
  set (m1 := Machine (S (clock_reads m)) (spawned m)).
  destruct (validate_security_cases file_path m1 Hperm)
    as [(v & Hv & Hfirst & Hrun) | [Hno _]]; [ | by destruct (Hno w0)].
  exists v. eexists _, _. split_and!; [done | done | | | | ].
  - run. fold m1. rewrite Hrun. simpl. reflexivity.
  - done.
  - by destruct v.
  - intros w. apply rejection_message_inj.
Qed.

(** C9.  [is_valid_executable] returns, and returns [True] exactly when the
    path exists, is not a directory, has one of the six extensions once put
    in lower case, and has a size greater than zero; a file of zero bytes
    and a directory both give [False]. *)
Theorem is_valid_executable_iff file_path m :
  ∃ b, is_valid_executable stat suffix lower file_path m = (m, Returns b) ∧
    (b = true ↔
       os_path_exists stat file_path = true ∧
       stat file_path ≠ Directory ∧
       lower (suffix file_path) ∈ VALID_EXTENSIONS ∧
       ∃ st_size, stat file_path = Regular st_size ∧ (0 < st_size)%N) ∧
    (stat file_path = Regular 0 → b = false) ∧
    (stat file_path = Directory → b = false).
Proof.
  unfold is_valid_executable, Path_exists, Path_is_dir, Path_st_size, os_path_exists.
  destruct (stat file_path) as [ | | | st_size] eqn:Hstat; run.
  - exists false. split_and!; [done | | done | done].
    split; [done | intros (? & _); done].
  - exists false. split_and!; [done | | done | done].
    split; [done | intros (? & _); done].
  - exists false. split_and!; [done | | done | done].
    split; [done | intros (_ & ? & _); done].
  - case_bool_decide as Hext; simpl.
    + destruct (N.eqb_spec st_size 0) as [-> | Hsize]; simpl.
      * exists false. split_and!; [done | | done | done].
        split; [done | intros (_ & _ & _ & n & [= <-] & ?); lia].
      * exists true. split_and!; [done | | | done].
        -- split; [intros _ | done]. split_and!; [done | done | done | ].
           exists st_size. split; [done | lia].
        -- intros [= ->]. done.
    + exists false. split_and!; [done | | done | done].
      split; [done | intros (_ & _ & ? & _); done].
Qed.

(** C10.  [launch_with_admin] returns a result with [success = true] and no
    process identifier for every path and argument list, and spawns
    nothing. *)
Theorem launch_with_admin_spawns_nothing app_path args m :
  ∃ m' dt,
    launch_with_admin time_time_at app_path args m =
      (m', Returns (mkLaunchResult true None None None dt)) ∧
    spawned m' = spawned m.
Proof.
  unfold launch_with_admin, elapsed_ms, time_time. run.
  eexists _, _. split; reflexivity.
Qed.

End AppLauncherSpec.

Lemma launch_rejects_insecure_path_witness :
  ∃ v m' dt,
    launch_application Z.of_nat demo_isabs demo_stat demo_suffix demo_lower demo_popen
      demo_order "C:\tools\a*pp?.exe" [] (Machine 0 []) =
      (m', Returns (mkLaunchResult false None None (Some (rejection_message v)) dt)) ∧
    spawned m' = [].
Proof.
  destruct (launch_rejects_insecure_path Z.of_nat demo_isabs demo_stat demo_suffix
              demo_lower demo_popen demo_order "C:\tools\a*pp?.exe" [] (Machine 0 []))
    as (_ & v & m' & dt & _ & _ & Hrun & Hspawn & _).
  - unfold demo_order, INVALID_CHARS. solve_Permutation.
  - exists (InvalidChar "*"). split; [ | reflexivity]. unfold INVALID_CHARS. set_solver.
  - exists v, m', dt. split; [exact Hrun | exact Hspawn].
Defined.
(** * Further properties of the launch gate *)

Section AppLauncherMore.

Variable time_time_at : nat → Z.
Variable isabs : string → bool.
Variable stat : string → stat_result.
Variable suffix : string → string.
Variable lower : string → string.
Variable popen : list string → outcome Z.
Variable invalid_chars : list string.

#[local] Abbreviation validate := (_validate_security isabs invalid_chars).
#[local] Abbreviation launch :=
  (launch_application time_time_at isabs stat suffix lower popen invalid_chars).

(** The time that [launch_application] reports when it starts on [m]: the
    difference of its two readings of the clock, in milliseconds. *)
Definition launch_time (m : machine) : Z :=
  (time_time_at (S (clock_reads m)) - time_time_at (clock_reads m)) * 1000.

(** The machine after the two readings of the clock. *)
Definition after_launch (m : machine) (cmds : list (list string)) : machine :=
  Machine (S (S (clock_reads m))) (cmds ++ spawned m).

(** The result of [is_valid_executable], from what [os.stat] finds. *)
Definition valid_executable (file_path : string) : bool :=
  match stat file_path with
  | Regular st_size =>
      bool_decide (lower (suffix file_path) ∈ VALID_EXTENSIONS) && negb (st_size =? 0)%N
  | _ => false
  end.

Lemma is_valid_executable_run file_path m :
  is_valid_executable stat suffix lower file_path m = (m, Returns (valid_executable file_path)).
Proof.
  unfold is_valid_executable, valid_executable, Path_exists, Path_is_dir, Path_st_size.
  unfold try_except, bind, ret, raise.
  destruct (stat file_path) as [ | | | st_size]; cbn; try done.
  case_bool_decide; cbn; [ | done]. by destruct (st_size =? 0)%N.
Qed.

(** The validation returns a refusal with its message, or an acceptance
    without one, in whatever order the set of characters is iterated. *)
Lemma validate_security_shape file_path m :
  validate file_path m = (m, Returns (true, None)) ∨
  ∃ msg, validate file_path m = (m, Returns (false, Some msg)).
Proof.
  unfold _validate_security, try_except, bind, ret. 
  destruct (bool_decide _); cbn; [eauto | ].
  destruct (str_contains _ _); cbn; [eauto | ].
  destruct (find_invalid_char _ _); cbn; [eauto | ].
  destruct (isabs _); cbn; [ | eauto].
  destruct (startswith _ _); cbn; eauto.
Qed.

(** A path with no violation passes the validation. *)
Lemma validate_security_accepts file_path m :
  invalid_chars ≡ₚ INVALID_CHARS → (∀ w, ¬ violates isabs file_path w) →
  validate file_path m = (m, Returns (true, None)).
Proof.
  intros Hperm Hno.
  destruct (validate_security_cases isabs invalid_chars file_path m Hperm)
    as [(v & Hv & _) | [_ Hrun]]; [by destruct (Hno v) | done].
Qed.

(** X18.  [_validate_security] accepts a path, with no message, exactly
    when none of the five checks fails: the path has at most 260
    characters, holds neither ".." nor one of the six characters, is
    absolute and does not start with two backslashes. *)
Theorem validate_security_accepts_iff file_path m :
  invalid_chars ≡ₚ INVALID_CHARS →
  (validate file_path m = (m, Returns (true, None)) ↔
   (len file_path ≤ 260)%nat ∧
   str_contains ".." file_path = false ∧
   (∀ char, char ∈ INVALID_CHARS → str_contains char file_path = false) ∧
   isabs file_path = true ∧
   startswith file_path "\\" = false).
Proof.
  intros Hperm.
  assert ((∀ w, ¬ violates isabs file_path w) ↔
          (len file_path ≤ 260)%nat ∧
          str_contains ".." file_path = false ∧
          (∀ char, char ∈ INVALID_CHARS → str_contains char file_path = false) ∧
          isabs file_path = true ∧
          startswith file_path "\\" = false) as <-.
  { split.
    - intros Hno. split_and!.
      + pose proof (Hno TooLong). simpl in *. lia.
      + pose proof (Hno Traversal). simpl in *. by destruct (str_contains ".." file_path).
      + intros char Hin. pose proof (Hno (InvalidChar char)). simpl in *.
        destruct (str_contains char file_path); [ | done]. by destruct H.
      + pose proof (Hno NotAbsolute). simpl in *. by destruct (isabs file_path).
      + pose proof (Hno UncPrefix). simpl in *. by destruct (startswith file_path "\\").
    - intros (H1 & H2 & H3 & H4 & H5) [ | | char | | ]; simpl.
      + lia.
      + congruence.
      + intros [Hin Hc]. rewrite (H3 _ Hin) in Hc. done.
      + congruence.
      + congruence. }
  destruct (validate_security_cases isabs invalid_chars file_path m Hperm)
    as [(v & Hv & _ & Hrun) | [Hno Hrun]].
  - rewrite Hrun. split; [done | ]. intros Hno. by destruct (Hno v).
  - by rewrite Hrun.
Qed.

(** X19.  Whether [_validate_security] accepts a path does not depend on
    the order in which the set of invalid characters is iterated; the
    message does not depend on it either, unless the path holds two of the
    invalid characters. *)
Theorem validate_security_order_independent order1 order2 file_path m :
  order1 ≡ₚ INVALID_CHARS → order2 ≡ₚ INVALID_CHARS →
  ∃ r1 r2,
    _validate_security isabs order1 file_path m = (m, Returns r1) ∧
    _validate_security isabs order2 file_path m = (m, Returns r2) ∧
    r1.1 = r2.1 ∧
    ((∀ c1 c2, c1 ∈ INVALID_CHARS → c2 ∈ INVALID_CHARS →
               str_contains c1 file_path = true → str_contains c2 file_path = true →
               c1 = c2) →
     r1 = r2).
Proof.
  intros H1 H2.
  destruct (validate_security_cases isabs order1 file_path m H1)
    as [(v1 & Hv1 & Hmin1 & ->) | [Hno1 ->]];
  destruct (validate_security_cases isabs order2 file_path m H2)
    as [(v2 & Hv2 & Hmin2 & ->) | [Hno2 ->]].
  - eexists _, _. split_and!; [done | done | done | ].
    intros Hone. do 3 f_equal.
    pose proof (Hmin1 _ Hv2). pose proof (Hmin2 _ Hv1).
    destruct v1, v2; simpl in *; try done; try lia.
    destruct Hv1, Hv2. f_equal. by apply Hone.
  - by destruct (Hno2 v1).
  - by destruct (Hno1 v2).
  - eexists _, _. split_and!; done.
Qed.

(** The prefix that [launch_application] gives to the text of an exception,
    by the [except] clause that catches it. *)
Definition failure_prefix (e : exn) : string :=
  match e with
  | FileNotFoundError _ => "ファイルが見つかりません: "
  | PermissionError _ => "権限が不足しています: "
  | OSError _ _ => "システムエラー: "
  | _ => "予期しないエラー: "
  end.

(** [launch_application], case by case. *)
Lemma launch_cases app_path args m :
  let m1 := Machine (S (clock_reads m)) (spawned m) in
  let failure msg := mkLaunchResult false None None (Some msg) (launch_time m) in
  (∃ msg, validate app_path m1 = (m1, Returns (false, Some msg)) ∧
          launch app_path args m = (after_launch m [], Returns (failure msg))) ∨
  (validate app_path m1 = (m1, Returns (true, None)) ∧
   ((os_path_exists stat app_path = false ∧
     launch app_path args m =
       (after_launch m [],
        Returns (failure ("指定されたファイルが見つかりません: " +:+ app_path)))) ∨
    (os_path_exists stat app_path = true ∧ valid_executable app_path = false ∧
     launch app_path args m =
       (after_launch m [], Returns (failure ("無効なファイル形式です: " +:+ app_path)))) ∨
    (os_path_exists stat app_path = true ∧ valid_executable app_path = true ∧
     ((∃ pid, popen (app_path :: args) = Returns pid ∧
              launch app_path args m =
                (after_launch m [app_path :: args],
                 Returns (mkLaunchResult true (Some pid) None None (launch_time m)))) ∨
      (∃ e, popen (app_path :: args) = Raises e ∧
            launch app_path args m =
              (after_launch m [app_path :: args],
               Returns (mkLaunchResult false None
                          (match e with OSError errno _ => errno | _ => None end)
                          (Some (failure_prefix e +:+ exn_text e)) (launch_time m)))))))).
Proof.
  intros m1 failure. unfold launch_application, time_time, elapsed_ms.
  unfold try_except, bind, ret. cbn [clock_reads spawned]. fold m1.
  destruct (validate_security_shape app_path m1) as [Hv | [msg Hv]].
  2:{ left. exists msg. split; [done | ]. rewrite Hv. reflexivity. }
  right. split; [done | ]. rewrite Hv. cbn [fst negb].
  destruct (os_path_exists stat app_path) eqn:Hex; cbn [negb]; [ | left; split; reflexivity].
  right. rewrite is_valid_executable_run.
  destruct (valid_executable app_path) eqn:Hvalid; cbn [negb];
    [right | left; split_and!; reflexivity].
  split_and!; [done | done | ].
  unfold Popen. cbn [app clock_reads spawned].
  destruct (popen (app_path :: args)) as [pid | e] eqn:Hp.
  - left. exists pid. split; reflexivity.
  - right. exists e. split; [done | ]. by destruct e.
Qed.

(** X20.  A path that passes the security validation and names a regular
    file, not empty, with one of the six extensions, is launched: the
    command line handed to [subprocess.Popen] is the path followed by the
    arguments, exactly one process is spawned, and the result carries its
    process identifier, no error, and the time between the two readings of
    the clock in milliseconds. *)
Theorem launch_application_spawns app_path args st_size pid m :
  invalid_chars ≡ₚ INVALID_CHARS → (∀ w, ¬ violates isabs app_path w) →
  stat app_path = Regular st_size → (0 < st_size)%N →
  lower (suffix app_path) ∈ VALID_EXTENSIONS →
  popen (app_path :: args) = Returns pid →
  launch app_path args m =
    (Machine (S (S (clock_reads m))) ((app_path :: args) :: spawned m),
     Returns (mkLaunchResult true (Some pid) None None
                ((time_time_at (S (clock_reads m)) - time_time_at (clock_reads m)) * 1000))).
Proof.
  intros Hperm Hno Hstat Hsize Hext Hp.
  pose proof (validate_security_accepts app_path (Machine (S (clock_reads m)) (spawned m))
                Hperm Hno) as Hv.
  assert (os_path_exists stat app_path = true) as Hex.
  { unfold os_path_exists. by rewrite Hstat. }
  assert (valid_executable app_path = true) as Hvalid.
  { unfold valid_executable. rewrite Hstat. rewrite bool_decide_eq_true_2 by done.
    cbn [andb]. apply negb_true_iff, N.eqb_neq. lia. }
  destruct (launch_cases app_path args m)
    as [(msg & Hv' & _) | (_ & [(Hex' & _) | [(_ & Hvalid' & _) | (_ & _ & Hrun)]])];
    [congruence | congruence | congruence | ].
  destruct Hrun as [(pid' & Hp' & ->) | (e & Hp' & _)]; [ | congruence].
  rewrite Hp in Hp'. by injection Hp' as <-.
Qed.

(** X21.  [launch_application] never raises, and reads the clock twice.  A
    result with [success = true] has the identifier of the process that
    was spawned and no error; a result with [success = false] has an error
    message and no process identifier, and nothing was spawned unless
    [subprocess.Popen] itself raised.  At most one command line is ever
    handed to [subprocess.Popen]: the path followed by the arguments. *)
Theorem launch_application_total app_path args m :
  ∃ m' r,
    launch app_path args m = (m', Returns r) ∧
    clock_reads m' = S (S (clock_reads m)) ∧
    execution_time r = launch_time m ∧
    (spawned m' = spawned m ∨ spawned m' = (app_path :: args) :: spawned m) ∧
    (success r = true →
       ∃ pid, popen (app_path :: args) = Returns pid ∧
              r = mkLaunchResult true (Some pid) None None (launch_time m) ∧
              spawned m' = (app_path :: args) :: spawned m) ∧
    (success r = false →
       process_id r = None ∧ is_Some (error_message r) ∧
       (spawned m' = spawned m ∨ ∃ e, popen (app_path :: args) = Raises e)).
Proof.
  destruct (launch_cases app_path args m)
    as [(msg & _ & ->) | (_ & [(_ & ->) | [(_ & _ & ->) | (_ & _ & Hrun)]])].
  1-3: eexists _, _; split_and!; [done | done | done | by left | done | ].
  1-3: intros _; split_and!; [done | by eexists | by left].
  destruct Hrun as [(pid & Hp & ->) | (e & Hp & ->)].
  - eexists _, _. split_and!; [done | done | done | by right | | done].
    intros _. exists pid. done.
  - eexists _, _. split_and!; [done | done | done | by right | done | ].
    intros _. split_and!; [done | by eexists | right; eauto].
Qed.

(** X22.  A path that passes the security validation but names nothing
    that [os.path.exists] finds is refused with the message that the file
    was not found; one that names a directory, an empty file or a file
    with another extension is refused with the message that the format is
    invalid.  Both messages end with the path, and nothing is spawned. *)
Theorem launch_application_refuses_non_executable app_path args m :
  invalid_chars ≡ₚ INVALID_CHARS → (∀ w, ¬ violates isabs app_path w) →
  match stat app_path with
  | Regular st_size => st_size = 0%N ∨ lower (suffix app_path) ∉ VALID_EXTENSIONS
  | _ => True
  end →
  ∃ m' msg,
    launch app_path args m =
      (m', Returns (mkLaunchResult false None None (Some msg) (launch_time m))) ∧
    spawned m' = spawned m ∧
    msg = match stat app_path with
          | NoEntry | Denied => "指定されたファイルが見つかりません: " +:+ app_path
          | Directory | Regular _ => "無効なファイル形式です: " +:+ app_path
          end.
Proof.
  intros Hperm Hno Hstat.
  pose proof (validate_security_accepts app_path (Machine (S (clock_reads m)) (spawned m))
                Hperm Hno) as Hv.
  assert (valid_executable app_path = false) as Hvalid.
  { unfold valid_executable. destruct (stat app_path) as [ | | | st_size]; try done.
    destruct Hstat as [-> | Hext]; [apply andb_false_r | ].
    by rewrite bool_decide_eq_false_2. }
  destruct (launch_cases app_path args m)
    as [(msg & Hv' & _) | (_ & [(Hex & ->) | [(Hex & _ & ->) | (_ & Hvalid' & _)]])];
    [congruence | | | congruence].
  - eexists _, _. split_and!; [done | done | ].
    unfold os_path_exists in Hex. by destruct (stat app_path).
  - eexists _, _. split_and!; [done | done | ].
    unfold os_path_exists in Hex. by destruct (stat app_path).
Qed.

(** X23.  When [subprocess.Popen] raises, [launch_application] turns the
    exception into a result: [success = false], the text of the exception
    after a prefix chosen by its class, and an [error_code] only for an
    [OSError] that is neither a [FileNotFoundError] nor a
    [PermissionError], whose clauses come first. *)
Theorem launch_application_reports_popen_error app_path args st_size e m :
  invalid_chars ≡ₚ INVALID_CHARS → (∀ w, ¬ violates isabs app_path w) →
  stat app_path = Regular st_size → (0 < st_size)%N →
  lower (suffix app_path) ∈ VALID_EXTENSIONS →
  popen (app_path :: args) = Raises e →
  ∃ m',
    launch app_path args m =
      (m', Returns (mkLaunchResult false None
                      (match e with OSError errno _ => errno | _ => None end)
                      (Some (failure_prefix e +:+ exn_text e)) (launch_time m))).
Proof.
  intros Hperm Hno Hstat Hsize Hext Hp.
  pose proof (validate_security_accepts app_path (Machine (S (clock_reads m)) (spawned m))
                Hperm Hno) as Hv.
  assert (os_path_exists stat app_path = true) as Hex.
  { unfold os_path_exists. by rewrite Hstat. }
  assert (valid_executable app_path = true) as Hvalid.
  { unfold valid_executable. rewrite Hstat. rewrite bool_decide_eq_true_2 by done.
    cbn [andb]. apply negb_true_iff, N.eqb_neq. lia. }
  destruct (launch_cases app_path args m)
    as [(msg & Hv' & _) | (_ & [(Hex' & _) | [(_ & Hvalid' & _) | (_ & _ & Hrun)]])];
    [congruence | congruence | congruence | ].
  destruct Hrun as [(pid' & Hp' & _) | (e' & Hp' & ->)]; [congruence | ].
  rewrite Hp in Hp'. injection Hp' as <-. eauto.
Qed.

End AppLauncherMore.

(** * The process table *)

Section AppLauncherProcessesSpec.

Variable lower : string → string.
Variable basename : string → string.
Variable normpath : string → string.
Variable process_iter : list process.
Variable terminate : Z → terminate_outcome.

#[local] Abbreviation running := (is_application_running lower basename normpath process_iter).
#[local] Abbreviation kill := (kill_application lower basename normpath process_iter terminate).

(** A process is taken for the application when its name or its executable
    matches. *)
Definition matches (app_path : string) (p : process) : bool :=
  name_matches lower basename app_path p || exe_matches lower normpath app_path p.

Lemma running_loop_existsb app_path processes :
  running_loop lower basename normpath app_path processes =
    existsb (matches app_path) processes.
Proof.
  induction processes as [ | p rest IH]; [done | ]. cbn [running_loop existsb].
  unfold matches at 1. rewrite IH.
  destruct (name_matches _ _ _ _); [done | ]. by destruct (exe_matches _ _ _ _).
Qed.

(** X24.  [is_application_running] is true exactly when some process has a
    name that is, letter case apart, the base name of the path, or an
    executable whose normalised path is, letter case apart, the normalised
    path: a process with the same file name in another directory counts. *)
Theorem is_application_running_iff app_path :
  is_application_running lower basename normpath process_iter app_path = true ↔
  ∃ p, p ∈ process_iter ∧
       ((∃ n, info_name p = Some n ∧ n ≠ EmptyString ∧
              lower n = lower (basename app_path)) ∨
        (∃ e, info_exe p = Some e ∧ e ≠ EmptyString ∧
              lower (normpath e) = lower (normpath app_path))).
Proof.
  unfold is_application_running. rewrite running_loop_existsb, existsb_exists.
  split.
  - intros (p & Hin%list_elem_of_In & Hm). exists p. split; [done | ].
    unfold matches, name_matches, exe_matches in Hm.
    apply orb_true_iff in Hm as [Hm | Hm].
    + left. destruct (info_name p) as [n|]; [ | done]. exists n.
      apply andb_true_iff in Hm as [Hn%negb_true_iff%String.eqb_neq Heq%String.eqb_eq]. done.
    + right. destruct (info_exe p) as [e|]; [ | done]. exists e.
      apply andb_true_iff in Hm as [Hn%negb_true_iff%String.eqb_neq Heq%String.eqb_eq]. done.
  - intros (p & Hin & Hm). exists p. split; [by apply list_elem_of_In | ].
    unfold matches, name_matches, exe_matches. apply orb_true_iff.
    destruct Hm as [(n & -> & Hn & Heq) | (e & -> & He & Heq)]; [left | right].
    + apply andb_true_iff. split; [by apply negb_true_iff, String.eqb_neq | by apply String.eqb_eq].
    + apply andb_true_iff. split; [by apply negb_true_iff, String.eqb_neq | by apply String.eqb_eq].
Qed.

(** The processes that the loop terminates: those that match and whose
    [terminate] goes through. *)
Definition terminable (app_path : string) (p : process) : bool :=
  matches app_path p &&
  match terminate (info_pid p) with Terminated => true | _ => false end.

(** The loop, when it ends: what it has terminated and what it returns. *)
Lemma kill_loop_spec app_path processes killed terminated :
  ∃ stopped r,
    kill_loop lower basename normpath terminate app_path processes killed terminated =
      (stopped ++ terminated, r) ∧
    (∀ pid, pid ∈ stopped →
            ∃ p, p ∈ processes ∧ info_pid p = pid ∧ terminable app_path p = true) ∧
    match r with
    | Returns b =>
        stopped = reverse (info_pid <$> filter (λ p, terminable app_path p = true) processes) ∧
        b = killed || bool_decide (stopped ≠ [])
    | Raises e =>
        ∃ p, p ∈ processes ∧ matches app_path p = true ∧
             terminate (info_pid p) = TerminateError e
    end.
Proof.
  revert killed terminated.
  induction processes as [ | p rest IH]; intros killed terminated.
  { exists [], (Returns killed). split_and!; [done | | done | by rewrite orb_false_r].
    intros pid H. by apply elem_of_nil in H. }
  set (Post := λ x : list Z * outcome bool,
    ∃ stopped r,
      x = (stopped ++ terminated, r) ∧
      (∀ pid, pid ∈ stopped →
              ∃ q, q ∈ p :: rest ∧ info_pid q = pid ∧ terminable app_path q = true) ∧
      match r with
      | Returns b =>
          stopped = reverse (info_pid <$>
                            filter (λ q, terminable app_path q = true) (p :: rest)) ∧
          b = killed || bool_decide (stopped ≠ [])
      | Raises e =>
          ∃ q, q ∈ p :: rest ∧ matches app_path q = true ∧
               terminate (info_pid q) = TerminateError e
      end).
  assert (matches app_path p = false →
          Post (kill_loop lower basename normpath terminate app_path rest killed terminated))
    as Hskip.
  { intros Hm. destruct (IH killed terminated) as (dn & r & -> & Hdone & Hr).
    exists dn, r. split_and!; [done | | ].
    - intros pid Hpid. destruct (Hdone pid Hpid) as (q & Hq & ?). exists q.
      split; [by right | done].
    - rewrite filter_cons_False by (unfold terminable; by rewrite Hm).
      destruct r; [done | ]. destruct Hr as (q & Hq & ?). exists q. split; [by right | done]. }
  assert (matches app_path p = true →
          Post (terminate_process terminate p killed
                  (kill_loop lower basename normpath terminate app_path rest) terminated))
    as Hhit; cycle 1.
  { change (Post (kill_loop lower basename normpath terminate app_path (p :: rest)
                    killed terminated)).
    cbn [kill_loop]. unfold matches in Hskip, Hhit.
    destruct (name_matches lower basename app_path p); [by apply Hhit | ].
    destruct (exe_matches lower normpath app_path p); [by apply Hhit | by apply Hskip]. }
  intros Hm. unfold Post. clear Hskip Post.
  unfold terminate_process.
  destruct (terminate (info_pid p)) as [ | | | e] eqn:Ht.
  - destruct (IH true (info_pid p :: terminated)) as (dn & r & -> & Hdone & Hr).
    exists (dn ++ [info_pid p]), r. split_and!; [by rewrite <- app_assoc | | ].
    + intros pid [Hpid | ->%list_elem_of_singleton]%elem_of_app.
      * destruct (Hdone pid Hpid) as (q & Hq & ?). exists q. split; [by right | done].
      * exists p. split_and!; [by left | done | ]. unfold terminable. by rewrite Hm, Ht.
    + rewrite filter_cons_True by (unfold terminable; by rewrite Hm, Ht).
      destruct r as [b | e]; [ | ].
      * destruct Hr as [-> ->]. split; [by rewrite fmap_cons, reverse_cons | ].
        cbn [orb]. rewrite bool_decide_eq_true_2; [by rewrite orb_true_r | ].
        intros H%app_eq_nil. by destruct H.
      * destruct Hr as (q & Hq & ?). exists q. split; [by right | done].
  - destruct (IH killed terminated) as (dn & r & -> & Hdone & Hr).
    exists dn, r. split_and!; [done | | ].
    + intros pid Hpid. destruct (Hdone pid Hpid) as (q & Hq & ?). exists q.
      split; [by right | done].
    + rewrite filter_cons_False by (unfold terminable; by rewrite Hm, Ht).
      destruct r; [done | ]. destruct Hr as (q & Hq & ?). exists q. split; [by right | done].
  - destruct (IH killed terminated) as (dn & r & -> & Hdone & Hr).
    exists dn, r. split_and!; [done | | ].
    + intros pid Hpid. destruct (Hdone pid Hpid) as (q & Hq & ?). exists q.
      split; [by right | done].
    + rewrite filter_cons_False by (unfold terminable; by rewrite Hm, Ht).
      destruct r; [done | ]. destruct Hr as (q & Hq & ?). exists q. split; [by right | done].
  - exists [], (Raises e). split_and!; [done | | ].
    + intros pid H. by apply elem_of_nil in H.
    + exists p. split_and!; [by left | done | done].
Qed.

(** X25.  [kill_application] never raises and only terminates processes
    that match the path, by name or by executable.  When it returns
    [True], at least one process was terminated; when no process matches,
    which is when [is_application_running] is false, it terminates nothing
    and returns [False]. *)
Theorem kill_application_only_matching app_path terminated :
  ∃ stopped killed,
    kill app_path terminated = (stopped ++ terminated, Returns killed) ∧
    (∀ pid, pid ∈ stopped →
            ∃ p, p ∈ process_iter ∧ info_pid p = pid ∧ matches app_path p = true ∧
                 terminate pid = Terminated) ∧
    (killed = true → stopped ≠ [] ∧ running app_path = true) ∧
    (running app_path = false → stopped = [] ∧ killed = false).
Proof.
  unfold kill_application, try_except.
  destruct (kill_loop_spec app_path process_iter false terminated) as (dn & r & -> & Hdone & Hr).
  assert (∀ pid, pid ∈ dn →
            ∃ p, p ∈ process_iter ∧ info_pid p = pid ∧ matches app_path p = true ∧
                 terminate pid = Terminated) as Hsound.
  { intros pid Hpid. destruct (Hdone pid Hpid) as (p & Hp & <- & Ht). exists p.
    unfold terminable in Ht. apply andb_true_iff in Ht as [Hm Ht].
    split_and!; [done | done | done | ]. by destruct (terminate (info_pid p)). }
  assert (dn ≠ [] → running app_path = true) as Hrunning.
  { destruct dn as [ | pid dn']; [done | ]. intros _.
    destruct (Hsound pid) as (p & Hp & _ & Hm & _); [by left | ].
    unfold is_application_running. rewrite running_loop_existsb. apply existsb_exists.
    exists p. split; [by apply list_elem_of_In | done]. }
  assert (running app_path = false → dn = []) as Hnone.
  { intros Hno. destruct dn as [ | pid dn']; [done | ]. rewrite Hrunning in Hno; done. }
  destruct r as [b | e].
  - destruct Hr as [_ ->]. cbn [orb]. exists dn, (bool_decide (dn ≠ [])).
    split_and!; [done | done | | ].
    + intros Hb%bool_decide_eq_true. auto.
    + intros Hno. rewrite (Hnone Hno). done.
  - exists dn, false. split_and!; [done | done | done | ].
    intros Hno. split; [auto | done].
Qed.

Lemma terminated_nonempty app_path (processes : list process) :
  bool_decide
    (reverse (info_pid <$> filter (λ p, terminable app_path p = true) processes) ≠ []) =
  existsb (terminable app_path) processes.
Proof.
  induction processes as [ | p rest IH]; [done | ]. cbn [existsb].
  destruct (terminable app_path p) eqn:Ht.
  - rewrite filter_cons_True by done. rewrite fmap_cons, reverse_cons.
    rewrite bool_decide_eq_true_2; [done | ]. intros H%app_eq_nil. by destruct H.
  - rewrite filter_cons_False by congruence. exact IH.
Qed.

(** X26.  When no [terminate] raises an exception other than
    [NoSuchProcess] and [AccessDenied], [kill_application] goes through the
    whole process table: it terminates every matching process that can be
    terminated, in the order of the table, and returns [True] exactly when
    there was one. *)
Theorem kill_application_all_matching app_path terminated :
  (∀ p e, p ∈ process_iter → matches app_path p = true →
          terminate (info_pid p) ≠ TerminateError e) →
  kill app_path terminated =
    (reverse (info_pid <$> filter (λ p, terminable app_path p = true) process_iter)
       ++ terminated,
     Returns (existsb (terminable app_path) process_iter)).
Proof.
  intros Hok. unfold kill_application, try_except.
  destruct (kill_loop_spec app_path process_iter false terminated) as (dn & r & -> & _ & Hr).
  destruct r as [b | e].
  2:{ destruct Hr as (p & Hp & Hm & Ht). by destruct (Hok p e). }
  destruct Hr as [-> ->]. cbn [orb]. by rewrite terminated_nonempty.
Qed.

(** X27.  A [False] from [kill_application] does not say that nothing was
    terminated: when a [terminate] raises an exception of another class,
    the processes terminated before stay terminated, the rest of the table
    is not visited, and the result is [False]. *)
Theorem kill_application_stops_at_error app_path before p e rest terminated :
  process_iter = before ++ p :: rest →
  matches app_path p = true → terminate (info_pid p) = TerminateError e →
  (∀ q e', q ∈ before → matches app_path q = true →
           terminate (info_pid q) ≠ TerminateError e') →
  kill app_path terminated =
    (reverse (info_pid <$> filter (λ q, terminable app_path q = true) before) ++ terminated,
     Returns false).
Proof.
  intros Htable Hm Ht Hbefore. unfold kill_application, try_except. rewrite Htable.
  clear Htable.
  assert (∀ killed,
    kill_loop lower basename normpath terminate app_path (before ++ p :: rest) killed
      terminated =
    (reverse (info_pid <$> filter (λ q, terminable app_path q = true) before) ++ terminated,
     Raises e)) as ->; [ | done].
  revert terminated. induction before as [ | q before IH]; intros terminated killed.
  { cbn [app kill_loop]. unfold matches in Hm. unfold terminate_process.
    destruct (name_matches _ _ _ _); [by rewrite Ht | ].
    cbn [orb] in Hm. rewrite Hm. by rewrite Ht. }
  cbn [app kill_loop].
  assert (∀ q' e', q' ∈ before → matches app_path q' = true →
                   terminate (info_pid q') ≠ TerminateError e') as Hbefore'.
  { intros q' e' Hq'. apply Hbefore. by right. }
  destruct (matches app_path q) eqn:Hq.
  2:{ rewrite filter_cons_False by (unfold terminable; by rewrite Hq).
      unfold matches in Hq. apply orb_false_iff in Hq as [-> ->]. by apply IH. }
  assert ((if name_matches lower basename app_path q
           then terminate_process terminate q killed
                  (kill_loop lower basename normpath terminate app_path (before ++ p :: rest))
           else if exe_matches lower normpath app_path q
                then terminate_process terminate q killed
                       (kill_loop lower basename normpath terminate app_path
                          (before ++ p :: rest))
                else kill_loop lower basename normpath terminate app_path
                       (before ++ p :: rest) killed) =
          terminate_process terminate q killed
            (kill_loop lower basename normpath terminate app_path (before ++ p :: rest)))
    as ->.
  { unfold matches in Hq. destruct (name_matches _ _ _ _); [done | ].
    cbn [orb] in Hq. by rewrite Hq. }
  unfold terminate_process.
  destruct (terminate (info_pid q)) as [ | | | e'] eqn:Htq.
  - rewrite filter_cons_True by (unfold terminable; by rewrite Hq, Htq).
    rewrite fmap_cons, reverse_cons, <- app_assoc. cbn [app]. by apply IH.
  - rewrite filter_cons_False by (unfold terminable; by rewrite Hq, Htq). by apply IH.
  - rewrite filter_cons_False by (unfold terminable; by rewrite Hq, Htq). by apply IH.
  - by destruct (Hbefore q e' ltac:(by left) Hq).
Qed.

End AppLauncherProcessesSpec.

(** * Administrator privileges *)

Section AppLauncherPrivilegesSpec.

Variable environ_get : string → string → string.
Variable join : string → string → string.
Variable normpath : string → string.
Variable lower : string → string.
Variable basename : string → string.

Lemma admin_loop_true normalized_path dirs :
  admin_loop normpath lower basename normalized_path dirs = true ↔
  basename normalized_path ∈ admin_apps ∧
  ∃ sys_dir, sys_dir ∈ dirs ∧ sys_dir ≠ EmptyString ∧
             startswith normalized_path (lower (normpath sys_dir)) = true.
Proof.
  induction dirs as [ | sys_dir rest IH]; cbn [admin_loop].
  { split; [done | ]. intros (_ & d & Hd & _). by apply elem_of_nil in Hd. }
  destruct (negb (String.eqb sys_dir "") &&
            startswith normalized_path (lower (normpath sys_dir))) eqn:Hhit.
  - apply andb_true_iff in Hhit as [Hne%negb_true_iff%String.eqb_neq Hstart].
    rewrite bool_decide_eq_true. split.
    + intros Hin. split; [done | ]. exists sys_dir. split_and!; [by left | done | done].
    + by intros [Hin _].
  - rewrite IH. apply and_iff_compat_l. split.
    + intros (d & Hd & Hne & Hstart). exists d. split_and!; [by right | done | done].
    + intros (d & [-> | Hd]%elem_of_cons & Hne & Hstart); [ | by exists d].
      apply andb_false_iff in Hhit as [Hhit | Hhit]; [ | congruence].
      apply negb_false_iff, String.eqb_eq in Hhit. done.
Qed.

(** X28.  [requires_admin_privileges] is true exactly when the normalised
    path, in lower case, starts with one of the three system directories,
    normalised and in lower case, and its base name is one of [regedit.exe],
    [gpedit.msc], [secpol.msc] and [services.msc]: no other file ever asks
    for administrator privileges, and which of the directories matches
    first does not matter. *)
Theorem requires_admin_privileges_iff app_path :
  requires_admin_privileges environ_get join normpath lower basename app_path = true ↔
  basename (lower (normpath app_path)) ∈
    ["regedit.exe"; "gpedit.msc"; "secpol.msc"; "services.msc"] ∧
  ∃ sys_dir,
    sys_dir ∈ [join (environ_get "WINDIR" "") "System32";
               join (environ_get "WINDIR" "") "SysWOW64";
               join (environ_get "ProgramFiles" "") "Windows NT"] ∧
    sys_dir ≠ EmptyString ∧
    startswith (lower (normpath app_path)) (lower (normpath sys_dir)) = true.
Proof. unfold requires_admin_privileges. cbv zeta. apply admin_loop_true. Qed.

End AppLauncherPrivilegesSpec.
(** * Properties of the configuration store *)

Section ConfigManagerSpec.

Variable strftime : Z → string.
Variable isoformat : Z → string.

#[local] Abbreviation save := (save_config strftime isoformat).
#[local] Abbreviation load := (load_config strftime isoformat).
#[local] Abbreviation backup := (backup_config strftime).

Ltac run := unfold try_except, bind, ret, raise; simpl.

#[local] Opaque get_default_config.
#[local] Arguments backup_config : simpl never.
#[local] Arguments _get_backup_count : simpl never.
#[local] Arguments _cleanup_old_backups : simpl never.
#[local] Arguments save_config : simpl never.
#[local] Arguments restore_from_backup : simpl never.
#[local] Arguments _try_restore_from_latest_backup : simpl never.
#[local] Arguments copy2 : simpl never.
#[local] Arguments json_dump : simpl never.

(** What a call leaves alone when it only works on the backup directory. *)
Definition same_config (s s' : disk) : Prop :=
  clock s' = clock s ∧ config_file s' = config_file s ∧
  config_locked s' = config_locked s ∧ backup_dir_ro s' = backup_dir_ro s ∧
  elsewhere s' = elsewhere s ∧ config_read_only s' = config_read_only s.

Lemma same_config_refl s : same_config s s.
Proof. by repeat split. Qed.

Lemma same_config_trans s1 s2 s3 :
  same_config s1 s2 → same_config s2 s3 → same_config s1 s3.
Proof. unfold same_config. intros (?&?&?&?&?&?) (?&?&?&?&?&?). split_and!; congruence. Qed.

Lemma same_config_set_backup_dir d s : same_config s (set_backup_dir d s).
Proof. by repeat split. Qed.

Lemma remove_same_config name s : same_config s (remove name s).1.
Proof.
  unfold remove. destruct (backup_dir s) as [d|]; [ | apply same_config_refl].
  destruct (d !! name); [ | apply same_config_refl].
  destruct (backup_dir_ro s || _); [apply same_config_refl | apply same_config_set_backup_dir].
Qed.

Lemma for_each_remove_same_config (l : list (Z * string)) s :
  same_config s (for_each l (λ '(_, backup_path), remove backup_path) s).1.
Proof.
  revert s. induction l as [ | [t name] l IH]; intros s; simpl.
  - apply same_config_refl.
  - unfold bind. pose proof (remove_same_config name s) as H1.
    destruct (remove name s) as [s1 [[] | e]]; simpl in *; [ | done].
    eapply same_config_trans; [exact H1 | apply IH].
Qed.

Lemma cleanup_same_config n s : same_config s (_cleanup_old_backups n s).1.
Proof.
  unfold _cleanup_old_backups, backup_dir_exists. run.
  case_bool_decide; simpl; [ | apply same_config_refl].
  case_bool_decide; simpl; [ | apply same_config_refl].
  match goal with |- context [for_each ?l ?f s] =>
    pose proof (for_each_remove_same_config l s) as H1;
    destruct (for_each l f s) as [s1 [[] | e]] end; simpl in *; [done | ].
  destruct (is_OSError e); done.
Qed.

Lemma copy2_to_backup_same_config name s :
  same_config s (copy2 ConfigPath (BackupPath name) s).1.
Proof.
  unfold copy2, read_file, write_file. run.
  destruct (config_file s); simpl; [ | apply same_config_refl].
  destruct (config_locked s); simpl; [apply same_config_refl | ].
  destruct (backup_dir s); simpl; [ | apply same_config_refl].
  destruct (backup_dir_ro s || _); simpl; [apply same_config_refl | ].
  by repeat split.
Qed.

Lemma backup_same_config s : same_config s (backup s).1.
Proof.
  unfold backup_config, path_exists, now. run.
  case_bool_decide; simpl; [ | apply same_config_refl].
  pose proof (copy2_to_backup_same_config (backup_filename (strftime (clock s))) s) as H1.
  destruct (copy2 _ _ s) as [s1 [[] | e]]; simpl in *.
  - pose proof (cleanup_same_config 5 s1) as H2.
    destruct (_cleanup_old_backups 5 s1) as [s2 [[] | e]]; simpl in *.
    + by eapply same_config_trans.
    + destruct (is_OSError e); simpl; by eapply same_config_trans.
  - destruct (is_OSError e); done.
Qed.

(** [_get_backup_count] as a function of the disk. *)
Definition backup_count (s : disk) : Z :=
  match backup_dir s with
  | Some d => Z.of_nat (length (list_backup_files d))
  | None => 0
  end.

Lemma get_backup_count_run s : _get_backup_count s = (s, Returns (backup_count s)).
Proof.
  unfold _get_backup_count, backup_dir_exists, backup_count, list_backup_files. run.
  destruct (backup_dir s) eqn:E; simpl; [ | done].
  by rewrite E, length_fmap.
Qed.

(** The [_metadata] entry written by a save. *)
Definition metadata (s : disk) : pyval :=
  PDict (<["last_modified" := PStr (isoformat (clock s))]>
        (<["backup_count" := PInt (backup_count s)]> ∅)).

Lemma omap_nil_iff {A B} (f : A → option B) (l : list A) :
  omap f l = [] ↔ ∀ x, x ∈ l → f x = None.
Proof.
  induction l as [ | a l IH]; simpl.
  - split; [intros _ x Hx; by apply elem_of_nil in Hx | done].
  - destruct (f a) eqn:Hfa.
    + split; [done | ]. intros H. assert (f a = None) by (apply H; by left). congruence.
    + rewrite IH. split.
      * intros H x [-> | Hx]%elem_of_cons; auto.
      * intros H x Hx. apply H. by right.
Qed.

Lemma basic_validation_dict d :
  (_basic_validation (PDict d)).1 = true ↔
  ∀ key t v, (key, t) ∈ type_checks → d !! key = Some v → isinstance v t = true.
Proof.
  unfold _basic_validation. cbv zeta. cbn [fst].
  rewrite bool_decide_eq_true, length_zero_iff_nil, omap_nil_iff.
  split.
  - intros H key t v Hin Hv. specialize (H _ Hin). cbv beta iota in H.
    rewrite Hv in H. by destruct (isinstance v t).
  - intros H [key t] Hin. destruct (d !! key) as [v|] eqn:Hv; [ | done].
    by rewrite (H _ _ _ Hin Hv).
Qed.

Lemma basic_validation_not_dict config :
  (∀ d, config ≠ PDict d) → (_basic_validation config).1 = false.
Proof. intros H. destruct config; try done. by destruct (H d). Qed.

Lemma remove_raises name s e : (remove name s).2 = Raises e → is_OSError e = true.
Proof.
  unfold remove. destruct (backup_dir s) as [d|]; simpl; [ | by intros [= <-]].
  destruct (d !! name); simpl; [ | by intros [= <-]].
  destruct (backup_dir_ro s || _); simpl; [by intros [= <-] | done].
Qed.

Lemma for_each_remove_raises (l : list (Z * string)) s e :
  (for_each l (λ '(_, backup_path), remove backup_path) s).2 = Raises e →
  is_OSError e = true.
Proof.
  revert s. induction l as [ | [t name] l IH]; intros s; simpl; [done | ].
  unfold bind. pose proof (remove_raises name s) as H1.
  destruct (remove name s) as [s1 [[] | e1]]; simpl in *; [apply IH | ].
  intros [= <-]. by apply H1.
Qed.

Lemma cleanup_returns n s : (_cleanup_old_backups n s).2 = Returns tt.
Proof.
  unfold _cleanup_old_backups, backup_dir_exists. run.
  case_bool_decide; simpl; [ | done].
  case_bool_decide; simpl; [ | done].
  match goal with |- context [for_each ?l ?f s] =>
    pose proof (for_each_remove_raises l s) as H1;
    destruct (for_each l f s) as [s1 [[] | e]] end; simpl in *; [done | ].
  by rewrite (H1 e eq_refl).
Qed.

Lemma read_file_raises p s e : (read_file p s).2 = Raises e → is_OSError e = true.
Proof.
  unfold read_file. destruct (lookup_file p s); simpl; [ | by intros [= <-]].
  destruct p; simpl; [ | done | done].
  destruct (config_locked s); simpl; [by intros [= <-] | done].
Qed.

Lemma write_file_raises p f s e : (write_file p f s).2 = Raises e → is_OSError e = true.
Proof.
  unfold write_file. destruct p; simpl.
  - destruct (config_locked s || _); simpl; [by intros [= <-] | done].
  - destruct (backup_dir s); simpl; [ | by intros [= <-]].
    destruct (backup_dir_ro s || _); simpl; [by intros [= <-] | done].
  - done.
Qed.

Lemma read_file_state p s : (read_file p s).1 = s.
Proof. unfold read_file. repeat case_match; done. Qed.

Lemma copy2_raises src dst s e : (copy2 src dst s).2 = Raises e → is_OSError e = true.
Proof.
  unfold copy2. case_decide; [by intros [= <-] | ].
  unfold bind. pose proof (read_file_raises src s) as Hr.
  destruct (read_file src s) as [s1 [f | e1]]; simpl in *.
  - pose proof (write_file_raises dst f s1) as Hw.
    destruct (write_file dst f s1) as [s2 [[] | e2]]; simpl in *; [done | ].
    intros [= <-]. by apply Hw.
  - intros [= <-]. by apply Hr.
Qed.

Lemma backup_returns s : ∃ r, (backup s).2 = Returns r.
Proof.
  unfold backup_config, path_exists, now. run.
  case_bool_decide; simpl; [ | eauto].
  pose proof (copy2_raises ConfigPath (BackupPath (backup_filename (strftime (clock s)))) s)
    as Hc.
  destruct (copy2 _ _ s) as [s1 [[] | e]]; simpl in *.
  - pose proof (cleanup_returns 5 s1) as Hr.
    destruct (_cleanup_old_backups 5 s1) as [s2 [[] | e]]; simpl in *; [eauto | done].
  - rewrite (Hc e eq_refl). simpl. eauto.
Qed.

(** A rejected configuration: nothing is done. *)
Lemma save_config_invalid config s :
  (_basic_validation config).1 = false → save config s = (s, Returns false).
Proof.
  intros H. unfold save_config.
  destruct (_basic_validation config) as [is_valid errors]. simpl in H. subst. done.
Qed.

(** An accepted configuration, on a configuration file that can be written. *)
Lemma save_config_valid d s :
  (_basic_validation (PDict d)).1 = true →
  config_locked s = false → config_read_only s = false →
  ∃ s1, same_config s s1 ∧
        (config_file s = None → s1 = s) ∧
        (is_Some (config_file s) → s1 = (backup s).1) ∧
        save (PDict d) s =
          (set_config_file
             (Some (File (clock s) (Json (PDict (<["_metadata" := metadata s1]> d))))) s1,
           Returns true).
Proof.
  intros Hvalid Hlock Hwrite. unfold save_config.
  destruct (_basic_validation (PDict d)) as [is_valid errors]. simpl in Hvalid. subst.
  assert (Hstep : ∀ s1, same_config s s1 →
    json_dump (PDict (<["_metadata" :=
        PDict (<["last_modified" := PStr (isoformat (clock s1))]>
              (<["backup_count" := PInt (backup_count s1)]> ∅))]> d)) ConfigPath s1 =
    (set_config_file
       (Some (File (clock s) (Json (PDict (<["_metadata" := metadata s1]> d))))) s1,
     Returns tt)).
  { intros s1 (Hc & _ & Hl & _ & _ & Hro). unfold json_dump, write_file, metadata.
    by rewrite Hl, Hlock, Hro, Hwrite, Hc. }
  unfold path_exists, now. run.
  case_bool_decide as Hex; simpl.
  - exists (backup s).1. pose proof (backup_same_config s) as Hsame.
    destruct (backup_returns s) as [r Hr].
    destruct (backup_config strftime s) as [s1 o] eqn:Hb; simpl in *. subst o.
    split_and!; [done | | done | ].
    + intros Hn. rewrite Hn in Hex. by destruct Hex.
    + rewrite get_backup_count_run. by rewrite (Hstep s1 Hsame).
  - exists s. split_and!; [apply same_config_refl | done | | ].
    + intros Hs. by destruct Hex.
    + rewrite get_backup_count_run. by rewrite (Hstep s (same_config_refl s)).
Qed.

Lemma filter_metadata (d : gmap string pyval) :
  filter (λ kv, kv.1 ≠ "_metadata") d = delete "_metadata" d.
Proof.
  apply map_eq. intros k. destruct (decide (k = "_metadata")) as [-> | Hk].
  - rewrite lookup_delete_eq. apply map_lookup_filter_None. right. intros v _ H. by apply H.
  - rewrite lookup_delete_ne by done.
    destruct (d !! k) as [v|] eqn:Hv.
    + by apply map_lookup_filter_Some.
    + apply map_lookup_filter_None. by left.
Qed.

(** Loading a configuration file that holds a JSON object. *)
Lemma load_config_at_object depth d f s :
  config_file s = Some f → data f = Json (PDict d) → config_locked s = false →
  load_config_at strftime isoformat (S depth) s = (s, Returns (delete "_metadata" d)).
Proof.
  intros Hf Hd Hl. destruct f as [t c]. simpl in Hd. subst c.
  cbn [load_config_at]. unfold path_exists, read_file.
  unfold try_except, bind, ret, raise. cbn -[filter].
  repeat first [rewrite Hf | rewrite Hl | progress cbn -[filter]].
  by rewrite filter_metadata.
Qed.

Lemma check_required_dict keys d errors s :
  ∃ errs, check_required keys (PDict d) errors s = (s, Returns (errors ++ errs)) ∧
          (errs = [] ↔ ∀ k, k ∈ keys → is_Some (d !! k)).
Proof.
  revert errors. induction keys as [ | key keys IH]; intros errors; simpl.
  - exists []. rewrite app_nil_r. split; [done | ]. split; [ | done]. intros _ k Hk.
    by apply elem_of_nil in Hk.
  - run. case_bool_decide as Hkey; simpl.
    + destruct (IH errors) as (errs & Hrun & Hiff). exists errs. split; [done | ].
      rewrite Hiff. split.
      * intros H k [-> | Hk]%elem_of_cons; auto.
      * intros H k Hk. apply H. by right.
    + destruct (IH (errors ++ ["必須キー '" +:+ key +:+ "' が存在しません"]))
        as (errs & Hrun & Hiff).
      eexists (_ :: errs). rewrite Hrun, <- app_assoc. split; [done | ].
      split; [done | ]. intros H. destruct Hkey. apply H. by left.
Qed.

Lemma returns_inj {S A} (s s' : S) (a a' : A) :
  (s, Returns a) = (s', Returns a') → a = a'.
Proof. by intros [= _ ->]. Qed.

Lemma check_coords_length coords ip errors :
  (length errors ≤ length (check_coords coords ip errors))%nat.
Proof.
  revert errors. induction coords as [ | coord coords IH]; intros errors; simpl; [done | ].
  etrans; [ | apply IH].
  repeat case_match; rewrite ?length_app; simpl; lia.
Qed.

Lemma check_coords_mono coords ip errors msg :
  msg ∈ errors → msg ∈ check_coords coords ip errors.
Proof.
  revert errors. induction coords as [ | coord coords IH]; intros errors H; simpl; [done | ].
  apply IH. repeat case_match; rewrite ?elem_of_app; auto.
Qed.

(** Stripping the successive checks of [validate_config] off a list of
    errors that is known to be empty. *)
Ltac peel H :=
  repeat match type of H with
  | length (if negb ?c then _ else _) = 0%nat =>
      let E := fresh "Hc" in
      destruct c eqn:E; cbn [negb] in H;
      [ | rewrite length_app in H; cbn [length] in H; lia]
  end.

Lemma validate_strict_typed d s errors :
  validate_config (PDict d) s = (s, Returns (true, errors)) →
  ∀ key t, (key, t) ∈ type_checks → ∃ v, d !! key = Some v ∧ isinstance v t = true.
Proof.
  unfold validate_config. unfold bind at 1.
  destruct (check_required_dict required_keys d [] s) as (errs & -> & Hiff).
  cbn [app]. case_bool_decide as Hnil; cbn [negb]; [ | unfold ret; intros [=]].
  assert (∀ k i, required_keys !! i = Some k → ∃ v, d !! k = Some v) as Hget.
  { intros k i Hk. apply list_elem_of_lookup_2 in Hk.
    destruct (proj1 Hiff Hnil k Hk) as [v Hv]. eauto. }
  clear Hiff.
  destruct (Hget "app_path" 0%nat eq_refl) as [v1 H1].
  destruct (Hget "icon_position" 1%nat eq_refl) as [v2 H2].
  destruct (Hget "icon_fixed" 2%nat eq_refl) as [v3 H3].
  destruct (Hget "auto_start" 3%nat eq_refl) as [v4 H4].
  destruct (Hget "icon_size" 4%nat eq_refl) as [v5 H5].
  destruct (Hget "version" 5%nat eq_refl) as [v6 H6].
  unfold get, bind, ret. rewrite H1, H2, H3, H4, H5, H6. cbn [default from_option].
  unfold id. subst errs. intros Hlen%returns_inj.
  apply (f_equal fst) in Hlen. cbn [fst] in Hlen.
  apply bool_decide_eq_true in Hlen. peel Hlen.
  assert (isinstance v2 Tdict = true ∧ isinstance v1 Tstr = true) as [Hc4 Hc5].
  { destruct v2; try (rewrite length_app in Hlen; cbn [length] in Hlen; lia).
    split; [done | ].
    match type of Hlen with
    | length (check_coords ?c ?ip ?E) = _ =>
        pose proof (check_coords_length c ip E) as Hle
    end.
    rewrite Hlen in Hle. destruct (isinstance v1 Tstr); [done | ].
    cbn [negb app length] in Hle. lia. }
  intros key t Hin. unfold type_checks in Hin.
  repeat (apply elem_of_cons in Hin as [[= -> ->] | Hin]; [by eauto | ]).
  by apply elem_of_nil in Hin.
Qed.

Lemma not_mistyped_valid d : ¬ mistyped (PDict d) → (_basic_validation (PDict d)).1 = true.
Proof.
  intros H. apply basic_validation_dict. intros key t v Hin Hv.
  destruct (isinstance v t) eqn:Hty; [done | ]. destruct H. simpl. eauto 6.
Qed.

Lemma mistyped_invalid config : mistyped config → (_basic_validation config).1 = false.
Proof.
  destruct config as [ | | | | | d]; try done.
  intros (key & t & v & Hin & Hv & Hty).
  destruct ((_basic_validation (PDict d)).1) eqn:Hb; [ | done].
  rewrite basic_validation_dict in Hb. rewrite (Hb _ _ _ Hin Hv) in Hty. done.
Qed.

(** C8.  [save_config] returns [False] and leaves the disk as it is when
    its argument is not a mapping or when one of the six required keys is
    present with the wrong primitive type; any other mapping, whatever keys
    it lacks, is saved when the configuration file can be written: it is
    neither locked nor read-only. *)
Theorem save_config_type_checks_only :
  (∀ config s, mistyped config → save config s = (s, Returns false)) ∧
  (∀ d s, ¬ mistyped (PDict d) → config_locked s = false → config_read_only s = false →
          ∃ s', save (PDict d) s = (s', Returns true)).
Proof.
  split.
  - intros config s H. by apply save_config_invalid, mistyped_invalid.
  - intros d s H Hl Hw.
    destruct (save_config_valid d s (not_mistyped_valid d H) Hl Hw) as (s1 & _ & _ & _ & ->).
    eauto.
Qed.

(** C2.  For a configuration that [validate_config] accepts, on a
    configuration file that can be written, [save_config] succeeds, writes
    the configuration with a [_metadata] entry attached, and [load_config]
    then returns it without that entry: every other key has the value it
    had, and the result is the input when the input has no [_metadata]
    key. *)
Theorem save_load_round_trip d s errors :
  validate_config (PDict d) s = (s, Returns (true, errors)) →
  config_locked s = false → config_read_only s = false →
  ∃ s' metadata d',
    save (PDict d) s = (s', Returns true) ∧
    config_file s' = Some (File (clock s) (Json (PDict (<["_metadata" := metadata]> d)))) ∧
    load s' = (s', Returns d') ∧
    d' !! "_metadata" = None ∧
    (∀ key, key ≠ "_metadata" → d' !! key = d !! key) ∧
    (d !! "_metadata" = None → d' = d).
Proof.
  intros Hvalid Hl Hw.
  assert ((_basic_validation (PDict d)).1 = true) as Hbasic.
  { apply basic_validation_dict. intros key t v Hin Hv.
    destruct (validate_strict_typed d s errors Hvalid key t Hin) as (v' & Hv' & Hty).
    congruence. }
  destruct (save_config_valid d s Hbasic Hl Hw) as (s1 & (_ & _ & Hl1 & _) & _ & _ & Hsave).
  eexists _, _, (delete "_metadata" d). split_and!; [exact Hsave | done | | | | ].
  - etrans; [eapply (load_config_at_object 999); [done | done | by rewrite <- Hl1 in Hl] | ].
    by rewrite delete_insert_eq.
  - apply lookup_delete_eq.
  - intros key Hk. by apply lookup_delete_ne.
  - apply delete_id.
Qed.

Lemma check_coords_range coords ip errors coord x :
  ip !! coord = Some (PInt x) → x < -32768 ∨ 32767 < x → coord ∈ coords →
  range_error coord ∈ check_coords coords ip errors.
Proof.
  intros Hx Hrange. revert errors.
  induction coords as [ | c coords IH]; intros errors Hin; [by apply elem_of_nil in Hin | ].
  cbn [check_coords]. apply elem_of_cons in Hin as [<- | Hin]; [ | by apply IH].
  apply check_coords_mono. rewrite Hx. cbn [isinstance negb int_value].
  replace ((-32768 <=? x) && (x <=? 32767)) with false by (symmetry; lia).
  cbn [negb]. rewrite elem_of_app. right. by left.
Qed.

Lemma schema_lookup d key t i :
  well_typed d → schema !! i = Some (key, t) →
  ∃ v, d !! key = Some v ∧ isinstance v t = true.
Proof. intros H Hi. apply H. by eapply list_elem_of_lookup_2. Qed.

(** C5.  For a configuration with the six required keys of the right
    primitive types and an [icon_position.x] outside [-32768, 32767],
    [validate_config] returns [False] with the range error of
    [icon_position.x] among its errors, while [save_config] of the same
    object returns [True], where the configuration file can be written. *)
Theorem validate_checks_range_save_does_not d ip x s :
  well_typed d →
  d !! "icon_position" = Some (PDict ip) →
  ip !! "x" = Some (PInt x) →
  x < -32768 ∨ 32767 < x →
  (∃ errors, validate_config (PDict d) s = (s, Returns (false, errors)) ∧
             range_error "x" ∈ errors) ∧
  (config_locked s = false → config_read_only s = false →
   ∃ s', save (PDict d) s = (s', Returns true)).
Proof.
  intros Hty Hip Hx Hrange. split.
  - unfold validate_config. unfold bind at 1.
    destruct (check_required_dict required_keys d [] s) as (errs & -> & Hiff).
    assert (errs = []) as ->.
    { apply Hiff. intros k Hk. unfold required_keys in Hk.
      repeat (apply elem_of_cons in Hk as [-> | Hk];
              [match goal with |- is_Some (d !! ?k) =>
                 let i := fresh in
                 assert (∃ i t, schema !! i = Some (k, t)) as (i & t & Hi);
                 [first [by exists 0%nat, Tstr | by exists 1%nat, Tdict | by exists 2%nat, Tbool
                        | by exists 3%nat, Tbool | by exists 4%nat, Tint | by exists 5%nat, Tstr] | ];
                 destruct (schema_lookup d _ _ _ Hty Hi) as (v & -> & _); eauto
               end | ]).
      by apply elem_of_nil in Hk. }
    clear Hiff. cbn [app]. rewrite bool_decide_eq_true_2 by done. cbn [negb].
    destruct (schema_lookup d "app_path" Tstr 0 Hty eq_refl) as (v1 & H1 & T1).
    destruct (schema_lookup d "icon_fixed" Tbool 2 Hty eq_refl) as (v3 & H3 & T3).
    destruct (schema_lookup d "auto_start" Tbool 3 Hty eq_refl) as (v4 & H4 & T4).
    destruct (schema_lookup d "icon_size" Tint 4 Hty eq_refl) as (v5 & H5 & T5).
    destruct (schema_lookup d "version" Tstr 5 Hty eq_refl) as (v6 & H6 & T6).
    unfold get, bind, ret. rewrite H1, Hip, H3, H4, H5, H6. cbn [default from_option].
    unfold id. rewrite T1, T3, T4, T5, T6. cbn [negb].
    assert (range_error "x" ∈ check_coords ["x"; "y"] ip []) as Hin.
    { apply check_coords_range with x; [done | done | by left]. }
    set (E := check_coords ["x"; "y"] ip []) in *.
    destruct (negb ((16 <=? int_value v5) && (int_value v5 <=? 128))).
    + eexists. split; [ | rewrite elem_of_app; left; exact Hin].
      f_equal. f_equal. f_equal. apply bool_decide_eq_false.
      rewrite length_app. cbn [length]. lia.
    + eexists. split; [ | exact Hin].
      f_equal. f_equal. f_equal. apply bool_decide_eq_false.
      destruct E; [by apply elem_of_nil in Hin | done].
  - intros Hl Hw.
    assert ((_basic_validation (PDict d)).1 = true) as Hbasic.
    { apply basic_validation_dict. intros key t v Hin Hv.
      destruct (Hty key t Hin) as (v' & Hv' & Ht). congruence. }
    destruct (save_config_valid d s Hbasic Hl Hw) as (s1 & _ & _ & _ & ->). eauto.
Qed.

Lemma copy2_to_config_run p f s :
  p ≠ ConfigPath → lookup_file p s = Some f →
  config_locked s = false → config_read_only s = false →
  copy2 p ConfigPath s = (restored p f s, Returns tt).
Proof.
  intros Hp Hf Hl Hw. unfold copy2. rewrite decide_False by done.
  unfold bind, read_file, write_file. rewrite Hf.
  destruct p; [done | | ]; by rewrite Hl, Hw.
Qed.

(** The copy is refused when the configuration file cannot be written. *)
Lemma copy2_to_config_denied p f s :
  p ≠ ConfigPath → lookup_file p s = Some f →
  config_locked s || config_read_only s = true →
  copy2 p ConfigPath s = (s, Raises (PermissionError "Permission denied")).
Proof.
  intros Hp Hf Hl. unfold copy2. rewrite decide_False by done.
  unfold bind, read_file, write_file. rewrite Hf.
  destruct p; [done | | ]; by rewrite Hl.
Qed.

(** What [restore_from_backup] does, by what the path holds. *)
Lemma restore_from_backup_none backup_path s :
  lookup_file backup_path s = None →
  restore_from_backup backup_path s = (s, Returns false).
Proof.
  intros Hf. unfold restore_from_backup, path_exists, try_except, bind, ret.
  rewrite Hf. by rewrite bool_decide_eq_false_2 by (by intros [? ?]).
Qed.

Lemma restore_from_backup_read backup_path f s :
  lookup_file backup_path s = Some f →
  backup_path ≠ ConfigPath ∨ config_locked s = false →
  restore_from_backup backup_path s =
    match data f with
    | Json v =>
        match copy2 backup_path ConfigPath s with
        | (s', Returns _) => (s', Returns true)
        | (s', Raises _) => (s', Returns false)
        end
    | Malformed _ => (s, Returns false)
    | Unloadable why => (s, Raises (load_failure_exn why))
    end.
Proof.
  intros Hf Hread. unfold restore_from_backup, path_exists, try_except, bind, ret.
  rewrite Hf. rewrite bool_decide_eq_true_2 by eauto. cbn [negb].
  assert (read_file backup_path s = (s, Returns f)) as ->.
  { unfold read_file. rewrite Hf. destruct backup_path; [ | done | done].
    destruct Hread as [? | ->]; done. }
  destruct (data f) as [v | raw | why]; cbn [json_load raise]; unfold raise, ret.
  - pose proof (copy2_raises backup_path ConfigPath s) as Hc.
    destruct (copy2 backup_path ConfigPath s) as [s' [[] | e]]; [done | ].
    cbn [snd] in Hc. by rewrite (Hc e eq_refl).
  - done.
  - by destruct why.
Qed.

Lemma restore_from_backup_unreadable f s :
  config_file s = Some f → config_locked s = true →
  restore_from_backup ConfigPath s = (s, Returns false).
Proof.
  intros Hf Hl. unfold restore_from_backup, path_exists, try_except, bind, ret.
  cbn [lookup_file]. rewrite Hf. rewrite bool_decide_eq_true_2 by eauto. cbn [negb].
  unfold read_file. cbn [lookup_file]. by rewrite Hf, Hl.
Qed.

Lemma copy2_same_file p s :
  copy2 p p s = (s, Raises (OSError None "are the same file")).
Proof. unfold copy2. by rewrite decide_True. Qed.




(** *** The order of the listing *)

#[local] Instance tuple_le_trans : Transitive tuple_le.
Proof.
  intros [m1 n1] [m2 n2] [m3 n3]. unfold tuple_le. simpl.
  intros [H1 | [-> H1]] [H2 | [-> H2]]; [left; lia | by left | by left | right].
  split; [done | by etrans].
Qed.

#[local] Instance tuple_le_total : Total tuple_le.
Proof.
  intros [m1 n1] [m2 n2]. unfold tuple_le. simpl.
  destruct (Z.lt_trichotomy m1 m2) as [H | [-> | H]]; [by left; left | | by right; left].
  destruct (total String.le n1 n2); [left | right]; by right.
Qed.

#[local] Instance tuple_le_antisym : AntiSymm (=) tuple_le.
Proof.
  intros [m1 n1] [m2 n2]. unfold tuple_le. simpl.
  intros [H1 | [-> H1]] [H2 | [H H2]]; try lia.
  f_equal. by apply (anti_symm String.le).
Qed.


Lemma sort_reverse_perm l : sort_reverse l ≡ₚ l.
Proof. apply merge_sort_Permutation. Qed.

Lemma sort_sorted l : StronglySorted tuple_le (sort l).
Proof. apply StronglySorted_merge_sort; apply _. Qed.

Lemma sort_perm l : sort l ≡ₚ l.
Proof. apply merge_sort_Permutation. Qed.

(** A pair is in the listing when it is the time and the name of a file of
    the directory that has a backup name. *)
Lemma elem_of_list_backup_files dir m name :
  (m, name) ∈ list_backup_files dir ↔
  is_backup_name name = true ∧ ∃ f, dir !! name = Some f ∧ mtime f = m.
Proof.
  unfold list_backup_files. rewrite list_elem_of_fmap. split.
  - intros ([name' f] & [= -> ->] & Hin). apply list_elem_of_filter in Hin as [Hb Hin].
    apply elem_of_map_to_list in Hin. simpl in *. eauto.
  - intros (Hb & f & Hf & <-). exists (name, f). split; [done | ].
    apply list_elem_of_filter. split; [done | ]. by apply elem_of_map_to_list.
Qed.

Lemma list_backup_files_NoDup dir : NoDup (list_backup_files dir).*2.
Proof.
  unfold list_backup_files. rewrite <- list_fmap_compose.
  eapply (NoDup_fmap_2_strong fst).
  - intros [n1 f1] [n2 f2] [_ H1]%list_elem_of_filter [_ H2]%list_elem_of_filter Heq.
    simpl in Heq. subst n2. apply elem_of_map_to_list in H1, H2. simpl in *. congruence.
  - apply NoDup_filter, NoDup_map_to_list.
Qed.

(** *** Recovery from the backups *)

Lemma restore_backup_malformed name f raw dir s :
  backup_dir s = Some dir → dir !! name = Some f → data f = Malformed raw →
  restore_from_backup (BackupPath name) s = (s, Returns false).
Proof.
  intros Hd Hf Hraw.
  rewrite (restore_from_backup_read _ f); [by rewrite Hraw | | by left].
  cbn [lookup_file]. by rewrite Hd.
Qed.

Lemma restore_backup_unloadable name f why dir s :
  backup_dir s = Some dir → dir !! name = Some f → data f = Unloadable why →
  restore_from_backup (BackupPath name) s = (s, Raises (load_failure_exn why)).
Proof.
  intros Hd Hf Hwhy.
  rewrite (restore_from_backup_read _ f); [by rewrite Hwhy | | by left].
  cbn [lookup_file]. by rewrite Hd.
Qed.

Lemma restore_backup_json name f v dir s :
  backup_dir s = Some dir → dir !! name = Some f → data f = Json v →
  config_locked s = false → config_read_only s = false →
  restore_from_backup (BackupPath name) s = (restored (BackupPath name) f s, Returns true).
Proof.
  intros Hd Hf Hv Hl Hw.
  assert (lookup_file (BackupPath name) s = Some f) as Hlook.
  { cbn [lookup_file]. by rewrite Hd. }
  rewrite (restore_from_backup_read _ f); [ | done | by left].
  rewrite Hv. by rewrite (copy2_to_config_run _ f).
Qed.

Lemma restore_backup_denied name f v dir s :
  backup_dir s = Some dir → dir !! name = Some f → data f = Json v →
  config_locked s || config_read_only s = true →
  restore_from_backup (BackupPath name) s = (s, Returns false).
Proof.
  intros Hd Hf Hv Hl.
  assert (lookup_file (BackupPath name) s = Some f) as Hlook.
  { cbn [lookup_file]. by rewrite Hd. }
  rewrite (restore_from_backup_read _ f); [ | done | by left].
  rewrite Hv. by rewrite (copy2_to_config_denied _ f).
Qed.

(** The files of the listing that do not parse. *)
Definition all_malformed (dir : gmap string file) (l : list (Z * string)) : Prop :=
  ∀ m name, (m, name) ∈ l → ∃ f raw, dir !! name = Some f ∧ data f = Malformed raw.


(** The loop stops at the first file that is not plain malformed JSON: it
    copies it when it parses, and lets the exception through when it cannot
    be loaded. *)
Lemma try_each_spec dir l s :
  backup_dir s = Some dir → config_locked s = false → config_read_only s = false →
  (∀ m name, (m, name) ∈ l → ∃ f, dir !! name = Some f ∧ mtime f = m) →
  (all_malformed dir l ∧ try_each l s = (s, Returns false)) ∨
  (∃ l1 name f l2,
      l = l1 ++ (mtime f, name) :: l2 ∧ all_malformed dir l1 ∧ dir !! name = Some f ∧
      ((∃ v, data f = Json v ∧
             try_each l s = (restored (BackupPath name) f s, Returns true)) ∨
       (∃ why, data f = Unloadable why ∧
               try_each l s = (s, Raises (load_failure_exn why))))).
Proof.
  intros Hd Hl Hw. induction l as [ | [m name] l IH]; intros Hin.
  - left. split; [ | done]. intros m name H. by apply elem_of_nil in H.
  - destruct (Hin m name) as (f & Hf & Hm); [by left | ].
    cbn [try_each]. unfold bind.
    destruct (data f) as [v | raw | why] eqn:Hdata.
    + right. exists [], name, f, l. subst m. split_and!; [done | | done | ].
      * intros m name' H. by apply elem_of_nil in H.
      * left. exists v. by rewrite (restore_backup_json name f v dir s).
    + rewrite (restore_backup_malformed name f raw dir s) by done.
      destruct IH as [[Hall Hrun] | (l1 & n' & f' & l2 & -> & Hall & Hf' & Hrun)].
      * intros m' name' H. apply Hin. by right.
      * left. split; [ | done].
        intros m' name' [[= -> ->] | H]%elem_of_cons; [eauto | exact (Hall _ _ H)].
      * right. exists ((m, name) :: l1), n', f', l2. split_and!; [done | | done | done].
        intros m' name' [[= -> ->] | H]%elem_of_cons; [eauto | exact (Hall _ _ H)].
    + right. exists [], name, f, l. subst m. split_and!; [done | | done | ].
      * intros m name' H. by apply elem_of_nil in H.
      * right. exists why. by rewrite (restore_backup_unloadable name f why dir s).
Qed.

(** With a configuration file that cannot be written, nothing is restored:
    the loop ends with [False], unless a file that cannot be loaded stops
    it. *)
Lemma try_each_denied dir l s :
  backup_dir s = Some dir → config_locked s || config_read_only s = true →
  (∀ m name, (m, name) ∈ l → ∃ f, dir !! name = Some f ∧ mtime f = m) →
  try_each l s = (s, Returns false) ∨
  ∃ name f why, (mtime f, name) ∈ l ∧ dir !! name = Some f ∧ data f = Unloadable why ∧
                try_each l s = (s, Raises (load_failure_exn why)).
Proof.
  intros Hd Hl. induction l as [ | [m name] l IH]; intros Hin; [by left | ].
  destruct (Hin m name) as (f & Hf & Hm); [by left | ].
  cbn [try_each]. unfold bind.
  assert (try_each l s = (s, Returns false) ∨
          ∃ name0 f0 why, (mtime f0, name0) ∈ (m, name) :: l ∧ dir !! name0 = Some f0 ∧
                          data f0 = Unloadable why ∧
                          try_each l s = (s, Raises (load_failure_exn why))) as Hrest.
  { destruct IH as [? | (n0 & f0 & why & ? & ? & ? & ?)]; [ | by left | ].
    - intros m' name' H. apply Hin. by right.
    - right. exists n0, f0, why. split_and!; [by right | done | done | done]. }
  destruct (data f) as [v | raw | why] eqn:Hdata.
  - by rewrite (restore_backup_denied name f v dir s).
  - by rewrite (restore_backup_malformed name f raw dir s).
  - right. exists name, f, why. subst m.
    rewrite (restore_backup_unloadable name f why dir s) by done.
    split_and!; [by left | done | done | done].
Qed.

Lemma load_failure_not_caught why :
  is_OSError (load_failure_exn why) = false ∧
  is_JSONDecodeError (load_failure_exn why) = false.
Proof. by destruct why. Qed.

(** The files of the listing are files of the directory. *)
Lemma backups_of_lookup dir s :
  backup_dir s = Some dir →
  ∀ m name, (m, name) ∈ sort_reverse (backups_of s) → ∃ f, dir !! name = Some f ∧ mtime f = m.
Proof.
  intros Hd m name H. rewrite sort_reverse_perm in H. unfold backups_of in H.
  rewrite Hd in H. cbn [default from_option id] in H.
  apply elem_of_list_backup_files in H as (_ & f & ? & ?). eauto.
Qed.

Lemma sort_reverse_nil : sort_reverse [] = [].
Proof. apply Permutation_nil_r, sort_reverse_perm. Qed.

(** [_try_restore_from_latest_backup] is the loop over the listing, latest
    first. *)
Lemma try_restore_run s :
  _try_restore_from_latest_backup s = try_each (sort_reverse (backups_of s)) s.
Proof.
  unfold _try_restore_from_latest_backup, backup_dir_exists, try_except, bind, ret, backups_of.
  destruct (backup_dir s) as [dir|] eqn:Hd.
  2:{ rewrite bool_decide_eq_false_2 by (by intros [? ?]). cbn [negb default from_option id].
      assert (list_backup_files (∅ : gmap string file) = []) as -> by done.
      by rewrite sort_reverse_nil. }
  pose proof (backups_of_lookup dir s Hd) as Hin. unfold backups_of in Hin.
  repeat first [rewrite Hd | rewrite bool_decide_eq_true_2 by eauto
               | progress cbn [negb default from_option id] | progress cbv beta iota].
  rewrite Hd in Hin. cbn [default from_option id] in Hin.
  remember (list_backup_files dir) as L eqn:HLdef.
  destruct L as [ | x0 l0]; [by rewrite sort_reverse_nil | ].
  cbv beta iota. remember (x0 :: l0) as L eqn:HLeq. clear HLeq HLdef x0 l0.
  destruct (config_locked s || config_read_only s) eqn:Hw.
  - destruct (try_each_denied dir (sort_reverse L) s Hd Hw Hin)
      as [-> | (n & f & why & _ & _ & _ & ->)]; [done | ].
    by rewrite (proj1 (load_failure_not_caught why)).
  - apply orb_false_iff in Hw as [Hl Hw].
    destruct (try_each_spec dir (sort_reverse L) s Hd Hl Hw Hin)
      as [[_ ->] | (l1 & n & f & l2 & _ & _ & _ & [(v & _ & ->) | (why & _ & ->)])];
      [done | done | ].
    by rewrite (proj1 (load_failure_not_caught why)).
Qed.





Lemma default_config_basic : (_basic_validation (PDict get_default_config)).1 = true.
Proof. vm_compute. reflexivity. Qed.

(** The activation of [load_config] on a configuration file that does not
    parse. *)
Lemma load_config_at_malformed depth t raw s :
  config_file s = Some (File t (Malformed raw)) → config_locked s = false →
  load_config_at strftime isoformat (S depth) s =
    (let! backup_restored := _try_restore_from_latest_backup in
     if backup_restored then load_config_at strftime isoformat depth
     else save (PDict get_default_config) ;; ret get_default_config) s.
Proof.
  intros Hf Hl. cbn [load_config_at].
  unfold path_exists, read_file, try_except, bind, ret, raise.
  repeat first [rewrite Hf | rewrite Hl | rewrite bool_decide_eq_true_2 by eauto
               | progress cbv beta iota
               | progress cbn [lookup_file data json_load is_JSONDecodeError negb]].
  reflexivity.
Qed.

(** A configuration file that holds JSON but no object. *)
Lemma load_config_at_not_dict depth f v s :
  config_file s = Some f → data f = Json v → (∀ d, v ≠ PDict d) → config_locked s = false →
  load_config_at strftime isoformat (S depth) s = (s, Raises AttributeError).
Proof.
  intros Hf Hv Hnd Hl. destruct f as [t c]. cbn [data] in Hv. subst c.
  cbn [load_config_at].
  unfold path_exists, read_file, try_except, bind, ret, raise.
  repeat first [rewrite Hf | rewrite Hl | rewrite bool_decide_eq_true_2 by eauto
               | progress cbv beta iota
               | progress cbn [lookup_file data json_load is_JSONDecodeError is_OSError negb]].
  destruct v as [ | | | | | d]; try reflexivity. by destruct (Hnd d).
Qed.

(** A configuration file that cannot be loaded: the exception leaves
    [load_config]. *)
Lemma load_config_at_unloadable depth f why s :
  config_file s = Some f → data f = Unloadable why → config_locked s = false →
  load_config_at strftime isoformat (S depth) s = (s, Raises (load_failure_exn why)).
Proof.
  intros Hf Hv Hl. destruct f as [t c]. cbn [data] in Hv. subst c.
  cbn [load_config_at].
  unfold path_exists, read_file, try_except, bind, ret, raise.
  repeat first [rewrite Hf | rewrite Hl | rewrite bool_decide_eq_true_2 by eauto
               | progress cbv beta iota
               | progress cbn [lookup_file data json_load is_JSONDecodeError is_OSError negb]].
  by destruct why.
Qed.


(** The same for a JSON list. *)
Lemma load_config_at_not_object depth t l s :
  config_file s = Some (File t (Json (PList l))) → config_locked s = false →
  load_config_at strftime isoformat (S depth) s = (s, Raises AttributeError).
Proof.
  intros Hf Hl. by apply load_config_at_not_dict with (File t (Json (PList l))) (PList l).
Qed.

(** C6, where the code fails it.  [load_config] raises [AttributeError] when
    the configuration file holds a JSON list, and [validate_config] raises
    [TypeError] on [None]: an exception crosses the boundary of a public
    method. *)
Theorem public_methods_can_raise :
  (∀ s t l, config_file s = Some (File t (Json (PList l))) → config_locked s = false →
            load s = (s, Raises AttributeError)) ∧
  (∀ s, validate_config PNone s = (s, Raises TypeError)).
Proof.
  split; [ | done].
  intros s t l Hf Hl. by apply (load_config_at_not_object 999 t l).
Qed.

(** *** Rotation of the backups *)

(** The directory that [_cleanup_old_backups] leaves. *)
Definition rotate (max_backups : nat) (dir : gmap string file) : gmap string file :=
  if bool_decide (max_backups < length (list_backup_files dir))%nat
  then foldr delete dir (slice_until_neg max_backups (sort (list_backup_files dir))).*2
  else dir.

Lemma set_backup_dir_id dir s : backup_dir s = Some dir → set_backup_dir dir s = s.
Proof. destruct s. simpl. by intros ->. Qed.

Lemma foldr_delete_delete (dir : gmap string file) name names :
  foldr delete (delete name dir) names = delete name (foldr delete dir names).
Proof.
  apply map_eq. intros k. apply option_eq. intros f.
  rewrite lookup_foldr_delete_Some, !lookup_delete_Some, lookup_foldr_delete_Some.
  tauto.
Qed.

Lemma for_each_remove_run (l : list (Z * string)) dir s :
  backup_dir s = Some dir → backup_dir_ro s = false → backup_read_only s = ∅ →
  NoDup l.*2 → (∀ x, x ∈ l → is_Some (dir !! x.2)) →
  for_each l (λ '(_, backup_path), remove backup_path) s =
    (set_backup_dir (foldr delete dir l.*2) s, Returns tt).
Proof.
  revert dir s. induction l as [ | [m name] l IH]; intros dir s Hd Hro Hnone Hnd Hin.
  - cbn. by rewrite set_backup_dir_id.
  - cbn [for_each]. unfold bind.
    destruct (Hin (m, name)) as [f Hf]; [by left | ]. cbn [snd] in Hf.
    assert (remove name s = (set_backup_dir (delete name dir) s, Returns tt)) as ->.
    { unfold remove. rewrite Hd, Hf, Hro, Hnone.
      by rewrite bool_decide_eq_false_2 by apply not_elem_of_empty. }
    cbn [fmap list_fmap snd] in Hnd. apply NoDup_cons in Hnd as [Hname Hnd].
    rewrite (IH (delete name dir)); [ | done | done | done | done | ].
    + cbn [fmap list_fmap snd foldr]. rewrite foldr_delete_delete. by destruct s.
    + intros x Hx. rewrite lookup_delete_ne; [apply Hin; by right | ].
      intros ->. apply Hname. by apply list_elem_of_fmap_2.
Qed.

Lemma cleanup_run n dir s :
  backup_dir s = Some dir → backup_dir_ro s = false → backup_read_only s = ∅ →
  _cleanup_old_backups n s = (set_backup_dir (rotate n dir) s, Returns tt).
Proof.
  intros Hd Hro Hnone. unfold _cleanup_old_backups, backup_dir_exists, try_except, bind, ret, rotate.
  repeat first [rewrite Hd | rewrite bool_decide_eq_true_2 by eauto
               | progress cbn [negb default from_option id] | progress cbv beta iota].
  case_bool_decide as Hlen; [ | by rewrite set_backup_dir_id].
  rewrite (for_each_remove_run _ dir); [done | done | done | done | | ].
  - destruct n; [constructor | ]. cbn [slice_until_neg]. rewrite fmap_take.
    eapply sublist_NoDup; [ | apply sublist_take].
    rewrite (sort_perm (list_backup_files dir)).
    apply list_backup_files_NoDup.
  - intros [m name] Hx. cbn [snd].
    assert ((m, name) ∈ list_backup_files dir) as Hin.
    { rewrite <- (sort_perm (list_backup_files dir)).
      destruct n; [by apply elem_of_nil in Hx | ].
      cbn [slice_until_neg] in Hx. by eapply (subseteq_take _ _ _ Hx). }
    apply elem_of_list_backup_files in Hin as (_ & f & -> & _). eauto.
Qed.

Lemma list_backup_files_NoDup_pairs dir : NoDup (list_backup_files dir).
Proof. eapply NoDup_fmap_1, list_backup_files_NoDup. Qed.

(** What is left after the cleanup: the last files of the sorted listing. *)
Lemma list_backup_files_rotate n dir :
  (0 < n)%nat →
  list_backup_files (rotate n dir) ≡ₚ last_n n (sort (list_backup_files dir)).
Proof.
  intros Hn. unfold rotate, last_n.
  pose proof (sort_perm (list_backup_files dir)) as Hperm.
  pose proof (Permutation_length Hperm) as Hlen.
  case_bool_decide as Hmore.
  2:{ replace (length (sort (list_backup_files dir)) - n)%nat with 0%nat by lia.
      by rewrite drop_0. }
  destruct n as [ | n']; [lia | ]. cbn [slice_until_neg].
  set (sorted := sort (list_backup_files dir)) in *.
  set (k := (length sorted - S n')%nat).
  assert (NoDup ((take k sorted).*2 ++ (drop k sorted).*2)) as Hnd.
  { rewrite <- fmap_app, take_drop. rewrite Hperm.
    apply list_backup_files_NoDup. }
  apply NoDup_app in Hnd as (_ & Hdisj & _).
  apply NoDup_Permutation.
  - apply list_backup_files_NoDup_pairs.
  - eapply sublist_NoDup; [ | apply sublist_drop]. rewrite Hperm.
    apply list_backup_files_NoDup_pairs.
  - intros [m x]. rewrite elem_of_list_backup_files. split.
    + intros (Hx & f & Hf & Hm). apply lookup_foldr_delete_Some in Hf as [Hnot Hf].
      assert ((m, x) ∈ take k sorted ++ drop k sorted) as Hin.
      { rewrite take_drop. rewrite Hperm. apply elem_of_list_backup_files. eauto. }
      apply elem_of_app in Hin as [Hin | Hin]; [ | done].
      destruct Hnot. by apply (list_elem_of_fmap_2 snd) in Hin.
    + intros Hin.
      assert ((m, x) ∈ list_backup_files dir) as Hin'.
      { rewrite <- Hperm. by eapply subseteq_drop. }
      apply elem_of_list_backup_files in Hin' as (Hx & f & Hf & Hm).
      split; [done | ]. exists f. split; [ | done].
      apply lookup_foldr_delete_Some. split; [ | done].
      intros Hbad. apply (Hdisj x Hbad). by apply (list_elem_of_fmap_2 snd) in Hin.
Qed.

Lemma rotate_subseteq n dir name f : rotate n dir !! name = Some f → dir !! name = Some f.
Proof.
  unfold rotate. case_bool_decide; [ | done]. rewrite lookup_foldr_delete_Some. tauto.
Qed.

Lemma length_last_n {A} n (l : list A) : (length (last_n n l) ≤ n)%nat.
Proof. unfold last_n. rewrite length_drop. lia. Qed.

(** The copy of a configuration file that is not read-only into a backup
    directory that has no read-only file. *)
Lemma copy2_to_backup_run name f dir s :
  config_file s = Some f → config_locked s = false → config_read_only s = false →
  backup_dir s = Some dir → backup_dir_ro s = false → backup_read_only s = ∅ →
  copy2 ConfigPath (BackupPath name) s = (set_backup_dir (<[name := f]> dir) s, Returns tt).
Proof.
  intros Hf Hl Hw Hd Hro Hnone. unfold copy2. rewrite decide_False by done.
  unfold bind, read_file, write_file. cbn [lookup_file]. rewrite Hf, Hl, Hd, Hro, Hnone.
  rewrite bool_decide_eq_false_2 by apply not_elem_of_empty. cbn [orb].
  f_equal. destruct s as [c cf cl cr bd bro bre el]. cbn in *. subst.
  unfold set_backup_dir. cbn. f_equal.
  apply subseteq_empty_difference_L, empty_subseteq.
Qed.

(** [backup_config] on a configuration file that can be read and a backup
    directory that can be written: the copy, then the rotation. *)
Lemma backup_run f dir s :
  config_file s = Some f → config_locked s = false → config_read_only s = false →
  backup_dir s = Some dir → backup_dir_ro s = false → backup_read_only s = ∅ →
  backup s =
    (set_backup_dir (rotate 5 (<[backup_filename (strftime (clock s)) := f]> dir)) s,
     Returns (Some (BackupPath (backup_filename (strftime (clock s)))))).
Proof.
  intros Hf Hl Hw Hd Hro Hnone.
  unfold backup_config, path_exists, now, try_except, bind, ret.
  cbn [lookup_file]. rewrite Hf.
  rewrite bool_decide_eq_true_2 by eauto. cbv beta iota. cbn [negb].
  rewrite (copy2_to_backup_run _ f dir) by done.
  rewrite (cleanup_run 5 (<[backup_filename (strftime (clock s)) := f]> dir));
    [ | done | done | done].
  by destruct s.
Qed.

(** When the copy cannot be made, it does nothing and returns [None]. *)
Lemma backup_cases s :
  (∃ f dir,
      config_file s = Some f ∧ config_locked s = false ∧
      backup_dir s = Some dir ∧ backup_dir_ro s = false ∧
      backup_filename (strftime (clock s)) ∉ backup_read_only s) ∨
  backup s = (s, Returns None).
Proof.
  destruct (config_file s) as [f|] eqn:Hf.
  2:{ right. unfold backup_config, path_exists, try_except, bind, ret.
      cbn [lookup_file]. rewrite Hf.
      by rewrite bool_decide_eq_false_2 by (by intros [? ?]). }
  destruct (config_locked s) eqn:Hl; [right | ].
  { unfold backup_config, path_exists, now, try_except, bind, ret.
    cbn [lookup_file]. rewrite Hf. rewrite bool_decide_eq_true_2 by eauto.
    cbv beta iota. cbn [negb]. unfold copy2. rewrite decide_False by done.
    unfold bind, read_file. cbn [lookup_file]. by rewrite Hf, Hl. }
  destruct (backup_dir s) as [dir|] eqn:Hd; [ | right].
  2:{ unfold backup_config, path_exists, now, try_except, bind, ret.
      cbn [lookup_file]. rewrite Hf. rewrite bool_decide_eq_true_2 by eauto.
      cbv beta iota. cbn [negb]. unfold copy2. rewrite decide_False by done.
      unfold bind, read_file, write_file. cbn [lookup_file]. by rewrite Hf, Hl, Hd. }
  destruct (backup_dir_ro s ||
            bool_decide (backup_filename (strftime (clock s)) ∈ backup_read_only s)) eqn:Hro;
    [right | left].
  - unfold backup_config, path_exists, now, try_except, bind, ret.
    cbn [lookup_file]. rewrite Hf. rewrite bool_decide_eq_true_2 by eauto.
    cbv beta iota. cbn [negb]. unfold copy2. rewrite decide_False by done.
    unfold bind, read_file, write_file. cbn [lookup_file]. by rewrite Hf, Hl, Hd, Hro.
  - apply orb_false_iff in Hro as [Hro Hname%bool_decide_eq_false]. eauto 10.
Qed.


Lemma prefix_app a b : String.prefix a (a +:+ b) = true.
Proof.
  induction a as [ | c a IH]; [by destruct b | ].
  change (String c a +:+ b) with (String c (a +:+ b)). cbn [String.prefix].
  destruct (ascii_dec c c); [exact IH | done].
Qed.

Lemma rev_app_app a b acc :
  String.rev_app (a +:+ b) acc = String.rev_app b (String.rev_app a acc).
Proof.
  revert acc. induction a as [ | c a IH]; intros acc; [done | ].
  change (String c a +:+ b) with (String c (a +:+ b)). cbn [String.rev_app]. apply IH.
Qed.

Lemma is_backup_name_backup_filename timestamp :
  is_backup_name (backup_filename timestamp) = true.
Proof.
  unfold is_backup_name, backup_filename. apply andb_true_intro. split.
  - apply prefix_app.
  - unfold endswith, String.rev. rewrite !rev_app_app.
    exact (prefix_app "nosj." _).
Qed.

Lemma list_backup_files_insert name f dir :
  is_backup_name name = true →
  list_backup_files (<[name := f]> dir) ≡ₚ
    (mtime f, name) :: filter (λ x, x.2 ≠ name) (list_backup_files dir).
Proof.
  intros Hname. apply NoDup_Permutation.
  - apply list_backup_files_NoDup_pairs.
  - apply NoDup_cons. split.
    + intros [H _]%list_elem_of_filter. by apply H.
    + apply NoDup_filter, list_backup_files_NoDup_pairs.
  - intros [m x]. rewrite elem_of_cons, list_elem_of_filter, !elem_of_list_backup_files.
    cbn [snd]. split.
    + intros (Hx & g & Hg & Hm). destruct (decide (x = name)) as [-> | Hne].
      * rewrite lookup_insert_eq in Hg. left. congruence.
      * rewrite lookup_insert_ne in Hg by done. right. eauto.
    + intros [[= -> ->] | (Hne & Hx & g & Hg & Hm)].
      * split; [done | ]. exists f. by rewrite lookup_insert_eq.
      * split; [done | ]. exists g. by rewrite lookup_insert_ne.
Qed.

Lemma sort_app_sorted olds news l :
  l ≡ₚ olds ++ news → StronglySorted tuple_le news →
  (∀ o n, o ∈ olds → n ∈ news → tuple_le o n) →
  sort l = sort olds ++ news.
Proof.
  intros Hperm Hnews Hle.
  assert (StronglySorted tuple_le (sort olds ++ news)) as Hsorted.
  { apply StronglySorted_app_2; [ | apply sort_sorted | done].
    intros o n Ho Hn. apply Hle; [ | done]. by rewrite <- (sort_perm olds). }
  refine (StronglySorted_unique tuple_le _ _ (sort_sorted l) Hsorted _).
  by rewrite !sort_perm.
Qed.

Lemma last_n_app {A} n (l1 l2 : list A) :
  last_n n (l1 ++ l2) = drop (length l1 + length l2 - n) l1 ++ last_n n l2.
Proof.
  unfold last_n. rewrite length_app, drop_app. do 2 f_equal. lia.
Qed.

Lemma last_n_snoc {A} n (l : list A) x :
  (0 < n)%nat → last_n n (last_n n l ++ [x]) = last_n n (l ++ [x]).
Proof.
  intros Hn. rewrite !last_n_app. f_equal. unfold last_n.
  rewrite drop_drop, length_drop. f_equal. cbn [length]. lia.
Qed.

Lemma elem_of_last_n {A} n (l : list A) x : x ∈ last_n n l → x ∈ l.
Proof. unfold last_n. apply subseteq_drop. Qed.

Lemma filter_other_name name (l : list (Z * string)) :
  name ∉ l.*2 → filter (λ x, x.2 ≠ name) l = l.
Proof.
  induction l as [ | x l IH]; [done | ]. cbn [fmap list_fmap].
  rewrite not_elem_of_cons. intros [Hx Hl].
  rewrite filter_cons_True by done. by rewrite IH.
Qed.

(** One more save, once the configuration file is one of ours. *)
Lemma save_rotation_step t0 s created tcur dt d :
  rotation_inv t0 s created tcur →
  0 < dt → ¬ mistyped (PDict d) →
  backup_filename (strftime (tcur + dt)) ∉ (last_n 5 created).*2 →
  ∃ s', save (PDict d) (tick dt s) = (s', Returns true) ∧
        rotation_inv t0 s' (created ++ [(tcur, backup_filename (strftime (tcur + dt)))])
          (tcur + dt).
Proof.
  intros (dir & c0 & olds & Hd & Hro & Hl & Hf & Hc & Ht0 & Hperm & Holds & Hfull & Hsorted
          & Hbounds & Hw & Hnone) Hdt Hvalid Hfresh.
  set (name := backup_filename (strftime (tcur + dt))) in *.
  set (st := tick dt s).
  assert (clock st = tcur + dt) as Hclock by (cbn; by rewrite Hc).
  destruct (save_config_valid d st (not_mistyped_valid d Hvalid) Hl Hw)
    as (s1 & _ & _ & Hs1 & Hsave).
  rewrite (backup_run (File tcur c0) dir st Hf Hl Hw Hd Hro Hnone) in Hs1.
  rewrite Hclock in Hs1. fold name in Hs1. cbn [fst] in Hs1.
  specialize (Hs1 (ltac:(by eexists) : is_Some (config_file st))). subst s1.
  eexists. split; [exact Hsave | ].
  set (dir' := <[name := File tcur c0]> dir).
  set (olds' := filter (λ x : Z * string, x.2 ≠ name) olds).
  set (news' := last_n 5 created ++ [(tcur, name)]).
  assert (list_backup_files dir' ≡ₚ olds' ++ news') as Hperm'.
  { unfold dir'. rewrite list_backup_files_insert by apply is_backup_name_backup_filename.
    rewrite Hperm, filter_app, (filter_other_name name (last_n 5 created)) by done.
    cbn [mtime]. unfold olds', news'. by rewrite (Permutation_cons_append _ (tcur, name)), app_assoc. }
  assert (∀ o, o ∈ olds' → o.1 < t0) as Holds'.
  { intros o [_ Ho]%list_elem_of_filter. by apply Holds. }
  assert (StronglySorted tuple_le (created ++ [(tcur, name)])) as Hsorted'.
  { apply StronglySorted_app_2; [ | done | repeat constructor].
    intros x y Hx ->%list_elem_of_singleton. left. cbn. by apply Hbounds. }
  assert (StronglySorted tuple_le news') as Hnews.
  { unfold news'. apply StronglySorted_app in Hsorted' as (Hle & _ & Hone).
    apply StronglySorted_app_2; [ | | done].
    - intros x y Hx Hy. apply Hle; [by eapply elem_of_last_n | done].
    - unfold last_n. rewrite <- (take_drop (length created - 5) created) in Hsorted.
      by apply StronglySorted_app_1_r in Hsorted. }
  assert (∀ x, x ∈ news' → t0 ≤ x.1) as Hnew_bounds.
  { intros x [Hx%elem_of_last_n | ->%list_elem_of_singleton]%elem_of_app;
      [by apply Hbounds | done]. }
  assert (sort (list_backup_files dir') = sort olds' ++ news') as Hsort.
  { apply sort_app_sorted; [done | done | ].
    intros o n Ho Hn. left. specialize (Holds' o Ho). specialize (Hnew_bounds n Hn). lia. }
  pose proof (list_backup_files_rotate 5 dir' ltac:(lia)) as Hrot.
  rewrite Hsort, last_n_app in Hrot.
  unfold news' in Hrot at 2. rewrite (last_n_snoc 5) in Hrot by lia.
  exists (rotate 5 dir'), (Json (PDict (<["_metadata" :=
            metadata (set_backup_dir (rotate 5 dir') st)]> d))),
         (drop (length (sort olds') + length news' - 5) (sort olds')).
  rewrite Hclock in *.
  split_and!; [done | done | done | done | done | lia | exact Hrot | | | done | | done | done].
  - intros o Ho%subseteq_drop. apply Holds'. by rewrite <- (sort_perm olds').
  - rewrite length_app. cbn [length]. intros Hlen. apply drop_ge.
    unfold news'. rewrite length_app. unfold last_n. rewrite length_drop. cbn [length]. lia.
  - intros x [Hx | ->%list_elem_of_singleton]%elem_of_app.
    + specialize (Hbounds x Hx). lia.
    + cbn. lia.
Qed.

(** The first of a series of saves, on files that are not from the future. *)
Lemma save_rotation_first s dir dt d :
  config_locked s = false → config_read_only s = false →
  backup_dir s = Some dir → backup_dir_ro s = false → backup_read_only s = ∅ →
  (∀ f, config_file s = Some f → mtime f ≤ clock s) →
  (∀ x, x ∈ list_backup_files dir → x.1 ≤ clock s) →
  0 < dt → ¬ mistyped (PDict d) →
  ∃ s', save (PDict d) (tick dt s) = (s', Returns true) ∧
        rotation_inv (clock s + dt) s' [] (clock s + dt).
Proof.
  intros Hl Hw Hd Hro Hnoro Hfile Hback Hdt Hvalid.
  set (st := tick dt s).
  destruct (save_config_valid d st (not_mistyped_valid d Hvalid) Hl Hw)
    as (s1 & _ & Hnone & Hsome & Hsave).
  eexists. split; [exact Hsave | ].
  destruct (config_file s) as [f|] eqn:Hf.
  - rewrite (backup_run f dir st Hf Hl Hw Hd Hro Hnoro) in Hsome. cbn [fst] in Hsome.
    specialize (Hsome (ltac:(by eexists) : is_Some (config_file st))). subst s1.
    set (dir' := <[backup_filename (strftime (clock st)) := f]> dir).
    exists (rotate 5 dir'), (Json (PDict (<["_metadata" :=
              metadata (set_backup_dir (rotate 5 dir') st)]> d))),
           (last_n 5 (sort (list_backup_files dir'))).
    split_and!; [done | done | done | done | done | lia | | | | constructor | | done | done].
    + unfold last_n at 2. cbn [length drop]. rewrite app_nil_r.
      apply list_backup_files_rotate. lia.
    + intros o Ho%elem_of_last_n. rewrite sort_perm in Ho. unfold dir' in Ho.
      rewrite list_backup_files_insert in Ho by apply is_backup_name_backup_filename.
      apply elem_of_cons in Ho as [-> | [_ Ho]%list_elem_of_filter].
      * cbn. specialize (Hfile f eq_refl). lia.
      * specialize (Hback o Ho). lia.
    + cbn [length]. lia.
    + intros x Hx. by apply elem_of_nil in Hx.
  - rewrite (Hnone Hf) in *.
    exists dir, (Json (PDict (<["_metadata" := metadata st]> d))), (list_backup_files dir).
    split_and!; [done | done | done | done | done | lia | | | | constructor | | done | done].
    + unfold last_n. cbn [length drop]. by rewrite app_nil_r.
    + intros o Ho. specialize (Hback o Ho). lia.
    + cbn [length]. lia.
    + intros x Hx. by apply elem_of_nil in Hx.
Qed.

(** The saves that follow. *)
Lemma saves_rotation t0 rest : ∀ s created tcur,
  rotation_inv t0 s created tcur →
  (∀ dt config, (dt, config) ∈ rest → 0 < dt ∧ ∃ d, config = PDict d ∧ ¬ mistyped config) →
  NoDup (created ++ backups_made strftime tcur rest.*1).*2 →
  ∃ s' tfin,
    saves strftime isoformat rest s = (s', replicate (length rest) (Returns true)) ∧
    rotation_inv t0 s' (created ++ backups_made strftime tcur rest.*1) tfin.
Proof.
  induction rest as [ | [dt config] rest IH]; intros s created tcur Hinv Hsteps Hnd.
  - exists s, tcur. cbn. by rewrite app_nil_r.
  - destruct (Hsteps dt config) as (Hdt & d & -> & Hvalid); [by left | ].
    cbn [fmap list_fmap fst backups_made] in *.
    set (name := backup_filename (strftime (tcur + dt))) in *.
    destruct (save_rotation_step t0 s created tcur dt d Hinv Hdt Hvalid) as (s1 & Hsave & Hinv1).
    { fold name. intros Hin. rewrite fmap_app in Hnd. apply NoDup_app in Hnd as (_ & Hdisj & _).
      apply (Hdisj name).
      - apply list_elem_of_fmap in Hin as (x & -> & Hx%elem_of_last_n).
        by apply list_elem_of_fmap_2.
      - cbn. by left. }
    fold name in Hinv1.
    destruct (IH s1 (created ++ [(tcur, name)]) (tcur + dt) Hinv1) as (s' & tfin & Hrun & Hinv').
    { intros dt' c' Hin. apply Hsteps. by right. }
    { by rewrite <- app_assoc. }
    exists s', tfin. cbn [saves length replicate]. rewrite Hsave, Hrun.
    split; [done | ]. by rewrite <- app_assoc in Hinv'.
Qed.

Lemma backups_made_length t dts : length (backups_made strftime t dts) = length dts.
Proof. revert t. induction dts as [ | dt dts IH]; intros t; cbn; [done | by rewrite IH]. Qed.

Ltac dump_tail Hdump :=
  match goal with
  | |- context [json_dump ?v ConfigPath ?s1] =>
      let H := fresh in
      pose proof (Hdump s1 v) as H;
      destruct (json_dump v ConfigPath s1) as [? [[] | ?e]];
      cbv beta iota; cbn [fst] in *; [done | ];
      destruct (is_OSError e); cbv beta iota; cbn [fst]; done
  end.

(** What [save_config] does to the backup directory: nothing, or what the
    backup it makes does. *)
Lemma save_backup_dir config s :
  config_read_only s = false → backup_read_only s = ∅ →
  backup_dir (save config s).1 = backup_dir s ∨
  ∃ f dir, config_file s = Some f ∧ backup_dir s = Some dir ∧
           backup s = (set_backup_dir
                         (rotate 5 (<[backup_filename (strftime (clock s)) := f]> dir)) s,
                       Returns (Some (BackupPath (backup_filename (strftime (clock s)))))) ∧
           backup_dir (save config s).1 =
             Some (rotate 5 (<[backup_filename (strftime (clock s)) := f]> dir)).
Proof.
  intros Hw Hnoro.
  destruct ((_basic_validation config).1) eqn:Hvalid.
  2:{ left. by rewrite save_config_invalid. }
  destruct config as [ | | | | | d]; try done.
  assert (∀ s1 v, backup_dir (json_dump v ConfigPath s1).1 = backup_dir s1) as Hdump.
  { intros s1 v. unfold json_dump, write_file.
    by destruct (config_locked s1 || config_read_only s1). }
  unfold save_config. destruct (_basic_validation (PDict d)) as [is_valid errors].
  cbn [fst] in Hvalid. subst is_valid. cbn [negb].
  unfold try_except, bind, path_exists, now, ret.
  case_bool_decide as Hex.
  - destruct (backup_cases s) as [(f & dir & Hf & Hl & Hd & Hro & _) | Hnone].
    + right. exists f, dir. pose proof (backup_run f dir s Hf Hl Hw Hd Hro Hnoro) as Hrun.
      split_and!; [done | done | done | ].
      rewrite Hrun. cbv beta iota. rewrite get_backup_count_run. cbv beta iota.
      dump_tail Hdump.
    + left. rewrite Hnone. cbv beta iota. rewrite get_backup_count_run. cbv beta iota.
      dump_tail Hdump.
  - left. cbv beta iota. rewrite get_backup_count_run. cbv beta iota.
    dump_tail Hdump.
Qed.

(** After a backup that succeeds: at most five backup files, the greatest of
    those that were there after the copy. *)
Lemma backup_success s s' p :
  config_read_only s = false → backup_read_only s = ∅ →
  backup s = (s', Returns (Some p)) →
  ∃ f dir,
    config_file s = Some f ∧ backup_dir s = Some dir ∧
    (length (backups_of s') ≤ 5)%nat ∧
    (∀ x, x ∈ backups_of s' →
          x ∈ list_backup_files (<[backup_filename (strftime (clock s)) := f]> dir)) ∧
    (∀ x y, x ∈ list_backup_files (<[backup_filename (strftime (clock s)) := f]> dir) →
            x ∉ backups_of s' → y ∈ backups_of s' → tuple_le x y).
Proof.
  intros Hw Hnoro Hrun.
  destruct (backup_cases s) as [(f & dir & Hf & Hl & Hd & Hro & _) | Hnone]; [ | congruence].
  rewrite (backup_run f dir s Hf Hl Hw Hd Hro Hnoro) in Hrun. injection Hrun as <- _.
  exists f, dir. unfold backups_of. cbn [backup_dir set_backup_dir default from_option id].
  set (copied := list_backup_files (<[backup_filename (strftime (clock s)) := f]> dir)).
  pose proof (list_backup_files_rotate 5 (<[backup_filename (strftime (clock s)) := f]> dir)
                ltac:(lia)) as Hrot.
  fold copied in Hrot.
  split_and!; [done | done | | | ].
  - rewrite Hrot. apply length_last_n.
  - intros x Hx. rewrite Hrot in Hx. apply elem_of_last_n in Hx. by rewrite sort_perm in Hx.
  - intros x y Hx Hnot Hy. rewrite Hrot in Hnot, Hy. unfold last_n in *.
    pose proof (sort_sorted copied) as Hsorted.
    rewrite <- (take_drop (length (sort copied) - 5) (sort copied)) in Hsorted.
    eapply StronglySorted_app_1_elem_of; [exact Hsorted | | exact Hy].
    rewrite <- (sort_perm copied), <- (take_drop (length (sort copied) - 5) (sort copied)) in Hx.
    apply elem_of_app in Hx as [Hx | Hx]; done.
Qed.

(** A save keeps the number of backup files within the limit. *)
Lemma save_keeps_limit config s :
  config_read_only s = false → backup_read_only s = ∅ →
  (length (backups_of s) ≤ 5)%nat → (length (backups_of (save config s).1) ≤ 5)%nat.
Proof.
  intros Hw Hnoro Hlen. unfold backups_of in *.
  destruct (save_backup_dir config s Hw Hnoro) as [-> | (f & dir & Hf & Hd & Hrun & ->)];
    [done | ].
  cbn [default from_option id].
  rewrite (list_backup_files_rotate 5) by lia. apply length_last_n.
Qed.

(** C7, as the code has it.  Where the configuration file is not read-only
    and no file of the backup directory is, so that the cleanup can remove
    what it wants to remove: after a [backup_config] that succeeds at most
    five backup files remain, and they are the greatest, by modification
    time and then name, of those present after the copy; [save_config]
    keeps the number of backup files at five or less when it was so before;
    and after six or more saves made at increasing clock readings whose
    backup names differ, on files that are not from the future, exactly
    five backup files remain: those made by the last five saves. *)
Theorem backup_rotation :
  (∀ s s' p,
     config_read_only s = false → backup_read_only s = ∅ →
     backup s = (s', Returns (Some p)) →
     ∃ f dir,
       config_file s = Some f ∧ backup_dir s = Some dir ∧
       (length (backups_of s') ≤ 5)%nat ∧
       (∀ x, x ∈ backups_of s' →
             x ∈ list_backup_files (<[backup_filename (strftime (clock s)) := f]> dir)) ∧
       (∀ x y, x ∈ list_backup_files (<[backup_filename (strftime (clock s)) := f]> dir) →
               x ∉ backups_of s' → y ∈ backups_of s' → tuple_le x y)) ∧
  (∀ s config,
     config_read_only s = false → backup_read_only s = ∅ →
     (length (backups_of s) ≤ 5)%nat → (length (backups_of (save config s).1) ≤ 5)%nat) ∧
  (∀ s dir dt d rest,
     config_locked s = false → config_read_only s = false →
     backup_dir s = Some dir → backup_dir_ro s = false → backup_read_only s = ∅ →
     (∀ f, config_file s = Some f → mtime f ≤ clock s) →
     (∀ x, x ∈ backups_of s → x.1 ≤ clock s) →
     0 < dt → ¬ mistyped (PDict d) →
     (∀ dt' config, (dt', config) ∈ rest → 0 < dt' ∧ ∃ d', config = PDict d' ∧ ¬ mistyped config) →
     (5 ≤ length rest)%nat →
     NoDup (backups_made strftime (clock s + dt) rest.*1).*2 →
     ∃ s',
       saves strftime isoformat ((dt, PDict d) :: rest) s =
         (s', replicate (S (length rest)) (Returns true)) ∧
       backups_of s' ≡ₚ last_n 5 (backups_made strftime (clock s + dt) rest.*1) ∧
       length (backups_of s') = 5%nat).
Proof.
  split_and!.
  - apply backup_success.
  - intros s config. apply save_keeps_limit.
  - intros s dir dt d rest Hl Hw Hd Hro Hnoro Hfile Hback Hdt Hvalid Hrest Hlen Hnd.
    unfold backups_of in Hback. rewrite Hd in Hback. cbn [default from_option id] in Hback.
    destruct (save_rotation_first s dir dt d Hl Hw Hd Hro Hnoro Hfile Hback Hdt Hvalid)
      as (s1 & Hsave & Hinv).
    destruct (saves_rotation (clock s + dt) rest s1 [] (clock s + dt) Hinv Hrest Hnd)
      as (s' & tfin & Hrun & Hinv').
    cbn [app] in Hinv'.
    destruct Hinv' as (dir' & c0 & olds & Hd' & _ & _ & _ & _ & _ & Hperm & _ & Hfull & _).
    rewrite Hfull in Hperm by (rewrite backups_made_length, length_fmap; lia).
    cbn [app] in Hperm.
    exists s'. cbn [saves]. rewrite Hsave, Hrun. unfold backups_of. rewrite Hd'.
    cbn [default from_option id]. split_and!; [done | done | ].
    rewrite Hperm. unfold last_n. rewrite length_drop, backups_made_length, length_fmap. lia.
Qed.

(** ** Further properties of the configuration store *)

(** *** Saving *)

(** An accepted configuration, on a configuration file that cannot be
    written: the backup is made all the same when the file can be read, and
    nothing is saved. *)
Lemma save_config_denied d s :
  (_basic_validation (PDict d)).1 = true →
  config_locked s || config_read_only s = true →
  ∃ s1, same_config s s1 ∧
        (config_file s = None → s1 = s) ∧
        (config_locked s = true → s1 = s) ∧
        (is_Some (config_file s) → s1 = (backup s).1) ∧
        save (PDict d) s = (s1, Returns false).
Proof.
  intros Hvalid Hdenied. unfold save_config.
  destruct (_basic_validation (PDict d)) as [is_valid errors]. simpl in Hvalid. subst.
  assert (Hstep : ∀ s1 v, same_config s s1 →
    json_dump v ConfigPath s1 = (s1, Raises (PermissionError "Permission denied"))).
  { intros s1 v (_ & _ & Hl & _ & _ & Hro). unfold json_dump, write_file.
    by rewrite Hl, Hro, Hdenied. }
  unfold path_exists, now. run.
  case_bool_decide as Hex; simpl.
  - exists (backup s).1. pose proof (backup_same_config s) as Hsame.
    destruct (backup_returns s) as [r Hr].
    assert (config_locked s = true → (backup s).1 = s) as Hlocked.
    { intros Hl. destruct (backup_cases s) as [(f & dir & _ & Hl' & _) | ->]; [congruence | done]. }
    destruct (backup_config strftime s) as [s1 o] eqn:Hb; simpl in *. subst o.
    split_and!; [done | | done | done | ].
    + intros Hn. rewrite Hn in Hex. by destruct Hex.
    + rewrite get_backup_count_run. by rewrite (Hstep s1 _ Hsame).
  - exists s. split_and!; [apply same_config_refl | done | done | | ].
    + intros Hs. by destruct Hex.
    + rewrite get_backup_count_run. by rewrite (Hstep s _ (same_config_refl s)).
Qed.

(** A configuration file that cannot be opened: nothing is saved and
    nothing changes. *)
Lemma save_config_locked config s :
  config_locked s = true → save config s = (s, Returns false).
Proof.
  intros Hl.
  destruct (_basic_validation config).1 eqn:Hv; [ | by apply save_config_invalid].
  destruct config as [ | | | | | d]; try (by rewrite basic_validation_not_dict in Hv).
  destruct (save_config_denied d s Hv) as (s1 & _ & _ & Hs1 & _ & ->); [by rewrite Hl | ].
  by rewrite (Hs1 Hl).
Qed.

(** No configuration file, and none can be created: the same. *)
Lemma save_config_missing_denied config s :
  config_file s = None → config_locked s || config_read_only s = true →
  save config s = (s, Returns false).
Proof.
  intros Hf Hdenied.
  destruct (_basic_validation config).1 eqn:Hv; [ | by apply save_config_invalid].
  destruct config as [ | | | | | d]; try (by rewrite basic_validation_not_dict in Hv).
  destruct (save_config_denied d s Hv Hdenied) as (s1 & _ & Hs1 & _ & _ & ->).
  by rewrite (Hs1 Hf).
Qed.

Lemma omap_not_nil {A B} (f : A → option B) (l : list A) :
  omap f l ≠ [] → ∃ x y, x ∈ l ∧ f x = Some y.
Proof.
  induction l as [ | a l IH]; simpl; [done | ].
  destruct (f a) as [y|] eqn:Hfa.
  - intros _. exists a, y. split; [by left | done].
  - intros H. destruct (IH H) as (x & y & Hx & Hy). exists x, y. split; [by right | done].
Qed.

Lemma mistyped_iff config : mistyped config ↔ (_basic_validation config).1 = false.
Proof.
  split; [apply mistyped_invalid | ].
  destruct config as [ | | | | | d]; try done.
  unfold _basic_validation. cbv zeta. cbn [fst].
  rewrite bool_decide_eq_false, length_zero_iff_nil.
  intros ([key t] & msg & Hin & Hmsg)%omap_not_nil. cbv beta iota in Hmsg.
  destruct (d !! key) as [v|] eqn:Hv; [ | done].
  destruct (isinstance v t) eqn:Hty; [done | ].
  exists key, t, v. done.
Qed.

(** [save_config] returns on every argument and every disk. *)
Lemma save_config_returns config s : ∃ saved, (save config s).2 = Returns saved.
Proof.
  destruct (_basic_validation config).1 eqn:Hv.
  2:{ rewrite save_config_invalid by done. eauto. }
  destruct config as [ | | | | | d]; try (by rewrite basic_validation_not_dict in Hv).
  destruct (config_locked s || config_read_only s) eqn:Hw.
  - destruct (save_config_denied d s Hv Hw) as (s1 & _ & _ & _ & _ & ->). eauto.
  - apply orb_false_iff in Hw as [Hl Hw].
    destruct (save_config_valid d s Hv Hl Hw) as (s1 & _ & _ & _ & ->). eauto.
Qed.


(** A save that succeeded was one of a well-typed mapping on a file that
    can be written. *)
Lemma save_config_true_inv config s s' :
  save config s = (s', Returns true) →
  ∃ d, config = PDict d ∧ (_basic_validation (PDict d)).1 = true ∧
       config_locked s = false ∧ config_read_only s = false.
Proof.
  intros Hsave.
  destruct (_basic_validation config).1 eqn:Hv.
  2:{ rewrite save_config_invalid in Hsave by done. by apply returns_inj in Hsave. }
  destruct config as [ | | | | | d]; try (by rewrite basic_validation_not_dict in Hv).
  destruct (config_locked s || config_read_only s) eqn:Hw.
  - destruct (save_config_denied d s Hv Hw) as (s1 & _ & _ & _ & _ & Hrun).
    rewrite Hrun in Hsave. by apply returns_inj in Hsave.
  - apply orb_false_iff in Hw as [Hl Hw]. eauto 6.
Qed.

(** X2.  After a save that succeeds, the configuration file holds the saved
    mapping with a [_metadata] entry whose [backup_count] is the number of
    backup files now in the backup directory and whose [last_modified] is
    the time of the save; the file is stamped with that time. *)
Theorem save_config_writes_metadata d s s' :
  save (PDict d) s = (s', Returns true) →
  ∃ md,
    config_file s' = Some (File (clock s) (Json (PDict (<["_metadata" := PDict md]> d)))) ∧
    md !! "backup_count" = Some (PInt (Z.of_nat (length (backups_of s')))) ∧
    md !! "last_modified" = Some (PStr (isoformat (clock s))) ∧
    dom md = {["backup_count"; "last_modified"]}.
Proof.
  intros Hsave.
  destruct (save_config_true_inv _ _ _ Hsave) as (d' & [= <-] & Hv & Hl & Hw).
  destruct (save_config_valid d s Hv Hl Hw) as (s1 & (Hc & _) & _ & _ & Hrun).
  rewrite Hrun in Hsave. apply (f_equal fst) in Hsave. cbn [fst] in Hsave. subst s'.
  eexists. split_and!; [reflexivity | | | ].
  - rewrite lookup_insert_ne by done. rewrite lookup_insert_eq.
    unfold backup_count, backups_of. cbn [backup_dir set_config_file].
    by destruct (backup_dir s1).
  - rewrite lookup_insert_eq. by rewrite Hc.
  - rewrite !dom_insert_L, dom_empty_L. set_solver.
Qed.

(** *** Validation *)

Lemma check_coords_nil coords ip errors :
  check_coords coords ip errors = [] ↔ errors = [] ∧ ∀ c, c ∈ coords → coord_ok ip c.
Proof.
  revert errors. induction coords as [ | c coords IH]; intros errors; cbn [check_coords].
  { split; [intros -> | by intros [-> _]]. split; [done | ].
    intros c H. by apply elem_of_nil in H. }
  rewrite IH. clear IH.
  assert (∀ P, P ∧ (∀ c0, c0 ∈ c :: coords → coord_ok ip c0) ↔
               (P ∧ coord_ok ip c) ∧ (∀ c0, c0 ∈ coords → coord_ok ip c0)) as Hsplit.
  { intros P. split.
    - intros [HP H]. split_and!; [done | apply H; by left | intros c0 H0; apply H; by right].
    - intros [[HP Hc] H]. split; [done | ]. intros c0 [-> | H0]%elem_of_cons; auto. }
  rewrite Hsplit. clear Hsplit.
  apply and_iff_compat_r. unfold coord_ok.
  destruct (ip !! c) as [[ | [] | z | | | ] | ]; cbn [isinstance negb int_value andb];
    try (split; [by intros []%app_eq_nil | by intros [_ []]]).
  - cbv. tauto.
  - cbv. tauto.
  - destruct (Z.leb_spec (-32768) z), (Z.leb_spec z 32767); cbn [andb negb];
      first [split; [intros ->; split; [done | lia] | by intros [-> _]]
            | split; [by intros []%app_eq_nil | intros [_ ?]; lia]].
Qed.

(** X3.  On a mapping [validate_config] never raises, and it accepts, with
    an empty list of errors, exactly the mappings of the strict schema:
    the six keys are there; [app_path] and [version] are strings;
    [icon_fixed] and [auto_start] are booleans; [icon_size] is an integer,
    and no boolean, between 16 and 128; [icon_position] is a mapping whose
    [x] and [y] are integers between -32768 and 32767, or booleans. *)
Theorem validate_config_accepts_iff d s :
  ∃ is_valid errors,
    validate_config (PDict d) s = (s, Returns (is_valid, errors)) ∧
    (is_valid = true ↔ errors = []) ∧
    (is_valid = true ↔ strict_schema d).
Proof.
  unfold validate_config. unfold bind at 1.
  destruct (check_required_dict required_keys d [] s) as (errs & -> & Hiff).
  cbn [app]. case_bool_decide as Hnil; cbn [negb].
  2:{ exists false, errs. split_and!; [done | done | ]. split; [done | ].
      intros (H1 & (ip & H2 & _) & H3 & H4 & (z & H5 & _) & H6).
      destruct Hnil. apply Hiff. intros k Hk. unfold required_keys in Hk.
      destruct H1, H3, H4, H6.
      repeat (apply elem_of_cons in Hk as [-> | Hk]; [by eauto | ]).
      by apply elem_of_nil in Hk. }
  assert (∀ k i, required_keys !! i = Some k → ∃ v, d !! k = Some v) as Hget.
  { intros k i Hk. apply list_elem_of_lookup_2 in Hk.
    destruct (proj1 Hiff Hnil k Hk) as [v Hv]. eauto. }
  clear Hiff. subst errs.
  destruct (Hget "app_path" 0%nat eq_refl) as [v1 H1].
  destruct (Hget "icon_position" 1%nat eq_refl) as [v2 H2].
  destruct (Hget "icon_fixed" 2%nat eq_refl) as [v3 H3].
  destruct (Hget "auto_start" 3%nat eq_refl) as [v4 H4].
  destruct (Hget "icon_size" 4%nat eq_refl) as [v5 H5].
  destruct (Hget "version" 5%nat eq_refl) as [v6 H6].
  clear Hget.
  unfold get, bind, ret. rewrite H1, H2, H3, H4, H5, H6. cbn [default from_option].
  unfold id.
  match goal with
  | |- context [bool_decide (length ?E = 0%nat)] => remember E as errors eqn:HE
  end.
  exists (bool_decide (length errors = 0%nat)), errors. split; [reflexivity | ].
  rewrite bool_decide_eq_true, length_zero_iff_nil. split; [done | ].
  subst errors. unfold strict_schema. rewrite H1, H2, H3, H4, H5, H6.
  split.
  - intros Hnil.
    destruct (isinstance v6 Tstr) eqn:T6; cbn [negb] in Hnil;
      [ | by apply app_eq_nil in Hnil as [_ [=]]].
    destruct (isinstance v5 Tint) eqn:T5; cbn [negb] in Hnil;
      [ | by apply app_eq_nil in Hnil as [_ [=]]].
    destruct ((16 <=? int_value v5) && (int_value v5 <=? 128)) eqn:R5; cbn [negb] in Hnil;
      [ | by apply app_eq_nil in Hnil as [_ [=]]].
    destruct (isinstance v4 Tbool) eqn:T4; cbn [negb] in Hnil;
      [ | by apply app_eq_nil in Hnil as [_ [=]]].
    destruct (isinstance v3 Tbool) eqn:T3; cbn [negb] in Hnil;
      [ | by apply app_eq_nil in Hnil as [_ [=]]].
    destruct v2 as [ | | | | | ip]; try (by apply app_eq_nil in Hnil as [_ [=]]).
    apply check_coords_nil in Hnil as [Hnil Hcoords].
    destruct (isinstance v1 Tstr) eqn:T1; cbn [negb] in Hnil; [ | done].
    destruct v1; try done. destruct v3; try done. destruct v4; try done.
    destruct v6; try done.
    split_and!; eauto.
    + exists ip. split_and!; [done | apply Hcoords; set_solver | apply Hcoords; set_solver].
    + destruct v5 as [ | [] | z | | | ]; try done. cbn [int_value] in R5.
      exists z. split; [done | lia].
  - intros ((a & [= ->]) & (ip & [= ->] & Hx & Hy) & (b3 & [= ->]) & (b4 & [= ->])
            & (z & [= ->] & Hz) & (v & [= ->])).
    cbn [isinstance negb int_value app].
    replace ((16 <=? z) && (z <=? 128)) with true by (symmetry; lia).
    cbn [negb]. apply check_coords_nil. split; [done | ].
    intros c Hc. repeat (apply elem_of_cons in Hc as [-> | Hc]; [done | ]).
    by apply elem_of_nil in Hc.
Qed.

Lemma check_required_missing keys d errors s :
  check_required keys (PDict d) errors s =
    (s, Returns (errors ++ (missing_key_error <$> filter (λ key, key ∉ dom d) keys))).
Proof.
  revert errors. induction keys as [ | key keys IH]; intros errors; cbn [check_required].
  { by rewrite filter_nil, app_nil_r. }
  unfold bind at 1. cbn [contains]. rewrite filter_cons.
  destruct (d !! key) as [v|] eqn:Hkey.
  - rewrite bool_decide_eq_true_2 by eauto. cbn [negb].
    rewrite decide_False by (intros H; apply H, elem_of_dom; eauto). apply IH.
  - rewrite bool_decide_eq_false_2 by (by intros [? ?]). cbn [negb].
    rewrite decide_True by (by apply not_elem_of_dom).
    rewrite IH, <- app_assoc. done.
Qed.

(** X4.  When required keys are missing, [validate_config] stops after
    looking for them: it returns [False] with one error for each missing
    key, in the order of the required keys, and reports nothing about the
    values of the keys that are there. *)
Theorem validate_config_missing_keys d s :
  filter (λ key, key ∉ dom d) required_keys ≠ [] →
  validate_config (PDict d) s =
    (s, Returns (false, missing_key_error <$> filter (λ key, key ∉ dom d) required_keys)).
Proof.
  intros Hmissing. unfold validate_config. unfold bind at 1.
  rewrite check_required_missing. cbn [app].
  rewrite bool_decide_eq_false_2; [done | ].
  intros H%fmap_nil_inv. done.
Qed.

(** *** Loading *)

Lemma default_config_no_metadata : get_default_config !! "_metadata" = None.
Proof. vm_compute. reflexivity. Qed.

(** No configuration file: the defaults are saved and returned. *)
Lemma load_config_at_missing depth s :
  config_file s = None →
  load_config_at strftime isoformat (S depth) s =
    ((save (PDict get_default_config) s).1, Returns get_default_config).
Proof.
  intros Hf. cbn [load_config_at].
  unfold path_exists, try_except, bind, ret.
  cbn [lookup_file]. rewrite Hf. rewrite bool_decide_eq_false_2 by (by intros [? ?]).
  cbv beta iota.
  destruct (save_config_returns (PDict get_default_config) s) as [b Hb].
  destruct (save (PDict get_default_config) s) as [s1 o]. cbn [fst snd] in *. by subst o.
Qed.

(** A configuration file that cannot be opened: the defaults are returned
    and nothing is written. *)
Lemma load_config_at_locked depth f s :
  config_file s = Some f → config_locked s = true →
  load_config_at strftime isoformat (S depth) s = (s, Returns get_default_config).
Proof.
  intros Hf Hl. cbn [load_config_at].
  unfold path_exists, read_file, try_except, bind, ret, raise.
  repeat first [rewrite Hf | rewrite Hl | rewrite bool_decide_eq_true_2 by eauto
               | progress cbv beta iota
               | progress cbn [lookup_file data json_load is_JSONDecodeError is_OSError negb]].
  reflexivity.
Qed.

(** The defaults, once saved, are what a load returns, whatever time has
    passed; so are they when they could not be saved for want of a place
    to write. *)
Lemma load_config_at_saved_default depth dt s :
  config_file s = None ∨ (config_locked s = false ∧ config_read_only s = false) →
  load_config_at strftime isoformat (S depth) (tick dt (save (PDict get_default_config) s).1) =
    (tick dt (save (PDict get_default_config) s).1, Returns get_default_config).
Proof.
  intros Hs. destruct (config_locked s || config_read_only s) eqn:Hw.
  - destruct Hs as [Hf | [Hl Hro]]; [ | by rewrite Hl, Hro in Hw].
    rewrite (save_config_missing_denied _ s Hf Hw). cbn [fst].
    rewrite (load_config_at_missing _ (tick dt s)) by done.
    by rewrite (save_config_missing_denied _ (tick dt s)).
  - apply orb_false_iff in Hw as [Hl Hw].
    destruct (save_config_valid get_default_config s default_config_basic Hl Hw)
      as (s1 & (_ & _ & Hl1 & _) & _ & _ & ->).
    cbn [fst].
    erewrite load_config_at_object;
      [ | reflexivity | reflexivity | cbn [config_locked set_config_file tick]; congruence].
    rewrite delete_insert_eq. rewrite delete_id by apply default_config_no_metadata. done.
Qed.

(** What [_try_restore_from_latest_backup] can do: nothing, when the
    configuration file cannot be written or every backup is malformed;
    restore a backup that parses; or raise on one that cannot be loaded. *)
Lemma try_restore_cases s :
  (_try_restore_from_latest_backup s = (s, Returns false) ∧
   (config_locked s || config_read_only s = true ∨
    ∀ name f, default ∅ (backup_dir s) !! name = Some f → is_backup_name name = true →
              ∃ raw, data f = Malformed raw)) ∨
  (∃ name f v,
     default ∅ (backup_dir s) !! name = Some f ∧ is_backup_name name = true ∧
     data f = Json v ∧ config_locked s = false ∧ config_read_only s = false ∧
     _try_restore_from_latest_backup s = (restored (BackupPath name) f s, Returns true)) ∨
  (∃ name f why,
     default ∅ (backup_dir s) !! name = Some f ∧ is_backup_name name = true ∧
     data f = Unloadable why ∧
     _try_restore_from_latest_backup s = (s, Raises (load_failure_exn why))).
Proof.
  rewrite try_restore_run.
  destruct (backup_dir s) as [dir|] eqn:Hd.
  2:{ left. unfold backups_of. rewrite Hd. cbn [default from_option id].
      assert (list_backup_files (∅ : gmap string file) = []) as -> by done.
      rewrite sort_reverse_nil. split; [done | ]. right. intros name f Hf. done. }
  pose proof (backups_of_lookup dir s Hd) as Hin.
  assert (∀ m name, (m, name) ∈ sort_reverse (backups_of s) → is_backup_name name = true)
    as Hnames.
  { intros m name H. rewrite sort_reverse_perm in H. unfold backups_of in H. rewrite Hd in H.
    by apply elem_of_list_backup_files in H as (? & _). }
  assert (∀ name f, dir !! name = Some f → is_backup_name name = true →
                    (mtime f, name) ∈ sort_reverse (backups_of s)) as Hlisted.
  { intros name f Hf Hname. rewrite sort_reverse_perm. unfold backups_of. rewrite Hd.
    apply elem_of_list_backup_files. eauto. }
  cbn [default from_option id].
  destruct (config_locked s || config_read_only s) eqn:Hw.
  - destruct (try_each_denied dir (sort_reverse (backups_of s)) s Hd Hw Hin)
      as [Hrun | (n & f & why & Hmem & Hf & Hwhy & Hrun)].
    + left. split; [done | by left].
    + right. right. exists n, f, why. split_and!; [done | by eapply Hnames | done | done].
  - apply orb_false_iff in Hw as [Hl Hw].
    destruct (try_each_spec dir (sort_reverse (backups_of s)) s Hd Hl Hw Hin)
      as [[Hall Hrun] | (l1 & n & f & l2 & Hsplit & _ & Hf & [(v & Hv & Hrun) | (why & Hwhy & Hrun)])].
    + left. split; [done | ]. right. intros name f Hf Hname.
      destruct (Hall _ _ (Hlisted name f Hf Hname)) as (f' & raw & Hf' & Hraw).
      exists raw. congruence.
    + right. left. exists n, f, v.
      split_and!; [done | | done | done | done | done].
      apply (Hnames (mtime f)). rewrite Hsplit. apply elem_of_app. right. by left.
    + right. right. exists n, f, why.
      split_and!; [done | | done | done].
      apply (Hnames (mtime f)). rewrite Hsplit. apply elem_of_app. right. by left.
Qed.

(** An activation of [load_config] that finds a file it need not restore,
    or no file, or a file it cannot open, ends without another activation:
    it returns a mapping that a later load returns again, or it raises on a
    file that holds JSON but no object, or that cannot be loaded. *)
Lemma load_config_at_parsed depth s :
  (∀ f raw, config_file s = Some f → config_locked s = false → data f ≠ Malformed raw) →
  ∃ s' r,
    load_config_at strftime isoformat (S depth) s = (s', r) ∧
    ((∃ c, r = Returns c ∧ c !! "_metadata" = None ∧
           ∀ depth' dt, load_config_at strftime isoformat (S depth') (tick dt s') =
                          (tick dt s', Returns c)) ∨
     (r = Raises AttributeError ∧ s' = s ∧ config_locked s = false ∧
      ∃ f v, config_file s = Some f ∧ data f = Json v ∧ ∀ d, v ≠ PDict d) ∨
     (∃ why, r = Raises (load_failure_exn why) ∧ s' = s ∧ config_locked s = false ∧
             ∃ f, config_file s = Some f ∧ data f = Unloadable why)).
Proof.
  intros Hparsed.
  destruct (config_file s) as [f|] eqn:Hf.
  2:{ rewrite load_config_at_missing by done. eexists _, _. split; [done | ]. left.
      eexists. split_and!; [done | apply default_config_no_metadata | ].
      intros depth' dt. apply load_config_at_saved_default. by left. }
  destruct (config_locked s) eqn:Hl.
  { rewrite (load_config_at_locked _ f) by done. eexists _, _. split; [done | ]. left.
    eexists. split_and!; [done | apply default_config_no_metadata | ].
    intros depth' dt. by apply load_config_at_locked with f. }
  destruct (data f) as [v | raw | why] eqn:Hdata; [ | by destruct (Hparsed f raw) | ].
  2:{ rewrite (load_config_at_unloadable _ f why) by done. eexists _, _. split; [done | ].
      right. right. exists why. split_and!; [done | done | done | eauto]. }
  destruct v as [ | b | z | str | l | d].
  6:{ rewrite (load_config_at_object _ d f) by done. eexists _, _. split; [done | ]. left.
      eexists. split_and!; [done | apply lookup_delete_eq | ].
      intros depth' dt. by apply load_config_at_object with f. }
  all: rewrite (load_config_at_not_dict _ f _ s Hf Hdata) by done.
  all: eexists _, _; split; [done | ]; right; left; split_and!; [done | done | done | ].
  all: eexists f, _; split_and!; [done | done | done].
Qed.

(** [load_config] in full.  It returns a mapping without [_metadata]; or it
    raises [AttributeError] on a file, put back from a backup or not, that
    holds JSON but no object; or it raises what [json.load] raised on a
    file that cannot be loaded: the configuration file, or a backup when
    the configuration file is malformed.  Two activations are enough.
    When the configuration file is not read-only, a later load returns
    again the mapping that was returned. *)
Lemma load_config_at_outcome depth s :
  ∃ s' r,
    load_config_at strftime isoformat (S (S depth)) s = (s', r) ∧
    ((∃ c, r = Returns c ∧ c !! "_metadata" = None ∧
           (config_read_only s = false →
            ∀ depth' dt, load_config_at strftime isoformat (S depth') (tick dt s') =
                           (tick dt s', Returns c))) ∨
     (r = Raises AttributeError ∧ config_locked s' = false ∧
      ∃ f v, config_file s' = Some f ∧ data f = Json v ∧ ∀ d, v ≠ PDict d) ∨
     (∃ why, r = Raises (load_failure_exn why) ∧ s' = s ∧ config_locked s = false ∧
             ((∃ f, config_file s = Some f ∧ data f = Unloadable why) ∨
              (∃ t raw name f,
                 config_file s = Some (File t (Malformed raw)) ∧
                 lookup_file (BackupPath name) s = Some f ∧ is_backup_name name = true ∧
                 data f = Unloadable why)))).
Proof.
  assert (∀ name, lookup_file (BackupPath name) s = default ∅ (backup_dir s) !! name) as Hlook.
  { intros name. cbn [lookup_file]. by destruct (backup_dir s). }
  assert (Hdirect :
    (∀ f raw, config_file s = Some f → config_locked s = false → data f ≠ Malformed raw) →
    ∃ s' r,
      load_config_at strftime isoformat (S (S depth)) s = (s', r) ∧
      ((∃ c, r = Returns c ∧ c !! "_metadata" = None ∧
             (config_read_only s = false →
              ∀ depth' dt, load_config_at strftime isoformat (S depth') (tick dt s') =
                             (tick dt s', Returns c))) ∨
       (r = Raises AttributeError ∧ config_locked s' = false ∧
        ∃ f v, config_file s' = Some f ∧ data f = Json v ∧ ∀ d, v ≠ PDict d) ∨
       (∃ why, r = Raises (load_failure_exn why) ∧ s' = s ∧ config_locked s = false ∧
               ((∃ f, config_file s = Some f ∧ data f = Unloadable why) ∨
                (∃ t raw name f,
                   config_file s = Some (File t (Malformed raw)) ∧
                   lookup_file (BackupPath name) s = Some f ∧ is_backup_name name = true ∧
                   data f = Unloadable why))))).
  { intros Hparsed.
    destruct (load_config_at_parsed (S depth) s Hparsed) as (s' & r & Hrun & Hr).
    exists s', r. split; [done | ].
    destruct Hr as [(c & -> & Hc & Hagain) | [(-> & -> & ? & Hr) | (why & -> & -> & ? & Hr)]].
    - left. exists c. split_and!; [done | done | by intros _].
    - right. left. done.
    - right. right. exists why. split_and!; [done | done | done | by left]. }
  destruct (config_file s) as [[t [v | raw | why]] | ] eqn:Hf.
  - apply Hdirect. intros f raw' [= <-] _. done.
  - destruct (config_locked s) eqn:Hl.
    { apply Hdirect. intros f raw' _ ?. congruence. }
    clear Hdirect.
    rewrite (load_config_at_malformed _ t raw) by done. unfold bind.
    destruct (try_restore_cases s)
      as [[-> Hwhy] | [(name & b & v & _ & _ & Hv & _ & _ & ->)
                      | (name & b & why & Hb & Hname & Hv & ->)]].
    + cbv beta iota.
      destruct (save_config_returns (PDict get_default_config) s) as [saved Hsaved].
      pose proof (λ Hw depth' dt,
                    load_config_at_saved_default depth' dt s (or_intror (conj Hl Hw))) as Hagain.
      destruct (save (PDict get_default_config) s) as [s1 o]. cbn [fst snd] in *. subst o.
      eexists _, _. split; [done | ]. left.
      eexists. split_and!; [done | apply default_config_no_metadata | done].
    + cbv beta iota.
      destruct (load_config_at_parsed depth (restored (BackupPath name) b s))
        as (s' & r & Hrun & Hr).
      { intros f raw' [= <-] _. congruence. }
      exists s', r. split; [done | ].
      destruct Hr as [(c & -> & Hc & Hagain) | [(-> & -> & ? & Hr) | (why & -> & _ & _ & f & [= <-] & ?)]].
      * left. exists c. split_and!; [done | done | by intros _].
      * right. left. done.
      * congruence.
    + eexists _, _. split; [done | ]. right. right.
      exists why. split_and!; [done | done | done | ]. right.
      exists t, raw, name, b. by rewrite Hlook.
  - apply Hdirect. intros f raw' [= <-] _. done.
  - apply Hdirect. intros f raw' [=].
Qed.

Lemma tick_0 s : tick 0 s = s.
Proof. destruct s. unfold tick. cbn. by rewrite Z.add_0_r. Qed.

(** X5.  With a configuration file that is not read-only, [load_config] is
    idempotent: once it has returned a configuration, a second call,
    at once or after any time has passed, returns the same configuration
    and changes nothing on the disk. *)
Theorem load_config_idempotent s s' config :
  config_read_only s = false →
  load_config strftime isoformat s = (s', Returns config) →
  load_config strftime isoformat s' = (s', Returns config) ∧
  ∀ dt, load_config strftime isoformat (tick dt s') = (tick dt s', Returns config).
Proof.
  intros Hw Hload. destruct (load_config_at_outcome 998 s) as (s1 & r & Hrun & Hr).
  change (load s = (s1, r)) in Hrun. rewrite Hrun in Hload.
  destruct Hr as [(c & -> & _ & Hagain) | [(-> & _) | (why & -> & _)]]; [ | done | done].
  injection Hload as -> ->. specialize (Hagain Hw). split; [ | intros dt; apply Hagain].
  pose proof (Hagain 999%nat 0) as Hnow. by rewrite tick_0 in Hnow.
Qed.

(** X6.  What [load_config] can end with.  It returns a mapping that has no
    [_metadata] key; or it raises [AttributeError], which it does only when
    the configuration file, as found or as put back from a backup, holds
    JSON that is not an object; or it raises what [json.load] raised,
    [UnicodeDecodeError] for one, on a file that cannot be loaded, which is
    the configuration file, or a backup file when the configuration file is
    malformed, and nothing has changed then.  It never reaches the
    recursion limit by calling itself. *)
Theorem load_config_outcome s :
  ∃ s' r,
    load_config strftime isoformat s = (s', r) ∧
    match r with
    | Returns config => config !! "_metadata" = None
    | Raises e =>
        (e = AttributeError ∧
         ∃ f v, config_file s' = Some f ∧ data f = Json v ∧ ∀ d, v ≠ PDict d) ∨
        (s' = s ∧
         ∃ why, e = load_failure_exn why ∧
           ((∃ f, config_file s = Some f ∧ data f = Unloadable why) ∨
            (∃ t raw name f,
               config_file s = Some (File t (Malformed raw)) ∧
               lookup_file (BackupPath name) s = Some f ∧ is_backup_name name = true ∧
               data f = Unloadable why)))
    end.
Proof.
  destruct (load_config_at_outcome 998 s) as (s1 & r & Hrun & Hr).
  exists s1, r. split; [exact Hrun | ].
  destruct Hr as [(c & -> & Hc & _) | [(-> & _ & Hr) | (why & -> & -> & _ & Hr)]].
  - done.
  - by left.
  - right. split; [done | ]. by exists why.
Qed.

(** X7.  When there is no configuration file, or one that cannot be opened,
    [load_config] returns the defaults.  With no file and a location that
    can be written, it creates the file with the defaults and their
    [_metadata], and makes no backup; with a file that cannot be opened it
    leaves the disk as it is. *)
Theorem load_config_defaults s :
  (config_file s = None → config_locked s = false → config_read_only s = false →
     ∃ s' md,
       load s = (s', Returns get_default_config) ∧
       config_file s' =
         Some (File (clock s) (Json (PDict (<["_metadata" := md]> get_default_config)))) ∧
       backup_dir s' = backup_dir s) ∧
  (config_locked s = true → load s = (s, Returns get_default_config)).
Proof.
  split.
  - intros Hf Hl Hw. unfold load_config, recursion_limit.
    rewrite load_config_at_missing by done.
    destruct (save_config_valid get_default_config s default_config_basic Hl Hw)
      as (s1 & _ & Hs1 & _ & ->).
    rewrite (Hs1 Hf). cbn [fst]. eexists _, _. split_and!; done.
  - intros Hl. unfold load_config, recursion_limit.
    destruct (config_file s) as [f|] eqn:Hf; [by apply load_config_at_locked with f | ].
    rewrite load_config_at_missing by done. by rewrite save_config_locked.
Qed.

(** *** Backups *)


Lemma sort_singleton x : sort [x] = [x].
Proof. apply Permutation_singleton_r, sort_perm. Qed.

(** The listing, sorted, of a directory whose newest backup file is the one
    that has just been put there. *)
Lemma sort_insert_newest name f dir :
  is_backup_name name = true →
  (∀ x, x ∈ list_backup_files dir → x.2 ≠ name → tuple_le x (mtime f, name)) →
  sort (list_backup_files (<[name := f]> dir)) =
    sort (filter (λ x : Z * string, x.2 ≠ name) (list_backup_files dir)) ++ [(mtime f, name)].
Proof.
  intros Hname Hmax. apply sort_app_sorted.
  - rewrite list_backup_files_insert by done. apply Permutation_cons_append.
  - repeat constructor.
  - intros o n [Ho1 Ho2]%list_elem_of_filter ->%list_elem_of_singleton. by apply Hmax.
Qed.

(** The backup that has just been made stays when no other backup file is
    newer, in the order of the pairs of time and name. *)
Lemma rotate_keeps_newest name f dir :
  is_backup_name name = true →
  (∀ x, x ∈ list_backup_files dir → x.2 ≠ name → tuple_le x (mtime f, name)) →
  rotate 5 (<[name := f]> dir) !! name = Some f.
Proof.
  intros Hname Hmax.
  pose proof (sort_insert_newest name f dir Hname Hmax) as Hsort.
  assert ((mtime f, name) ∈ list_backup_files (rotate 5 (<[name := f]> dir))) as Hin.
  { rewrite list_backup_files_rotate by lia. rewrite Hsort, last_n_app.
    apply elem_of_app. right. by left. }
  apply elem_of_list_backup_files in Hin as (_ & f' & Hf' & _).
  pose proof (rotate_subseteq _ _ _ _ Hf') as Hins. rewrite lookup_insert_eq in Hins.
  congruence.
Qed.

(** It is not among the files that the cleanup wants to remove. *)
Lemma newest_not_removed name f dir :
  is_backup_name name = true →
  (∀ x, x ∈ list_backup_files dir → x.2 ≠ name → tuple_le x (mtime f, name)) →
  name ∉ (slice_until_neg 5 (sort (list_backup_files (<[name := f]> dir)))).*2.
Proof.
  intros Hname Hmax. rewrite (sort_insert_newest name f dir Hname Hmax).
  cbn [slice_until_neg]. rewrite take_app_le by (rewrite length_app; cbn [length]; lia).
  intros ([m x] & -> & Hin)%list_elem_of_fmap. cbn [snd] in *.
  apply subseteq_take in Hin. rewrite sort_perm in Hin.
  apply list_elem_of_filter in Hin as [Hne _]. by apply Hne.
Qed.

(** What a removal, a series of removals and the cleanup do to a file of
    the backup directory: they leave it, or remove it when they were to. *)
Lemma remove_effect name s name' :
  lookup_file (BackupPath name') (remove name s).1 = lookup_file (BackupPath name') s ∨
  (lookup_file (BackupPath name') (remove name s).1 = None ∧ name' = name).
Proof.
  unfold remove. destruct (backup_dir s) as [d|] eqn:Hd; [ | by left].
  destruct (d !! name) eqn:Hf; [ | by left].
  destruct (backup_dir_ro s || _); [by left | ].
  cbn [fst lookup_file backup_dir set_backup_dir mbind option_bind]. rewrite Hd.
  cbn [mbind option_bind].
  destruct (decide (name' = name)) as [-> | Hne].
  - right. by rewrite lookup_delete_eq.
  - left. by rewrite lookup_delete_ne.
Qed.

Lemma for_each_remove_effect (l : list (Z * string)) s name :
  lookup_file (BackupPath name) (for_each l (λ '(_, backup_path), remove backup_path) s).1 =
    lookup_file (BackupPath name) s ∨
  (lookup_file (BackupPath name) (for_each l (λ '(_, backup_path), remove backup_path) s).1 =
     None ∧ name ∈ l.*2).
Proof.
  revert s. induction l as [ | [m n] l IH]; intros s; [by left | ].
  cbn [for_each fmap list_fmap snd]. unfold bind.
  pose proof (remove_effect n s name) as H1.
  destruct (remove n s) as [s1 [[] | e]]; cbn [fst] in *.
  - destruct (IH s1) as [H2 | [H2 Hin]].
    + rewrite H2. destruct H1 as [H1 | [H1 ->]]; [by left | right].
      split; [done | by left].
    + right. split; [done | by right].
  - destruct H1 as [H1 | [H1 ->]]; [by left | right]. split; [done | by left].
Qed.

Lemma cleanup_effect n s name :
  lookup_file (BackupPath name) (_cleanup_old_backups n s).1 =
    lookup_file (BackupPath name) s ∨
  (lookup_file (BackupPath name) (_cleanup_old_backups n s).1 = None ∧
   name ∈ (slice_until_neg n (sort (backups_of s))).*2).
Proof.
  unfold _cleanup_old_backups, backup_dir_exists, try_except, bind, ret, backups_of.
  destruct (bool_decide (is_Some (backup_dir s))); cbn [negb]; [ | by left].
  cbv beta iota. case_bool_decide as Hlen; [ | by left].
  match goal with |- context [for_each ?l ?f s] =>
    pose proof (for_each_remove_effect l s name) as H1;
    pose proof (for_each_remove_raises l s) as H2;
    destruct (for_each l f s) as [s1 [[] | e]] end; cbn [fst snd] in *; [done | ].
  by rewrite (H2 e eq_refl).
Qed.

(** The copy of the configuration file into the backup directory, which
    takes the read-only attribute with it. *)
Lemma copy2_to_backup_ok name f dir s :
  config_file s = Some f → config_locked s = false →
  backup_dir s = Some dir → backup_dir_ro s = false → name ∉ backup_read_only s →
  copy2 ConfigPath (BackupPath name) s =
    (set_read_only (BackupPath name) (config_read_only s)
       (set_backup_dir (<[name := f]> dir) s), Returns tt).
Proof.
  intros Hf Hl Hd Hro Hname. unfold copy2. rewrite decide_False by done.
  unfold bind, read_file, write_file. cbn [lookup_file]. rewrite Hf, Hl, Hd, Hro.
  by rewrite bool_decide_eq_false_2 by done.
Qed.

(** [backup_config] when the copy can be made: the copy, then the cleanup,
    whatever it manages to remove. *)
Lemma backup_run_cleanup f dir s :
  config_file s = Some f → config_locked s = false →
  backup_dir s = Some dir → backup_dir_ro s = false →
  backup_filename (strftime (clock s)) ∉ backup_read_only s →
  backup s =
    ((_cleanup_old_backups 5
        (set_read_only (BackupPath (backup_filename (strftime (clock s)))) (config_read_only s)
           (set_backup_dir (<[backup_filename (strftime (clock s)) := f]> dir) s))).1,
     Returns (Some (BackupPath (backup_filename (strftime (clock s)))))).
Proof.
  intros Hf Hl Hd Hro Hname.
  unfold backup_config, path_exists, now, try_except, bind, ret.
  cbn [lookup_file]. rewrite Hf.
  rewrite bool_decide_eq_true_2 by eauto. cbv beta iota. cbn [negb].
  rewrite (copy2_to_backup_ok _ f dir) by done.
  match goal with |- context [_cleanup_old_backups 5 ?s1] =>
    pose proof (cleanup_returns 5 s1) as Hc;
    destruct (_cleanup_old_backups 5 s1) as [s2 o] end.
  cbn [snd] in Hc. by subst o.
Qed.

(** X9.  The backup that [backup_config] makes is a copy of the
    configuration file, with its modification time, and it is there after
    the call when no other backup file is newer than the configuration
    file, in the order of the pairs of time and name.  The copy can be made
    when the configuration file can be read, the backup directory can be
    written and no read-only file has the name of the backup. *)
Theorem backup_config_keeps_newest f dir s :
  config_file s = Some f → config_locked s = false →
  backup_dir s = Some dir → backup_dir_ro s = false →
  backup_filename (strftime (clock s)) ∉ backup_read_only s →
  (∀ x, x ∈ list_backup_files dir → x.2 ≠ backup_filename (strftime (clock s)) →
        tuple_le x (mtime f, backup_filename (strftime (clock s)))) →
  ∃ s',
    backup s = (s', Returns (Some (BackupPath (backup_filename (strftime (clock s)))))) ∧
    lookup_file (BackupPath (backup_filename (strftime (clock s)))) s' = Some f.
Proof.
  intros Hf Hl Hd Hro Hname Hmax. rewrite (backup_run_cleanup f dir s Hf Hl Hd Hro Hname).
  eexists. split; [done | ].
  set (name := backup_filename (strftime (clock s))) in *.
  match goal with |- context [_cleanup_old_backups 5 ?s1] =>
    destruct (cleanup_effect 5 s1 name) as [-> | [_ Hin]] end.
  - cbn [lookup_file backup_dir set_backup_dir set_read_only mbind option_bind].
    apply lookup_insert_eq.
  - exfalso. revert Hin. unfold backups_of.
    cbn [backup_dir set_backup_dir set_read_only default from_option id].
    apply newest_not_removed; [apply is_backup_name_backup_filename | done].
Qed.

(** X10.  With five backup files or more that are all newer than the
    configuration file, as after the restore of an old backup,
    [backup_config] returns the path of a backup that is no longer there:
    the copy is the oldest file by its modification time and the cleanup
    removes it at once.  The backups left are the five newest of those
    that were there.  No file is read-only here, so that the removals
    succeed. *)
Theorem backup_config_drops_oldest f dir s :
  config_file s = Some f → config_locked s = false → config_read_only s = false →
  backup_dir s = Some dir → backup_dir_ro s = false → backup_read_only s = ∅ →
  dir !! backup_filename (strftime (clock s)) = None →
  (5 ≤ length (list_backup_files dir))%nat →
  (∀ x, x ∈ list_backup_files dir →
        tuple_le (mtime f, backup_filename (strftime (clock s))) x) →
  ∃ s',
    backup s = (s', Returns (Some (BackupPath (backup_filename (strftime (clock s)))))) ∧
    lookup_file (BackupPath (backup_filename (strftime (clock s)))) s' = None ∧
    backups_of s' ≡ₚ last_n 5 (sort (backups_of s)).
Proof.
  intros Hf Hl Hw Hd Hro Hnoro Hnew Hlen Hmin.
  rewrite (backup_run f dir s Hf Hl Hw Hd Hro Hnoro).
  set (name := backup_filename (strftime (clock s))) in *.
  pose proof (is_backup_name_backup_filename (strftime (clock s))) as Hname. fold name in Hname.
  assert (name ∉ (list_backup_files dir).*2) as Hnotin.
  { intros ([m x] & -> & Hin)%list_elem_of_fmap.
    apply elem_of_list_backup_files in Hin as (_ & g & Hg & _). cbn [snd] in Hnew. congruence. }
  assert (sort (list_backup_files (<[name := f]> dir)) =
          [(mtime f, name)] ++ sort (list_backup_files dir)) as Hsort.
  { rewrite <- (sort_singleton (mtime f, name)). apply sort_app_sorted.
    - rewrite list_backup_files_insert by done. rewrite filter_other_name by done.
      cbn [app]. by rewrite sort_perm.
    - apply sort_sorted.
    - intros o n ->%list_elem_of_singleton Hn. apply Hmin. by rewrite <- sort_perm. }
  assert (list_backup_files (rotate 5 (<[name := f]> dir)) ≡ₚ
          last_n 5 (sort (list_backup_files dir))) as Hleft.
  { rewrite list_backup_files_rotate by lia. rewrite Hsort, last_n_app.
    rewrite drop_ge; [done | ].
    rewrite (Permutation_length (sort_perm (list_backup_files dir))). cbn [length]. lia. }
  eexists. split_and!; [done | | ].
  - cbn [lookup_file backup_dir set_backup_dir mbind option_bind].
    destruct (rotate 5 (<[name := f]> dir) !! name) as [g|] eqn:Hg; [ | done].
    assert ((mtime g, name) ∈ list_backup_files (rotate 5 (<[name := f]> dir))) as Hin.
    { apply elem_of_list_backup_files. eauto. }
    rewrite Hleft in Hin. apply elem_of_last_n in Hin. rewrite sort_perm in Hin.
    destruct Hnotin. by apply (list_elem_of_fmap_2 snd) in Hin.
  - unfold backups_of. rewrite Hd. cbn [backup_dir set_backup_dir default from_option id].
    done.
Qed.

(** *** The cleanup *)

(** X11.  [_cleanup_old_backups] never raises, whatever the directory and
    whatever removal is refused, and it only removes backup files: the
    configuration file and the files elsewhere are as they were, a file of
    the backup directory whose name is not a backup name stays, and no file
    is created or changed. *)
Theorem cleanup_removes_only_backups max_backups s :
  ∃ s',
    _cleanup_old_backups max_backups s = (s', Returns tt) ∧
    config_file s' = config_file s ∧ elsewhere s' = elsewhere s ∧
    (∀ name, is_backup_name name = false →
             lookup_file (BackupPath name) s' = lookup_file (BackupPath name) s) ∧
    (∀ name f, lookup_file (BackupPath name) s' = Some f →
               lookup_file (BackupPath name) s = Some f).
Proof.
  pose proof (cleanup_returns max_backups s) as Hret.
  pose proof (cleanup_same_config max_backups s) as (_ & Hcf & _ & _ & Hel & _).
  pose proof (cleanup_effect max_backups s) as Heff.
  destruct (_cleanup_old_backups max_backups s) as [s' o]. cbn [fst snd] in *. subst o.
  exists s'. split_and!; [done | done | done | | ].
  - intros name Hname. destruct (Heff name) as [? | [_ Hin]]; [done | exfalso].
    apply list_elem_of_fmap in Hin as ([m x] & -> & Hin). cbn [snd] in *.
    assert ((m, x) ∈ backups_of s) as Hin'.
    { rewrite <- (sort_perm (backups_of s)).
      destruct max_backups; [by apply elem_of_nil in Hin | ].
      cbn [slice_until_neg] in Hin. by eapply (subseteq_take _ _ _ Hin). }
    apply elem_of_list_backup_files in Hin' as (Hx & _). congruence.
  - intros name f Hf. destruct (Heff name) as [<- | [Hnone _]]; [done | congruence].
Qed.

(** X12.  With a directory that can be written, no file of which is
    read-only, and a limit above zero, the backup files that
    [_cleanup_old_backups] leaves are the last [max_backups] of the listing
    sorted by modification time and then name: all of them when there are
    no more than [max_backups]. *)
Theorem cleanup_keeps_newest max_backups dir s :
  backup_dir s = Some dir → backup_dir_ro s = false → backup_read_only s = ∅ →
  (0 < max_backups)%nat →
  ∃ s',
    _cleanup_old_backups max_backups s = (s', Returns tt) ∧
    backups_of s' ≡ₚ last_n max_backups (sort (backups_of s)) ∧
    ((length (backups_of s) ≤ max_backups)%nat → s' = s).
Proof.
  intros Hd Hro Hnoro Hn. rewrite (cleanup_run max_backups dir s Hd Hro Hnoro).
  eexists. split_and!; [done | | ].
  - unfold backups_of. rewrite Hd. cbn [backup_dir set_backup_dir default from_option id].
    by apply list_backup_files_rotate.
  - unfold backups_of. rewrite Hd. cbn [default from_option id]. intros Hlen.
    unfold rotate. rewrite bool_decide_eq_false_2 by lia. by apply set_backup_dir_id.
Qed.

(** X13.  With the limit zero, [_cleanup_old_backups] removes nothing: the
    slice [backup_files[:-0]] is empty. *)
Theorem cleanup_zero_removes_nothing s :
  _cleanup_old_backups 0 s = (s, Returns tt).
Proof.
  unfold _cleanup_old_backups, backup_dir_exists, try_except, bind, ret.
  destruct (bool_decide (is_Some (backup_dir s))); cbn [negb]; [ | done].
  cbv beta iota. by case_bool_decide.
Qed.

(** *** Restoring *)

(** X14.  Restoring the configuration file from itself never returns
    [True] and changes nothing: the copy of a file onto itself is refused.
    It returns [False], unless the file can be opened and cannot be loaded
    for another reason than its JSON syntax, not being UTF-8 for one: then
    the exception of [json.load] leaves the method. *)
Theorem restore_from_config_file_itself s :
  ∃ r,
    restore_from_backup ConfigPath s = (s, r) ∧
    r ≠ Returns true ∧
    (r = Returns false ∨ ∃ why, r = Raises (load_failure_exn why)) ∧
    (∀ e, r = Raises e ↔
          config_locked s = false ∧
          ∃ f why, config_file s = Some f ∧ data f = Unloadable why ∧
                   e = load_failure_exn why).
Proof.
  destruct (config_file s) as [f|] eqn:Hf.
  2:{ rewrite restore_from_backup_none by done. exists (Returns false).
      split_and!; [done | done | by left | ]. intros e. split; [done | ].
      intros (_ & f & why & ? & _). done. }
  destruct (config_locked s) eqn:Hl.
  { rewrite (restore_from_backup_unreadable f) by done. exists (Returns false).
    split_and!; [done | done | by left | ]. intros e. split; [done | by intros [? _]]. }
  rewrite (restore_from_backup_read ConfigPath f) by (done || by right).
  rewrite copy2_same_file.
  destruct (data f) as [v | raw | why] eqn:Hdata.
  - exists (Returns false). split_and!; [done | done | by left | ].
    intros e. split; [done | ]. intros (_ & f' & why & [= <-] & ? & _). congruence.
  - exists (Returns false). split_and!; [done | done | by left | ].
    intros e. split; [done | ]. intros (_ & f' & why & [= <-] & ? & _). congruence.
  - exists (Raises (load_failure_exn why)). split_and!; [done | done | by eauto | ].
    intros e. split.
    + intros [= <-]. split; [done | ]. by exists f, why.
    + intros (_ & f' & why' & [= <-] & Hwhy & ->). congruence.
Qed.

(** X15.  A save can be undone from its backup.  When no file is
    read-only and the configuration file is at least as new as every
    backup file, a save puts the file it replaces in the backup directory,
    under the name made from the time of the save, and
    [restore_from_backup] of that path brings back the file as it was,
    content and modification time; [load_config] then returns what the file
    held before the save. *)
Theorem save_then_restore_undoes d f v dir s :
  config_file s = Some f → data f = Json v →
  config_locked s = false → config_read_only s = false →
  backup_dir s = Some dir → backup_dir_ro s = false → backup_read_only s = ∅ →
  ¬ mistyped (PDict d) →
  (∀ x, x ∈ list_backup_files dir → x.2 ≠ backup_filename (strftime (clock s)) →
        tuple_le x (mtime f, backup_filename (strftime (clock s)))) →
  ∃ s1 s2,
    save (PDict d) s = (s1, Returns true) ∧
    restore_from_backup (BackupPath (backup_filename (strftime (clock s)))) s1 =
      (s2, Returns true) ∧
    config_file s2 = Some f ∧
    (∀ d0, v = PDict d0 → load s2 = (s2, Returns (delete "_metadata" d0))).
Proof.
  intros Hf Hv Hl Hw Hd Hro Hnoro Hvalid Hmax.
  destruct (save_config_valid d s (not_mistyped_valid d Hvalid) Hl Hw)
    as (s1 & _ & _ & Hs1 & ->).
  rewrite (Hs1 (mk_is_Some _ _ Hf)). rewrite (backup_run f dir s Hf Hl Hw Hd Hro Hnoro).
  cbn [fst].
  set (name := backup_filename (strftime (clock s))) in *.
  set (dir1 := rotate 5 (<[name := f]> dir)).
  assert (dir1 !! name = Some f) as Hkept.
  { apply rotate_keeps_newest; [apply is_backup_name_backup_filename | done]. }
  eexists _, _. split; [reflexivity | ].
  erewrite (restore_backup_json name f v dir1); [ | done | done | done | done | done].
  split_and!; [reflexivity | done | ].
  intros d0 ->. unfold load_config, recursion_limit.
  by apply load_config_at_object with f.
Qed.

(** *** Resetting *)

(** X16.  [reset_to_default], where the configuration file can be written,
    being neither locked nor read-only, returns [True]; the configuration
    that [load_config] then returns is the default one, which
    [validate_config] accepts without an error. *)
Theorem reset_to_default_round_trip s :
  config_locked s = false → config_read_only s = false →
  ∃ s',
    reset_to_default strftime isoformat s = (s', Returns true) ∧
    load s' = (s', Returns get_default_config) ∧
    validate_config (PDict get_default_config) s' = (s', Returns (true, [])).
Proof.
  intros Hl Hw. unfold reset_to_default.
  pose proof (load_config_at_saved_default 999 0 s (or_intror (conj Hl Hw))) as Hload.
  rewrite tick_0 in Hload.
  destruct (save_config_valid get_default_config s default_config_basic Hl Hw)
    as (s1 & _ & _ & _ & Hrun).
  rewrite Hrun in Hload |- *. cbn [fst] in Hload.
  eexists. split_and!; [done | exact Hload | ].
  generalize (set_config_file
    (Some (File (clock s)
       (Json (PDict (<["_metadata" := metadata s1]> get_default_config))))) s1).
  intros s'. vm_compute. reflexivity.
Qed.


End ConfigManagerSpec.


(** ** The properties at work on the example disks *)

Lemma demo_config_not_mistyped : ¬ mistyped (PDict demo_config).
Proof.
  intros (key & t & v & Hin & Hv & Hty). unfold schema in Hin.
  repeat (apply elem_of_cons in Hin as [[= -> ->] | Hin];
          [vm_compute in Hv; injection Hv as <-; discriminate Hty | ]).
  by apply elem_of_nil in Hin.
Qed.

Lemma save_load_round_trip_witness :
  ∃ s' metadata d',
    save_config demo_strftime demo_isoformat (PDict demo_config) demo_disk =
      (s', Returns true) ∧
    config_file s' =
      Some (File (clock demo_disk) (Json (PDict (<["_metadata" := metadata]> demo_config)))) ∧
    load_config demo_strftime demo_isoformat s' = (s', Returns d') ∧
    d' !! "_metadata" = None ∧
    (∀ key, key ≠ "_metadata" → d' !! key = demo_config !! key) ∧
    (demo_config !! "_metadata" = None → d' = demo_config).
Proof.
  apply (save_load_round_trip demo_strftime demo_isoformat demo_config demo_disk []).
  - vm_compute. reflexivity.
  - reflexivity.
  - reflexivity.
Defined.

Lemma validate_checks_range_save_does_not_witness :
  (∃ errors,
      validate_config (PDict demo_out_of_range) demo_disk =
        (demo_disk, Returns (false, errors)) ∧
      range_error "x" ∈ errors) ∧
  (config_locked demo_disk = false → config_read_only demo_disk = false →
   ∃ s', save_config demo_strftime demo_isoformat (PDict demo_out_of_range) demo_disk =
           (s', Returns true)).
Proof.
  apply (validate_checks_range_save_does_not demo_strftime demo_isoformat
           demo_out_of_range demo_position 9999999 demo_disk).
  - intros key t Hin. unfold schema in Hin.
    repeat (apply elem_of_cons in Hin as [[= -> ->] | Hin];
            [eexists; split; [vm_compute; reflexivity | reflexivity] | ]).
    by apply elem_of_nil in Hin.
  - vm_compute. reflexivity.
  - vm_compute. reflexivity.
  - right. lia.
Defined.


Lemma public_methods_can_raise_witness :
  load_config demo_strftime demo_isoformat demo_list_file =
    (demo_list_file, Raises AttributeError) ∧
  validate_config PNone demo_list_file = (demo_list_file, Raises TypeError).
Proof.
  destruct (public_methods_can_raise demo_strftime demo_isoformat) as [Hload Hvalidate].
  split.
  - apply (Hload demo_list_file 90 [PInt 1; PInt 2]); reflexivity.
  - apply Hvalidate.
Defined.

Lemma save_config_type_checks_only_witness :
  save_config demo_strftime demo_isoformat
    (PDict (<["icon_size" := PStr "large"]> demo_config)) demo_disk =
    (demo_disk, Returns false) ∧
  save_config demo_strftime demo_isoformat (PList []) demo_disk = (demo_disk, Returns false) ∧
  ∃ s', save_config demo_strftime demo_isoformat (PDict (<["app_path" := PStr "a.exe"]> ∅))
          demo_disk = (s', Returns true).
Proof.
  destruct (save_config_type_checks_only demo_strftime demo_isoformat) as [Hreject Haccept].
  split_and!.
  - apply Hreject. exists "icon_size", Tint, (PStr "large").
    split_and!; [ | vm_compute; reflexivity | reflexivity].
    apply (list_elem_of_lookup_2 _ 4%nat). reflexivity.
  - apply Hreject. exact I.
  - apply Haccept; [ | reflexivity | reflexivity].
    intros (key & t & v & Hin & Hv & Hty). unfold schema in Hin.
    repeat (apply elem_of_cons in Hin as [[= -> ->] | Hin];
            [vm_compute in Hv; first [discriminate Hv | injection Hv as <-; discriminate Hty] | ]).
    by apply elem_of_nil in Hin.
Defined.




Lemma six_saves_in_one_second :
  ∃ s',
    saves demo_strftime demo_isoformat (replicate 6 (0, PDict demo_config)) demo_disk =
      (s', replicate 6 (Returns true)) ∧
    backups_of s' = [(100, "config_backup_100.json"); (30, "config_backup_40.json")] ∧
    length (backups_of s') ≠ 5%nat.
Proof.
  exists (saves demo_strftime demo_isoformat (replicate 6 (0, PDict demo_config)) demo_disk).1.
  split_and!.
  - vm_compute. reflexivity.
  - vm_compute. reflexivity.
  - vm_compute. discriminate.
Qed.

Lemma backup_rotation_witness :
  ∃ s',
    saves demo_strftime demo_isoformat (replicate 6 (1, PDict demo_config)) demo_disk =
      (s', replicate 6 (Returns true)) ∧
    backups_of s' ≡ₚ
      [(101, "config_backup_102.json"); (102, "config_backup_103.json");
       (103, "config_backup_104.json"); (104, "config_backup_105.json");
       (105, "config_backup_106.json")] ∧
    length (backups_of s') = 5%nat.
Proof.
  destruct (backup_rotation demo_strftime demo_isoformat) as (_ & _ & Hsaves).
  apply (Hsaves demo_disk
           (<["config_backup_40.json" := File 30 (Json (PDict get_default_config))]> ∅)
           1 demo_config (replicate 5 (1, PDict demo_config))).
  - reflexivity.
  - reflexivity.
  - reflexivity.
  - reflexivity.
  - reflexivity.
  - intros f [= <-]. cbn. lia.
  - intros x Hx.
    assert (backups_of demo_disk = [(30, "config_backup_40.json")]) as Heq
      by (vm_compute; reflexivity).
    rewrite Heq in Hx. apply list_elem_of_singleton in Hx as ->. cbn. lia.
  - lia.
  - apply demo_config_not_mistyped.
  - intros dt' config [= -> ->]%elem_of_replicate_inv. split; [lia | ].
    exists demo_config. split; [done | apply demo_config_not_mistyped].
  - cbn. lia.
  - assert ((backups_made demo_strftime (clock demo_disk + 1)
               (replicate 5 (1, PDict demo_config)).*1).*2 =
            ["config_backup_102.json"; "config_backup_103.json"; "config_backup_104.json";
             "config_backup_105.json"; "config_backup_106.json"]) as ->
      by (vm_compute; reflexivity).
    apply (bool_decide_unpack _). vm_compute. exact I.
Defined.

(** A read-only backup file stops the rotation: the cleanup fails at the
    first removal, each save succeeds all the same, and the backups pile
    up. *)
Lemma read_only_backup_blocks_rotation :
  ∃ s',
    saves demo_strftime demo_isoformat (replicate 6 (1, PDict demo_config))
      demo_read_only_backup = (s', replicate 6 (Returns true)) ∧
    length (backups_of s') = 7%nat.
Proof.
  exists (saves demo_strftime demo_isoformat (replicate 6 (1, PDict demo_config))
            demo_read_only_backup).1.
  split; vm_compute; reflexivity.
Qed.


(** ** The further properties at work on the examples *)

Lemma default_config_not_mistyped : ¬ mistyped (PDict get_default_config).
Proof. intros H%mistyped_iff. vm_compute in H. discriminate H. Qed.

Lemma save_config_writes_metadata_witness :
  ∃ md,
    config_file (save_config demo_strftime demo_isoformat (PDict demo_config) demo_disk).1 =
      Some (File (clock demo_disk) (Json (PDict (<["_metadata" := PDict md]> demo_config)))) ∧
    md !! "backup_count" =
      Some (PInt (Z.of_nat (length (backups_of
        (save_config demo_strftime demo_isoformat (PDict demo_config) demo_disk).1)))) ∧
    md !! "last_modified" = Some (PStr (demo_isoformat (clock demo_disk))) ∧
    dom md = {["backup_count"; "last_modified"]}.
Proof.
  apply (save_config_writes_metadata demo_strftime demo_isoformat demo_config demo_disk).
  vm_compute. reflexivity.
Defined.

Lemma validate_config_missing_keys_witness :
  validate_config (PDict (<["app_path" := PStr "a.exe"]> (<["version" := PInt 1]> ∅)))
    demo_fresh =
    (demo_fresh,
     Returns (false, missing_key_error <$>
                       ["icon_position"; "icon_fixed"; "auto_start"; "icon_size"])).
Proof.
  pose proof (validate_config_missing_keys
                (<["app_path" := PStr "a.exe"]> (<["version" := PInt 1]> ∅)) demo_fresh)
    as Hrun.
  assert (filter (λ key : string,
                    key ∉ dom (<["app_path" := PStr "a.exe"]>
                                 (<["version" := PInt 1]> (∅ : gmap string pyval))))
                 required_keys =
          ["icon_position"; "icon_fixed"; "auto_start"; "icon_size"]) as Heq
    by (vm_compute; reflexivity).
  rewrite Heq in Hrun. apply Hrun. discriminate.
Defined.

Lemma load_config_idempotent_witness :
  load_config demo_strftime demo_isoformat
    (restored (BackupPath "config_backup_1.json") (File 10 (Json (PDict demo_config)))
       demo_corrupted) =
    (restored (BackupPath "config_backup_1.json") (File 10 (Json (PDict demo_config)))
       demo_corrupted,
     Returns (delete "_metadata" demo_config)) ∧
  ∀ dt,
    load_config demo_strftime demo_isoformat
      (tick dt (restored (BackupPath "config_backup_1.json")
                  (File 10 (Json (PDict demo_config))) demo_corrupted)) =
      (tick dt (restored (BackupPath "config_backup_1.json")
                  (File 10 (Json (PDict demo_config))) demo_corrupted),
       Returns (delete "_metadata" demo_config)).
Proof.
  apply (load_config_idempotent demo_strftime demo_isoformat demo_corrupted).
  - reflexivity.
  - vm_compute. reflexivity.
Defined.

(** A save that is refused because the configuration file is read-only
    has made a backup of it all the same; the backup is read-only too. *)
Lemma refused_save_leaves_backup :
  ∃ s',
    save_config demo_strftime demo_isoformat (PDict demo_config) demo_read_only =
      (s', Returns false) ∧
    config_file s' = config_file demo_read_only ∧
    lookup_file (BackupPath "config_backup_100.json") demo_read_only = None ∧
    lookup_file (BackupPath "config_backup_100.json") s' =
      Some (File 50 (Json (PDict demo_config))) ∧
    is_read_only (BackupPath "config_backup_100.json") s' = true.
Proof.
  exists (save_config demo_strftime demo_isoformat (PDict demo_config) demo_read_only).1.
  split_and!; vm_compute; reflexivity.
Qed.

Lemma backup_config_keeps_newest_witness :
  ∃ s',
    backup_config demo_strftime demo_disk =
      (s', Returns (Some (BackupPath "config_backup_100.json"))) ∧
    lookup_file (BackupPath "config_backup_100.json") s' =
      Some (File 50 (Json (PDict demo_config))).
Proof.
  apply (backup_config_keeps_newest demo_strftime (File 50 (Json (PDict demo_config)))
           (<["config_backup_40.json" := File 30 (Json (PDict get_default_config))]> ∅)
           demo_disk); try reflexivity.
  - apply not_elem_of_empty.
  - apply (proj1 (Forall_forall
                    (λ x : Z * string, x.2 ≠ "config_backup_100.json" →
                                       tuple_le x (50, "config_backup_100.json")) _)).
    apply (bool_decide_unpack _). vm_compute. exact I.
Defined.

Lemma backup_config_drops_oldest_witness :
  ∃ s',
    backup_config demo_strftime demo_restored =
      (s', Returns (Some (BackupPath "config_backup_100.json"))) ∧
    lookup_file (BackupPath "config_backup_100.json") s' = None ∧
    backups_of s' ≡ₚ last_n 5 (sort (backups_of demo_restored)).
Proof.
  apply (backup_config_drops_oldest demo_strftime (File 20 (Json (PDict demo_config)))
           demo_five_backups demo_restored); try reflexivity.
  apply (proj1 (Forall_forall
                  (λ x : Z * string, tuple_le (20, "config_backup_100.json") x) _)).
  apply (bool_decide_unpack _). vm_compute. exact I.
Defined.

Lemma cleanup_keeps_newest_witness :
  ∃ s',
    _cleanup_old_backups 2 demo_restored = (s', Returns tt) ∧
    backups_of s' ≡ₚ last_n 2 (sort (backups_of demo_restored)) ∧
    ((length (backups_of demo_restored) ≤ 2)%nat → s' = demo_restored).
Proof.
  apply (cleanup_keeps_newest 2 demo_five_backups demo_restored); [reflexivity .. | lia].
Defined.

Lemma save_then_restore_undoes_witness :
  ∃ s1 s2,
    save_config demo_strftime demo_isoformat (PDict get_default_config) demo_disk =
      (s1, Returns true) ∧
    restore_from_backup (BackupPath "config_backup_100.json") s1 = (s2, Returns true) ∧
    config_file s2 = Some (File 50 (Json (PDict demo_config))) ∧
    (∀ d0, PDict demo_config = PDict d0 →
           load_config demo_strftime demo_isoformat s2 = (s2, Returns (delete "_metadata" d0))).
Proof.
  apply (save_then_restore_undoes demo_strftime demo_isoformat get_default_config
           (File 50 (Json (PDict demo_config))) (PDict demo_config)
           (<["config_backup_40.json" := File 30 (Json (PDict get_default_config))]> ∅)
           demo_disk); try reflexivity.
  - apply default_config_not_mistyped.
  - apply (proj1 (Forall_forall
                    (λ x : Z * string, x.2 ≠ "config_backup_100.json" →
                                       tuple_le x (50, "config_backup_100.json")) _)).
    apply (bool_decide_unpack _). vm_compute. exact I.
Defined.

Lemma reset_to_default_round_trip_witness :
  ∃ s',
    reset_to_default demo_strftime demo_isoformat demo_disk = (s', Returns true) ∧
    load_config demo_strftime demo_isoformat s' = (s', Returns get_default_config) ∧
    validate_config (PDict get_default_config) s' = (s', Returns (true, [])).
Proof.
  apply (reset_to_default_round_trip demo_strftime demo_isoformat demo_disk); reflexivity.
Defined.

Lemma demo_order_perm : demo_order ≡ₚ INVALID_CHARS.
Proof. unfold demo_order, INVALID_CHARS. solve_Permutation. Qed.

(** The two example paths have none of the five violations. *)
Lemma demo_paths_no_violation file_path w :
  file_path = "C:\tools\app.exe" ∨ file_path = "C:\tools\empty.exe" →
  ¬ violates demo_isabs file_path w.
Proof.
  intros Hp Hw.
  assert (Forall (λ char, str_contains char file_path = false) INVALID_CHARS) as Hchars.
  { destruct Hp as [-> | ->]; repeat constructor. }
  destruct w as [ | | char | | ]; simpl in Hw.
  - destruct Hp as [-> | ->]; vm_compute in Hw; lia.
  - destruct Hp as [-> | ->]; vm_compute in Hw; discriminate Hw.
  - destruct Hw as [Hin Hc]. rewrite Forall_forall in Hchars.
    rewrite (Hchars _ Hin) in Hc. discriminate Hc.
  - destruct Hp as [-> | ->]; vm_compute in Hw; discriminate Hw.
  - destruct Hp as [-> | ->]; vm_compute in Hw; discriminate Hw.
Qed.

Lemma validate_security_accepts_iff_witness :
  _validate_security demo_isabs demo_order "C:\tools\app.exe" (Machine 0 []) =
    (Machine 0 [], Returns (true, None)).
Proof.
  apply (validate_security_accepts_iff demo_isabs demo_order "C:\tools\app.exe"
           (Machine 0 []) demo_order_perm).
  split_and!.
  - vm_compute. lia.
  - reflexivity.
  - apply Forall_forall. repeat constructor.
  - reflexivity.
  - reflexivity.
Defined.

Lemma validate_security_order_independent_witness :
  ∃ r1 r2,
    _validate_security demo_isabs demo_order "C:\tools\a*pp?.exe" (Machine 0 []) =
      (Machine 0 [], Returns r1) ∧
    _validate_security demo_isabs INVALID_CHARS "C:\tools\a*pp?.exe" (Machine 0 []) =
      (Machine 0 [], Returns r2) ∧
    r1.1 = r2.1.
Proof.
  destruct (validate_security_order_independent demo_isabs demo_order INVALID_CHARS
              "C:\tools\a*pp?.exe" (Machine 0 []) demo_order_perm (reflexivity _))
    as (r1 & r2 & H1 & H2 & Hsame & _).
  exists r1, r2. split_and!; [exact H1 | exact H2 | exact Hsame].
Defined.

Lemma launch_application_spawns_witness :
  launch_application Z.of_nat demo_isabs demo_stat demo_suffix demo_lower demo_popen
    demo_order "C:\tools\app.exe" ["--quiet"] (Machine 0 []) =
    (Machine 2 [["C:\tools\app.exe"; "--quiet"]],
     Returns (mkLaunchResult true (Some 4242) None None 1000)).
Proof.
  apply (launch_application_spawns Z.of_nat demo_isabs demo_stat demo_suffix demo_lower
           demo_popen demo_order "C:\tools\app.exe" ["--quiet"] 10 4242 (Machine 0 [])).
  - apply demo_order_perm.
  - intros w. apply demo_paths_no_violation. by left.
  - reflexivity.
  - lia.
  - vm_compute. set_solver.
  - reflexivity.
Defined.

Lemma launch_application_refuses_non_executable_witness :
  ∃ m',
    launch_application Z.of_nat demo_isabs demo_stat demo_suffix demo_lower demo_popen
      demo_order "C:\tools\empty.exe" [] (Machine 0 []) =
      (m', Returns (mkLaunchResult false None None
                      (Some ("無効なファイル形式です: " +:+ "C:\tools\empty.exe")) 1000)) ∧
    spawned m' = [].
Proof.
  destruct (launch_application_refuses_non_executable Z.of_nat demo_isabs demo_stat
              demo_suffix demo_lower demo_popen demo_order "C:\tools\empty.exe" []
              (Machine 0 [])) as (m' & msg & Hrun & Hspawn & ->).
  - apply demo_order_perm.
  - intros w. apply demo_paths_no_violation. by right.
  - left. reflexivity.
  - exists m'. split; [exact Hrun | exact Hspawn].
Defined.

Lemma launch_application_reports_popen_error_witness :
  ∃ m',
    launch_application Z.of_nat demo_isabs demo_stat demo_suffix demo_lower
      demo_popen_refused demo_order "C:\tools\app.exe" [] (Machine 0 []) =
      (m', Returns (mkLaunchResult false None (Some 193)
                      (Some ("システムエラー: " +:+
                             "[WinError 193] %1 is not a valid Win32 application"))
                      1000)).
Proof.
  apply (launch_application_reports_popen_error Z.of_nat demo_isabs demo_stat demo_suffix
           demo_lower demo_popen_refused demo_order "C:\tools\app.exe" [] 10
           (OSError (Some 193) "[WinError 193] %1 is not a valid Win32 application")
           (Machine 0 [])).
  - apply demo_order_perm.
  - intros w. apply demo_paths_no_violation. by left.
  - reflexivity.
  - lia.
  - vm_compute. set_solver.
  - reflexivity.
Defined.

Lemma kill_application_all_matching_witness :
  kill_application demo_to_lower demo_basename demo_normpath demo_processes demo_terminate
    "C:\tools\app.exe" [] =
    ([12; 10], Returns true).
Proof.
  apply (kill_application_all_matching demo_to_lower demo_basename demo_normpath
           demo_processes demo_terminate "C:\tools\app.exe" []).
  intros p e _ _. unfold demo_terminate. by destruct (info_pid p =? 13).
Defined.

Lemma kill_application_stops_at_error_witness :
  kill_application demo_to_lower demo_basename demo_normpath demo_processes
    demo_terminate_broken "C:\tools\app.exe" [] =
    ([10], Returns false).
Proof.
  apply (kill_application_stops_at_error demo_to_lower demo_basename demo_normpath
           demo_processes demo_terminate_broken "C:\tools\app.exe"
           [Process 10 (Some "App.exe") (Some "D:\copy\App.exe");
            Process 11 (Some "other.exe") None]
           (Process 12 None (Some "c:\tools\APP.EXE"))
           (OtherException "boom")
           [Process 13 (Some "app.exe") (Some "C:\tools\app.exe")] []).
  - reflexivity.
  - vm_compute. reflexivity.
  - reflexivity.
  - intros q e' Hq _. unfold demo_terminate_broken.
    apply elem_of_cons in Hq as [-> | Hq]; [done | ].
    apply elem_of_cons in Hq as [-> | Hq]; [done | ].
    by apply elem_of_nil in Hq.
Defined.
